(** * Poker Tallies and Rowies: the settlement engine of [App]

    A shallow embedding of the handlers and pure calculations of the
    React component [App] (chip ledger, Rowie side bet, Bubble ranked
    settlement, mercy reduction, leaderboard, summary and history of
    rounds) together with the properties that the specification states
    about them and further properties that the code shows.

    Modelling conventions.
    - The arrays kept in component state ([chips], [rowie],
      [handResults], the [playerResults] of a hand) hold integers: they
      are filled from [parseInt] with [NaN] replaced by [0], and are
      represented as [list Z].
    - A JavaScript array that is written by index ([payouts],
      [rowieTotals]) is a [list (option A)]: [None] is a hole, and a
      write past the end extends the array as JavaScript does.
    - A JavaScript number that may leave the integers (the operand of
      [Math.round], the result of a division) is a [number]: an exact
      rational, or one of [Infinity], [-Infinity], [NaN].  Finite
      arithmetic is exact in this model; module [Double] repeats the
      two arithmetic expressions of the program on binary64 doubles and
      the two are compared by evaluation where a statement rests on
      them.
    - An object used as a dictionary ([groupedPlayers]) is a [gmap].
    - A handler that reads an array slot answers in [option]: [None]
      stands for an execution that leaves this fragment (a read past
      the end gives [undefined], arithmetic on it gives [NaN], a
      property read on it throws).  The theorems about such a handler
      show that it answers [Some] on the states a game reaches. *)

From Stdlib Require Import ZArith QArith Qround Qabs Lia Ascii String.
From Stdlib Require PrimFloat SpecFloat FloatOps FloatAxioms.
From stdpp Require Import base list gmap sorting strings.

Set Warnings "-inexact-float".

Local Open Scope Z_scope.

(** ** JavaScript arrays written by index *)

Module Js.

(** [Array(n).fill(v)] *)
Definition Array_fill {A : Type} (n : nat) (v : A) : list (option A) :=
  replicate n (Some v).

(** [a[i] = v]: in range the slot is overwritten, out of range the
    array grows to length [i + 1] and the slots in between are holes. *)
Definition set {A : Type} (i : nat) (v : A) (a : list (option A))
  : list (option A) :=
  if decide (i < length a)%nat then <[i := Some v]> a
  else a ++ replicate (i - length a) None ++ [Some v].

(** [a.reduce((sum, x) => sum + x, 0)] on an array of integers;
    [reduce] skips holes. *)
Definition sum (a : list (option Z)) : Z :=
  foldl (λ acc slot, match slot with Some x => acc + x | None => acc end) 0 a.

End Js.

(** ** Ranked settlement: [calculateBubblePayouts] *)

Definition BUBBLE_AMOUNT : Z := 10.

Module Bubble.

(** The object [{ chips, index }] built by [finalChips.map]. *)
Record player : Type := { chips : Z; index : nat }.

Definition playerChips (finalChips : list Z) : list player :=
  imap (λ index chips, {| chips := chips; index := index |}) finalChips.

(** One step of the [reduce] that groups players by chip amount:
    create the group when the key is absent, then push the player. *)
Definition group_step (groups : gmap Z (list player)) (p : player)
  : gmap Z (list player) :=
  let key := chips p in
  let groups :=
    match groups !! key with
    | None => <[key := []]> groups
    | Some _ => groups
    end in
  alter (λ g, g ++ [p]) key groups.

Definition groupedPlayers (pcs : list player) : gmap Z (list player) :=
  foldl group_step ∅ pcs.

(** The comparator [(a, b) => b - a] puts [a] before [b] when [b <= a]. *)
Definition descending (a b : Z) : Prop := b ≤ a.

#[global] Instance descending_dec : RelDecision descending :=
  λ a b, decide (b ≤ a).

(** [Object.keys(groupedPlayers).map(Number).sort((a, b) => b - a)].
    The keys are pairwise distinct, so the sorted array does not depend
    on the order in which the keys are enumerated nor on the sorting
    algorithm (lemma [descending_sort_unique] below). *)
Definition sortedChipAmounts (groups : gmap Z (list player)) : list Z :=
  merge_sort descending (map_to_list groups).*1.

(** [amounts.reduce((sum, amount) => sum + groupedPlayers[amount].length, 0)] *)
Definition group_sizes (groups : gmap Z (list player)) (amounts : list Z) : Z :=
  foldl (λ sum amount, sum + Z.of_nat (length (groups !!! amount))) 0 amounts.

Definition playersAbove groups (sorted : list Z) (rank : nat) : Z :=
  group_sizes groups (take rank sorted).

Definition playersBelow groups (sorted : list Z) (rank : nat) : Z :=
  group_sizes groups (drop (rank + 1) sorted).

Definition payoutPerPlayer (unitAmount : Z) groups sorted (rank : nat) : Z :=
  playersBelow groups sorted rank * unitAmount
  - playersAbove groups sorted rank * unitAmount.

(** Body of [sortedChipAmounts.forEach((chipAmount, rank) => ...)]. *)
Definition rank_step (unitAmount : Z) groups sorted
    (payouts : list (option Z)) (entry : nat * Z) : list (option Z) :=
  let '(rank, chipAmount) := entry in
  let playersAtThisRank := groups !!! chipAmount in
  foldl (λ payouts p,
           Js.set (index p) (payoutPerPlayer unitAmount groups sorted rank) payouts)
        payouts playersAtThisRank.

(** [calculateBubblePayouts] with the unit amount as a parameter;
    [numPlayers] is the component state captured by the closure. *)
Definition calculateBubblePayoutsWith (unitAmount : Z) (numPlayers : nat)
    (finalChips : list Z) : list (option Z) :=
  let payouts := Js.Array_fill numPlayers 0 in
  let groups := groupedPlayers (playerChips finalChips) in
  let sorted := sortedChipAmounts groups in
  foldl (rank_step unitAmount groups sorted) payouts (imap pair sorted).

End Bubble.

Definition calculateBubblePayouts (numPlayers : nat) (finalChips : list Z)
  : list (option Z) :=
  Bubble.calculateBubblePayoutsWith BUBBLE_AMOUNT numPlayers finalChips.

(** ** JavaScript numbers outside the integers *)

Inductive number : Type :=
  | Finite (q : Q)
  | Infinity
  | NegInfinity
  | NaN.

Module Number.

Definition Int (z : Z) : number := Finite (inject_Z z).

(** The sign of a rational as a comparison with zero. *)
Definition sign (q : Q) : comparison := Qcompare q (inject_Z 0).

(** [x / y] (IEEE 754): a nonzero finite number divided by zero is an
    infinity, [0 / 0] is [NaN].  Zero is always positive zero here:
    the divisor of [calculateRowiePayouts] is a sum that starts from
    the literal [0]. *)
Definition div (x y : number) : number :=
  match x, y with
  | NaN, _ | _, NaN => NaN
  | Finite a, Finite b =>
      match sign b with
      | Eq => match sign a with Eq => NaN | Gt => Infinity | Lt => NegInfinity end
      | _ => Finite (Qdiv a b)
      end
  | Finite _, (Infinity | NegInfinity) => Finite (inject_Z 0)
  | Infinity, Finite b => match sign b with Lt => NegInfinity | _ => Infinity end
  | NegInfinity, Finite b => match sign b with Lt => Infinity | _ => NegInfinity end
  | (Infinity | NegInfinity), (Infinity | NegInfinity) => NaN
  end.

(** [x * y]: an infinity times zero is [NaN]. *)
Definition mul (x y : number) : number :=
  match x, y with
  | NaN, _ | _, NaN => NaN
  | Finite a, Finite b => Finite (Qmult a b)
  | Infinity, Finite b | Finite b, Infinity =>
      match sign b with Eq => NaN | Gt => Infinity | Lt => NegInfinity end
  | NegInfinity, Finite b | Finite b, NegInfinity =>
      match sign b with Eq => NaN | Gt => NegInfinity | Lt => Infinity end
  | Infinity, Infinity | NegInfinity, NegInfinity => Infinity
  | Infinity, NegInfinity | NegInfinity, Infinity => NaN
  end.

(** [Math.round] on a rational: the nearest integer, a tie going
    towards positive infinity. *)
Definition round (q : Q) : Z := Qfloor (Qplus q (1 # 2)).

(** [Math.round(x)]; the infinities and [NaN] are returned unchanged. *)
Definition Math_round (x : number) : number :=
  match x with
  | Finite q => Int (round q)
  | other => other
  end.

(** [Math.max(...xs)] on integers; [-Infinity] for no argument. *)
Definition Math_max (xs : list Z) : number :=
  match xs with
  | [] => NegInfinity
  | x :: rest => Int (foldl Z.max x rest)
  end.

(** [x === y] on numbers. *)
Definition strict_eq (x y : number) : bool :=
  match x, y with
  | Finite a, Finite b => Qeq_bool a b
  | Infinity, Infinity | NegInfinity, NegInfinity => true
  | _, _ => false
  end.

End Number.

(** ** Proportional pot: [calculateRowiePayouts] *)

(** One iteration of [rowiePoints.forEach((points, idx) => ...)].  The
    second component records every division that is evaluated, as the
    pair of its numerator and denominator. *)
Definition rowie_step (totalPoints potSize : Z)
    (acc : list (option number) * list (Z * Z)) (entry : nat * Z)
  : list (option number) * list (Z * Z) :=
  let '(payouts, divisions) := acc in
  let '(idx, points) := entry in
  if decide (0 < points)
  then (Js.set idx
          (Number.Math_round
             (Number.mul (Number.div (Number.Int points) (Number.Int totalPoints))
                         (Number.Int potSize)))
          payouts,
        divisions ++ [(points, totalPoints)])
  else (payouts, divisions).

(** [calculateRowiePayouts] together with the divisions it evaluates.
    [numPlayers] and [potAmount] (that is [rowieSettings.potAmount]) are
    the component state captured by the closure. *)
Definition rowiePayoutsTraced (numPlayers : nat) (potAmount : Z)
    (rowiePoints : list Z) : list (option number) * list (Z * Z) :=
  let payouts := Js.Array_fill numPlayers (Number.Int 0) in
  let totalPoints := foldl (λ sum points, sum + points) 0 rowiePoints in
  let potSize := Z.of_nat numPlayers * potAmount in
  foldl (rowie_step totalPoints potSize) (payouts, []) (imap pair rowiePoints).

Definition calculateRowiePayouts (numPlayers : nat) (potAmount : Z)
    (rowiePoints : list Z) : list (option number) :=
  (rowiePayoutsTraced numPlayers potAmount rowiePoints).1.

(** ** Mercy: the reduction applied to each chip total *)

(** [Math.round((chip * 0.05) / 2 / 2)] *)
Definition mercyAmount (chip : Z) : Z :=
  Number.round (Qdiv (Qdiv (Qmult (inject_Z chip) (5 # 100)) (inject_Z 2)) (inject_Z 2)).

(** ** Strings *)

Module Str.

(** [s.charAt(0)]: the first character, or the empty string. *)
Definition charAt0 (s : string) : string :=
  match s with
  | EmptyString => EmptyString
  | String c _ => String c EmptyString
  end.

Definition upper_ascii (c : ascii) : ascii :=
  let n := nat_of_ascii c in
  if decide (97 ≤ n ≤ 122)%nat then ascii_of_nat (n - 32) else c.

(** [s.toUpperCase()] on ASCII text: the letters [a] to [z] are
    mapped to [A] to [Z], every other character is kept. *)
Fixpoint toUpperCase (s : string) : string :=
  match s with
  | EmptyString => EmptyString
  | String c rest => String (upper_ascii c) (toUpperCase rest)
  end.

Definition is_space (c : ascii) : bool :=
  let n := nat_of_ascii c in
  bool_decide (n = 32 ∨ 9 ≤ n ≤ 13)%nat.

Fixpoint all_space (s : string) : bool :=
  match s with
  | EmptyString => true
  | String c rest => is_space c && all_space rest
  end.

(** [s.trim() === ''] on ASCII text. *)
Definition blank (s : string) : bool := all_space s.

(** The text that this module stands for: every character is one of
    the 128 ASCII characters.  On other text [toUpperCase] and [trim]
    follow Unicode, which the functions above do not. *)
Fixpoint is_ascii (s : string) : bool :=
  match s with
  | EmptyString => true
  | String c rest => bool_decide (nat_of_ascii c < 128)%nat && is_ascii rest
  end.

End Str.

(** ** Component state *)

Module Hand.
Record t : Type := { playerResults : list Z; date : string }.
End Hand.

Module RowieSettings.
Record t : Type := {
  startHand : Z;
  numHands : Z;
  potAmount : Z;
  currentHand : Z;
  isComplete : bool
}.

(** The literal used wherever the settings are reset. *)
Definition initial : t :=
  {| startHand := 0; numHands := 0; potAmount := 5; currentHand := 0;
     isComplete := false |}.
End RowieSettings.

Module CompletedRowie.
Record t : Type := {
  rowieNumber : Z;
  startHand : Z;
  endHand : Z;
  value : Z;
  winners : list string
}.
End CompletedRowie.

(** The [useState] cells of [App] that the game handlers read or write.
    The session history ([history], [selectedHistory]) is left out: no
    handler below touches it. *)
Record State : Type := {
  step : Z;
  numPlayers : nat;
  playerNames : list string;
  chips : list Z;
  rowie : list Z;
  rowieSettings : RowieSettings.t;
  hands : list Hand.t;
  currentHandIndex : Z;
  handResults : list Z;
  explicitlyEntered : list (option bool);
  showSummary : bool;
  mercyApplied : bool;
  preMercyChips : list Z;
  completedRowies : list CompletedRowie.t
}.

(** The state setters; each replaces one cell. *)

Definition setStep (v : Z) (st : State) : State :=
  {| step := v; numPlayers := numPlayers st; playerNames := playerNames st;
     chips := chips st; rowie := rowie st; rowieSettings := rowieSettings st;
     hands := hands st; currentHandIndex := currentHandIndex st;
     handResults := handResults st;
     explicitlyEntered := explicitlyEntered st;
     showSummary := showSummary st; mercyApplied := mercyApplied st;
     preMercyChips := preMercyChips st;
     completedRowies := completedRowies st |}.

Definition setNumPlayers (v : nat) (st : State) : State :=
  {| step := step st; numPlayers := v; playerNames := playerNames st;
     chips := chips st; rowie := rowie st; rowieSettings := rowieSettings st;
     hands := hands st; currentHandIndex := currentHandIndex st;
     handResults := handResults st;
     explicitlyEntered := explicitlyEntered st;
     showSummary := showSummary st; mercyApplied := mercyApplied st;
     preMercyChips := preMercyChips st;
     completedRowies := completedRowies st |}.

Definition setPlayerNames (v : list string) (st : State) : State :=
  {| step := step st; numPlayers := numPlayers st; playerNames := v;
     chips := chips st; rowie := rowie st; rowieSettings := rowieSettings st;
     hands := hands st; currentHandIndex := currentHandIndex st;
     handResults := handResults st;
     explicitlyEntered := explicitlyEntered st;
     showSummary := showSummary st; mercyApplied := mercyApplied st;
     preMercyChips := preMercyChips st;
     completedRowies := completedRowies st |}.

Definition setChips (v : list Z) (st : State) : State :=
  {| step := step st; numPlayers := numPlayers st;
     playerNames := playerNames st; chips := v; rowie := rowie st;
     rowieSettings := rowieSettings st; hands := hands st;
     currentHandIndex := currentHandIndex st; handResults := handResults st;
     explicitlyEntered := explicitlyEntered st;
     showSummary := showSummary st; mercyApplied := mercyApplied st;
     preMercyChips := preMercyChips st;
     completedRowies := completedRowies st |}.

Definition setRowie (v : list Z) (st : State) : State :=
  {| step := step st; numPlayers := numPlayers st;
     playerNames := playerNames st; chips := chips st; rowie := v;
     rowieSettings := rowieSettings st; hands := hands st;
     currentHandIndex := currentHandIndex st; handResults := handResults st;
     explicitlyEntered := explicitlyEntered st;
     showSummary := showSummary st; mercyApplied := mercyApplied st;
     preMercyChips := preMercyChips st;
     completedRowies := completedRowies st |}.

Definition setRowieSettings (v : RowieSettings.t) (st : State) : State :=
  {| step := step st; numPlayers := numPlayers st;
     playerNames := playerNames st; chips := chips st; rowie := rowie st;
     rowieSettings := v; hands := hands st;
     currentHandIndex := currentHandIndex st; handResults := handResults st;
     explicitlyEntered := explicitlyEntered st;
     showSummary := showSummary st; mercyApplied := mercyApplied st;
     preMercyChips := preMercyChips st;
     completedRowies := completedRowies st |}.

Definition setHands (v : list Hand.t) (st : State) : State :=
  {| step := step st; numPlayers := numPlayers st;
     playerNames := playerNames st; chips := chips st; rowie := rowie st;
     rowieSettings := rowieSettings st; hands := v;
     currentHandIndex := currentHandIndex st; handResults := handResults st;
     explicitlyEntered := explicitlyEntered st;
     showSummary := showSummary st; mercyApplied := mercyApplied st;
     preMercyChips := preMercyChips st;
     completedRowies := completedRowies st |}.

Definition setCurrentHandIndex (v : Z) (st : State) : State :=
  {| step := step st; numPlayers := numPlayers st;
     playerNames := playerNames st; chips := chips st; rowie := rowie st;
     rowieSettings := rowieSettings st; hands := hands st;
     currentHandIndex := v; handResults := handResults st;
     explicitlyEntered := explicitlyEntered st;
     showSummary := showSummary st; mercyApplied := mercyApplied st;
     preMercyChips := preMercyChips st;
     completedRowies := completedRowies st |}.

Definition setHandResults (v : list Z) (st : State) : State :=
  {| step := step st; numPlayers := numPlayers st;
     playerNames := playerNames st; chips := chips st; rowie := rowie st;
     rowieSettings := rowieSettings st; hands := hands st;
     currentHandIndex := currentHandIndex st; handResults := v;
     explicitlyEntered := explicitlyEntered st;
     showSummary := showSummary st; mercyApplied := mercyApplied st;
     preMercyChips := preMercyChips st;
     completedRowies := completedRowies st |}.

Definition setExplicitlyEntered (v : list (option bool)) (st : State) : State :=
  {| step := step st; numPlayers := numPlayers st;
     playerNames := playerNames st; chips := chips st; rowie := rowie st;
     rowieSettings := rowieSettings st; hands := hands st;
     currentHandIndex := currentHandIndex st; handResults := handResults st;
     explicitlyEntered := v; showSummary := showSummary st;
     mercyApplied := mercyApplied st; preMercyChips := preMercyChips st;
     completedRowies := completedRowies st |}.

Definition setShowSummary (v : bool) (st : State) : State :=
  {| step := step st; numPlayers := numPlayers st;
     playerNames := playerNames st; chips := chips st; rowie := rowie st;
     rowieSettings := rowieSettings st; hands := hands st;
     currentHandIndex := currentHandIndex st; handResults := handResults st;
     explicitlyEntered := explicitlyEntered st; showSummary := v;
     mercyApplied := mercyApplied st; preMercyChips := preMercyChips st;
     completedRowies := completedRowies st |}.

Definition setMercyApplied (v : bool) (st : State) : State :=
  {| step := step st; numPlayers := numPlayers st;
     playerNames := playerNames st; chips := chips st; rowie := rowie st;
     rowieSettings := rowieSettings st; hands := hands st;
     currentHandIndex := currentHandIndex st; handResults := handResults st;
     explicitlyEntered := explicitlyEntered st;
     showSummary := showSummary st; mercyApplied := v;
     preMercyChips := preMercyChips st;
     completedRowies := completedRowies st |}.


Definition setCompletedRowies (v : list CompletedRowie.t) (st : State) : State :=
  {| step := step st; numPlayers := numPlayers st;
     playerNames := playerNames st; chips := chips st; rowie := rowie st;
     rowieSettings := rowieSettings st; hands := hands st;
     currentHandIndex := currentHandIndex st; handResults := handResults st;
     explicitlyEntered := explicitlyEntered st;
     showSummary := showSummary st; mercyApplied := mercyApplied st;
     preMercyChips := preMercyChips st; completedRowies := v |}.

(** ** Handlers *)

(** What a handler shows to the user. *)
Inductive Dialog : Type :=
  | Alert (title : string)
  | AlertMessage (title message : string)
  | ConfirmStartRowie (handsLength : nat).

(** [xs.reduce((sum, result) => sum + result, 0)] *)
Definition sum_results (xs : list Z) : Z :=
  foldl (λ sum result, sum + result) 0 xs.

(** [xs.map((x, idx) => x + handResults[idx])].  A read past the end of
    [handResults] is [undefined] and the sum [NaN]: the result leaves
    the integers and the model answers [None]. *)
Definition add_results (xs handResults : list Z) : option (list Z) :=
  mapM (λ entry : nat * Z,
          let '(idx, x) := entry in (λ r, x + r) <$> handResults !! idx)
       (imap pair xs).

(** [l.slice(start)] *)
Definition slice_from {A : Type} (start : Z) (l : list A) : list A :=
  let len := Z.of_nat (length l) in
  let k := if decide (start < 0) then Z.max (len + start) 0 else Z.min start len in
  drop (Z.to_nat k) l.

(** [rowieTotals[playerIdx] += amount]; on a missing slot the sum is
    [NaN] and the model answers [None]. *)
Definition add_at (totals : list Z) (playerIdx : nat) (amount : Z)
  : option (list Z) :=
  (λ t, <[playerIdx := t + amount]> totals) <$> totals !! playerIdx.

(** The two nested [forEach] loops that sum the results of the hands of
    a Rowie, starting from [Array(numPlayers).fill(0)]. *)
Definition rowieTotalsOf (numPlayers : nat) (rowieResults : list Hand.t)
  : option (list Z) :=
  foldl (λ acc result,
           foldl (λ acc (entry : nat * Z),
                    totals ← acc; add_at totals entry.1 entry.2)
                 acc (imap pair (Hand.playerResults result)))
        (Some (replicate numPlayers 0)) rowieResults.

(** [playerNames[idx].charAt(0).toUpperCase()] *)
Definition initial_of (name : string) : string :=
  Str.toUpperCase (Str.charAt0 name).

(** The players tied for first place, each recorded by [initial_of];
    a missing name would throw and the model answers [None]. *)
Definition winnersOf (playerNames : list string) (rowieTotals : list Z)
  : option (list string) :=
  let maxPoints := Number.Math_max rowieTotals in
  mapM (λ entry : nat * Z, initial_of <$> playerNames !! entry.1)
       (filter (λ entry : nat * Z,
                  Number.strict_eq (Number.Int entry.2) maxPoints = true)
               (imap pair rowieTotals)).

Definition sum_error : Dialog :=
  AlertMessage "Error" "Hand results must sum to zero.".

(** The Rowie branch of [handleSubmitHand]; [st] is the state the
    handler was rendered with, [acc] the updates queued so far. *)
Definition submit_rowie (newHand : Hand.t) (st acc : State) : option State :=
  let rs := rowieSettings st in
  if decide (0 < RowieSettings.currentHand rs) then
    newRowie ← add_results (rowie st) (handResults st);
    let acc := setRowie newRowie acc in
    if decide (RowieSettings.currentHand rs = 1) then
      let rowieResults := slice_from (RowieSettings.startHand rs) (hands st) ++ [newHand] in
      rowieTotals ← rowieTotalsOf (numPlayers st) rowieResults;
      winners ← winnersOf (playerNames st) rowieTotals;
      let newCompletedRowie :=
        {| CompletedRowie.rowieNumber := Z.of_nat (length (completedRowies st)) + 1;
           CompletedRowie.startHand := RowieSettings.startHand rs + 1;
           CompletedRowie.endHand := Z.of_nat (length (hands st)) + 1;
           CompletedRowie.value := RowieSettings.potAmount rs;
           CompletedRowie.winners := winners |} in
      Some (setRowieSettings
              {| RowieSettings.startHand := RowieSettings.startHand rs;
                 RowieSettings.numHands := RowieSettings.numHands rs;
                 RowieSettings.potAmount := RowieSettings.potAmount rs;
                 RowieSettings.currentHand := 0;
                 RowieSettings.isComplete := true |}
              (setCompletedRowies (completedRowies st ++ [newCompletedRowie]) acc))
    else
      Some (setRowieSettings
              {| RowieSettings.startHand := RowieSettings.startHand rs;
                 RowieSettings.numHands := RowieSettings.numHands rs;
                 RowieSettings.potAmount := RowieSettings.potAmount rs;
                 RowieSettings.currentHand := RowieSettings.currentHand rs - 1;
                 RowieSettings.isComplete := RowieSettings.isComplete rs |}
              acc)
  else if RowieSettings.isComplete rs then
    Some (setRowieSettings
            {| RowieSettings.startHand := RowieSettings.startHand rs;
               RowieSettings.numHands := RowieSettings.numHands rs;
               RowieSettings.potAmount := RowieSettings.potAmount rs;
               RowieSettings.currentHand := RowieSettings.currentHand rs;
               RowieSettings.isComplete := false |}
            acc)
  else Some acc.

(** [handleSubmitHand]; [now] stands for [new Date().toLocaleString()]. *)
Definition handleSubmitHand (now : string) (st : State)
  : option (State * list Dialog) :=
  let total := sum_results (handResults st) in
  if decide (total ≠ 0) then Some (st, [sum_error])
  else
    let newHand := {| Hand.playerResults := handResults st; Hand.date := now |} in
    let newHands := hands st ++ [newHand] in
    let acc := setCurrentHandIndex (Z.of_nat (length newHands) - 1)
                 (setHands newHands st) in
    newChips ← add_results (chips st) (handResults st);
    let acc := setChips newChips acc in
    acc ← submit_rowie newHand st acc;
    Some (setExplicitlyEntered (Js.Array_fill (numPlayers st) false)
            (setHandResults (replicate (numPlayers st) 0) acc), []).


Definition rowie_open_error : Dialog :=
  Alert "Please complete the current Rowie before starting a new one.".

Definition rowie_settings_error : Dialog :=
  Alert "Please fill in all Rowie settings.".

Definition handleNewRowie (st : State) : State * list Dialog :=
  if decide (0 < RowieSettings.currentHand (rowieSettings st))
  then (st, [rowie_open_error])
  else (setStep 4 st, []).

(** The two fields edited on the Rowie settings screen. *)
Inductive RowieField : Type := FieldNumHands | FieldPotAmount.

(** [handleRowieSettings(field, value)] as called by the two inputs. *)
Definition handleRowieSettings (field : RowieField) (value : Z) (st : State)
  : State :=
  let rs := rowieSettings st in
  setRowieSettings
    (match field with
     | FieldNumHands =>
         {| RowieSettings.startHand := RowieSettings.startHand rs;
            RowieSettings.numHands := value;
            RowieSettings.potAmount := RowieSettings.potAmount rs;
            RowieSettings.currentHand := RowieSettings.currentHand rs;
            RowieSettings.isComplete := RowieSettings.isComplete rs |}
     | FieldPotAmount =>
         {| RowieSettings.startHand := RowieSettings.startHand rs;
            RowieSettings.numHands := RowieSettings.numHands rs;
            RowieSettings.potAmount := value;
            RowieSettings.currentHand := RowieSettings.currentHand rs;
            RowieSettings.isComplete := RowieSettings.isComplete rs |}
     end) st.

(** [handleRowieSettingsContinue]: a validation alert, or the
    confirmation dialog, which captures [hands.length]. *)
Definition handleRowieSettingsContinue (st : State) : State * list Dialog :=
  let rs := rowieSettings st in
  if decide (RowieSettings.numHands rs ≤ 0 ∨ RowieSettings.potAmount rs ≤ 0)
  then (st, [rowie_settings_error])
  else (st, [ConfirmStartRowie (length (hands st))]).

(** The [onPress] of the button [Start Rowie] of that dialog. *)
Definition startRowie_onPress (handsLength : nat) (st : State) : State :=
  let prev := rowieSettings st in
  setStep 3
    (setRowieSettings
       {| RowieSettings.startHand := Z.of_nat handsLength;
          RowieSettings.numHands := RowieSettings.numHands prev;
          RowieSettings.potAmount := RowieSettings.potAmount prev;
          RowieSettings.currentHand := RowieSettings.numHands prev;
          RowieSettings.isComplete := false |} st).

Definition handleMercyCalculation (st : State) : State :=
  let newChips := (λ chip, mercyAmount chip) <$> chips st in
  setMercyApplied true (setChips newChips st).



Definition names_error : Dialog := Alert "Please enter all player names.".

Definition handleNamesContinue (st : State) : State * list Dialog :=
  if existsb Str.blank (playerNames st) then (st, [names_error])
  else
    (setStep 3
       (setMercyApplied false
          (setShowSummary false
             (setHandResults (replicate (numPlayers st) 0)
                (setCompletedRowies []
                   (setCurrentHandIndex (-1)
                      (setHands []
                         (setRowieSettings RowieSettings.initial
                            (setRowie (replicate (numPlayers st) 0)
                               (setChips (replicate (numPlayers st) 0) st))))))))),
     []).

(** The [rowiePayouts] that [saveToHistory] computes for the round it
    stores: [calculateRowiePayouts(rowie)]. *)
Definition savedRowiePayouts (st : State) : list (option number) :=
  calculateRowiePayouts (numPlayers st)
    (RowieSettings.potAmount (rowieSettings st)) (rowie st).

(** *** Entering results and moving between hands *)

(** The text of a chip input as [handleHandResult] tells it apart: the
    empty string, a lone minus sign, or any other text with the value
    [parseInt] gives it ([None] for [NaN]). *)
Inductive FieldText : Type :=
  | TextEmpty
  | TextMinus
  | TextOther (parsed : option Z).

(** [a[idx] = v] on an array of integers without holes: a write past
    the slot after the last one would leave a hole, and the model
    answers [None]. *)
Definition set_dense (idx : nat) (v : Z) (a : list Z) : option (list Z) :=
  if decide (idx < length a)%nat then Some (<[idx := v]> a)
  else if decide (idx = length a) then Some (a ++ [v])
  else None.

Definition handleHandResult (idx : nat) (value : FieldText) (st : State)
  : option State :=
  let '(result, entered) :=
    match value with
    | TextEmpty => (0, false)
    | TextMinus => (0, true)
    | TextOther parsed => (default 0 parsed, true)
    end in
  newResults ← set_dense idx result (handResults st);
  Some (setExplicitlyEntered (Js.set idx entered (explicitlyEntered st))
          (setHandResults newResults st)).

Definition toggleNegative (idx : nat) (st : State) : option State :=
  r ← handResults st !! idx;
  Some (setHandResults (<[idx := - r]> (handResults st)) st).

(** [hands[k]] for a numeric index. *)
Definition hand_at (k : Z) (hs : list Hand.t) : option Hand.t :=
  if decide (0 ≤ k) then hs !! Z.to_nat k else None.

(** The three navigation handlers; reading the results of a hand that
    does not exist throws, and the model answers [None]. *)
Definition handlePreviousHand (st : State) : option State :=
  if decide (0 < currentHandIndex st) then
    h ← hand_at (currentHandIndex st - 1) (hands st);
    Some (setExplicitlyEntered (Js.Array_fill (numPlayers st) true)
            (setHandResults (Hand.playerResults h)
               (setCurrentHandIndex (currentHandIndex st - 1) st)))
  else Some st.

Definition handleNextHand (st : State) : option State :=
  if decide (currentHandIndex st < Z.of_nat (length (hands st)) - 1) then
    h ← hand_at (currentHandIndex st + 1) (hands st);
    Some (setExplicitlyEntered (Js.Array_fill (numPlayers st) true)
            (setHandResults (Hand.playerResults h)
               (setCurrentHandIndex (currentHandIndex st + 1) st)))
  else Some st.

Definition handleCurrentHand (st : State) : option State :=
  h ← hand_at (Z.of_nat (length (hands st)) - 1) (hands st);
  Some (setExplicitlyEntered (Js.Array_fill (numPlayers st) true)
          (setHandResults (Hand.playerResults h)
             (setCurrentHandIndex (Z.of_nat (length (hands st)) - 1) st))).

(** ** The game screen as a machine *)

(** What the user can do while a game is being played.  Each event
    reaches its handler only where [renderGamePlay] renders the control
    that raises it. *)
Inductive Event : Type :=
  | TypeResult (idx : nat) (value : FieldText)
  | PressMinus (idx : nat)
  | PressSubmit (now : string)
  | PressPrevious
  | PressNext
  | PressCurrent
  | PressNewRowie
  | EditRowie (field : RowieField) (value : Z)
  | PressStartRowie (confirmed : bool).

(** [step === 3] with the summary hidden: the player rows, [Submit
    Hand], the hand navigation, [New Rowie]. *)
Definition game_screen (st : State) : bool :=
  bool_decide (step st = 3) && negb (showSummary st).

(** [step === 4] with the summary hidden: the Rowie settings. *)
Definition settings_screen (st : State) : bool :=
  bool_decide (step st = 4) && negb (showSummary st).

Definition dispatch (st : State) (e : Event) : option State :=
  match e with
  | TypeResult idx value =>
      if game_screen st && bool_decide (idx < length (playerNames st))%nat
      then handleHandResult idx value st else Some st
  | PressMinus idx =>
      if game_screen st && bool_decide (idx < length (playerNames st))%nat
      then toggleNegative idx st else Some st
  | PressSubmit now =>
      if game_screen st then fst <$> handleSubmitHand now st else Some st
  | PressPrevious =>
      if game_screen st && bool_decide (0 < length (hands st))%nat
         && negb (bool_decide (currentHandIndex st ≤ 0))
      then handlePreviousHand st else Some st
  | PressNext =>
      if game_screen st && bool_decide (0 < length (hands st))%nat
         && negb (bool_decide (Z.of_nat (length (hands st)) - 1 ≤ currentHandIndex st))
      then handleNextHand st else Some st
  | PressCurrent =>
      if game_screen st && bool_decide (0 < length (hands st))%nat
         && bool_decide (currentHandIndex st < Z.of_nat (length (hands st)) - 1)
      then handleCurrentHand st else Some st
  | PressNewRowie =>
      if game_screen st then Some (handleNewRowie st).1 else Some st
  | EditRowie field value =>
      if settings_screen st then Some (handleRowieSettings field value st)
      else Some st
  | PressStartRowie confirmed =>
      if settings_screen st then
        match handleRowieSettingsContinue st with
        | (st', [ConfirmStartRowie handsLength]) =>
            Some (if confirmed then startRowie_onPress handsLength st' else st')
        | (st', _) => Some st'
        end
      else Some st
  end.

Fixpoint run (st : State) (events : list Event) : option State :=
  match events with
  | [] => Some st
  | e :: rest => st' ← dispatch st e; run st' rest
  end.

(** The events that type the vector [ds] into the chip inputs, one
    input after the other. *)
Definition type_results (ds : list Z) : list Event :=
  imap (λ idx d, TypeResult idx (TextOther (Some d))) ds.

(** Typing [ds], then pressing [Submit Hand]. *)
Definition enter_hand (now : string) (ds : list Z) : list Event :=
  type_results ds ++ [PressSubmit now].

(** ** Setting a game up *)

(** The initial values of the [useState] cells. *)
Definition initialState : State :=
  {| step := 1;
     numPlayers := 2;
     playerNames := replicate 2 EmptyString;
     chips := replicate 2 0;
     rowie := replicate 2 0;
     rowieSettings := RowieSettings.initial;
     hands := [];
     currentHandIndex := -1;
     handResults := replicate 2 0;
     explicitlyEntered := Js.Array_fill 2 false;
     showSummary := false;
     mercyApplied := false;
     preMercyChips := [];
     completedRowies := [] |}.

Definition handleNumPlayers (n : nat) (st : State) : State :=
  setStep 2
    (setHandResults (replicate n 0)
       (setRowie (replicate n 0)
          (setChips (replicate n 0)
             (setPlayerNames (replicate n EmptyString)
                (setNumPlayers n st))))).

(** ** The vocabulary of the specification *)

(** [applyHand(deltas, priorTotals)] as the specification words it: the
    elementwise sum of the prior totals and the deltas of the hand. *)
Definition applyHand (totals : list Z) (h : Hand.t) : list Z :=
  zip_with Z.add totals (Hand.playerResults h).

(** Replaying the hand history from scratch, for [n] players:
    [total[p] = sum over all hands h of h.delta[p]]. *)
Definition replay (n : nat) (hs : list Hand.t) : list Z :=
  foldl applyHand (replicate n 0) hs.

(** [above]: the number of players in strictly higher-valued groups. *)
Definition countAbove (finalChips : list Z) (v : Z) : Z :=
  Z.of_nat (length (filter (λ c, v < c) finalChips)).

(** [below]: the number of players in strictly lower-valued groups. *)
Definition countBelow (finalChips : list Z) (v : Z) : Z :=
  Z.of_nat (length (filter (λ c, c < v) finalChips)).

(** [payout = unitAmount * (below - above)] *)
Definition rankedPayout (unitAmount : Z) (finalChips : list Z) (v : Z) : Z :=
  unitAmount * (countBelow finalChips v - countAbove finalChips v).

(** The hands of the window that closes with [newHand]: those recorded
    since the window was opened, and [newHand]. *)
Definition windowHands (st : State) (newHand : Hand.t) : list Hand.t :=
  drop (Z.to_nat (RowieSettings.startHand (rowieSettings st))) (hands st)
  ++ [newHand].

(** The names of the players whose window total is [m]. *)
Definition tiedAt (m : Z) (playerNames : list string) (totals : list Z)
  : list string :=
  (filter (λ e : string * Z, e.2 = m) (zip playerNames totals)).*1.

(** The payout that [calculateRowiePayouts] writes for an entry
    [points > 0]: the divisor is the sum of all entries. *)
Definition rowiePayout (numPlayers : nat) (potAmount : Z) (rowiePoints : list Z)
    (points : Z) : number :=
  Number.Math_round
    (Number.mul
       (Number.div (Number.Int points) (Number.Int (sum_results rowiePoints)))
       (Number.Int (Z.of_nat numPlayers * potAmount))).

(** What holds of every state of a game of [n] players, from the moment
    the names are confirmed until the game is ended. *)
Record game_inv (n : nat) (st : State) : Prop := {
  inv_numPlayers : numPlayers st = n;
  inv_names : length (playerNames st) = n;
  inv_chips : chips st = replay n (hands st);
  inv_rowie : length (rowie st) = n;
  inv_results : length (handResults st) = n;
  inv_hands :
    Forall (λ h, length (Hand.playerResults h) = n
                 ∧ sum_results (Hand.playerResults h) = 0) (hands st);
  inv_index : -1 ≤ currentHandIndex st < Z.of_nat (length (hands st));
  inv_summary : showSummary st = false;
  inv_step :
    step st = 3
    ∨ (step st = 4 ∧ RowieSettings.currentHand (rowieSettings st) = 0);
  inv_current : 0 ≤ RowieSettings.currentHand (rowieSettings st);
  inv_window :
    0 < RowieSettings.currentHand (rowieSettings st) →
    0 ≤ RowieSettings.startHand (rowieSettings st) ≤ Z.of_nat (length (hands st))
    ∧ RowieSettings.startHand (rowieSettings st)
      + RowieSettings.numHands (rowieSettings st)
      = Z.of_nat (length (hands st))
        + RowieSettings.currentHand (rowieSettings st)
}.

(** ** The same arithmetic on IEEE 754 doubles

    The model above computes finite quotients and products exactly.
    JavaScript computes them on binary64 doubles, each operation
    rounded to nearest.  The definitions below repeat the two
    arithmetic expressions of the program on the kernel's primitive
    doubles, so that the exact model can be compared with them by
    evaluation. *)

Module Double.
Import PrimFloat.

(** The double that holds an integer (exact below [2^53]). *)
Definition of_Z (z : Z) : float :=
  FloatOps.SF2Prim (SpecFloat.binary_normalize FloatOps.prec FloatOps.emax z 0 false).

(** [Math.round(x)] on a double: a finite double is [n * 2^e] for
    integers [n] and [e], and its rounding is computed on integers. *)
Definition Math_round (x : float) : number :=
  match FloatOps.Prim2SF x with
  | SpecFloat.S754_zero _ => Number.Int 0
  | SpecFloat.S754_finite s m e =>
      let n := if s then Z.neg m else Z.pos m in
      Number.Int (if decide (0 ≤ e) then n * 2 ^ e
                  else (2 * n + 2 ^ (- e)) / 2 ^ (- e + 1))
  | SpecFloat.S754_infinity false => Infinity
  | SpecFloat.S754_infinity true => NegInfinity
  | SpecFloat.S754_nan => NaN
  end.

(** [Math.round((points / totalPoints) * potSize)] *)
Definition rowiePayout (numPlayers : nat) (potAmount : Z) (rowiePoints : list Z)
    (points : Z) : number :=
  Math_round (of_Z points / of_Z (sum_results rowiePoints)
              * of_Z (Z.of_nat numPlayers * potAmount))%float.

(** [Math.round((chip * 0.05) / 2 / 2)] *)
Definition mercyAmount (chip : Z) : number :=
  Math_round (of_Z chip * 0.05 / 2 / 2)%float.

(** [handResults.reduce((sum, result) => sum + result, 0)] *)
Definition sum_results (xs : list Z) : float :=
  foldl (λ sum result, sum + of_Z result)%float 0%float xs.

(** [total !== 0] *)
Definition total_nonzero (xs : list Z) : bool :=
  negb (sum_results xs =? 0)%float.

(** [chips.map((chip, idx) => chip + handResults[idx])] *)
Definition add_results (totals : list float) (results : list Z) : list float :=
  zip_with (λ chip result, chip + of_Z result)%float totals results.

(** The chips that the program holds after the hands [hs], each added
    in its turn to chips that start at 0. *)
Definition replay (n : nat) (hs : list Hand.t) : list float :=
  foldl (λ totals h, add_results totals (Hand.playerResults h))
        (replicate n 0%float) hs.

End Double.

(** ** Auxiliary definitions for the proofs *)

(** A batch of indexed writes, applied from left to right. *)
Definition assign_all {A : Type} (writes : list (nat * A)) (a : list (option A))
  : list (option A) :=
  foldl (λ a e, Js.set e.1 e.2 a) a writes.

Definition nonempty {A : Type} (l : list A) : option (list A) :=
  match l with [] => None | _ => Some l end.

Definition with_chips (k : Z) (pcs : list Bubble.player) : list Bubble.player :=
  filter (λ p, Bubble.chips p = k) pcs.

Definition count_eq (k : Z) (cs : list Z) : Z :=
  Z.of_nat (length (filter (λ c, c = k) cs)).

Definition sumZ {A : Type} (f : A → Z) (l : list A) : Z :=
  foldr (λ x acc, f x + acc) 0 l.

(** The writes of one iteration of the loop over the ranks. *)
Definition rank_writes (unitAmount : Z) (groups : gmap Z (list Bubble.player))
    (sorted : list Z) (entry : nat * Z) : list (nat * Z) :=
  (λ p, (Bubble.index p, Bubble.payoutPerPlayer unitAmount groups sorted entry.1))
    <$> (groups !!! entry.2).

(** The writes of [calculateRowiePayouts] over the given entries. *)
Definition rowie_writes (numPlayers : nat) (potAmount : Z) (rowiePoints : list Z)
    (entries : list (nat * Z)) : list (nat * number) :=
  (λ e : nat * Z, (e.1, rowiePayout numPlayers potAmount rowiePoints e.2))
    <$> filter (λ e : nat * Z, 0 < e.2) entries.

(** ** Sample games *)

(** Three players, as in the first and third scenarios of the
    specification. *)
Definition three_player_game : State :=
  (handleNamesContinue
     (setPlayerNames ["ann"; "ben"; "cy"]%string
        (handleNumPlayers 3 initialState))).1.

(** Four players, two of them sharing an initial. *)
Definition four_players : State :=
  setPlayerNames ["alice"; "Al"; "bob"; "carol"]%string
    (handleNumPlayers 4 initialState).

Definition four_player_game : State := (handleNamesContinue four_players).1.

(** A Rowie of two hands at 5 per player is opened. *)
Definition open_rowie : list Event :=
  [PressNewRowie; EditRowie FieldNumHands 2; EditRowie FieldPotAmount 5;
   PressStartRowie true].

(** The state [events] lead to from [four_player_game]. *)
Definition after (events : list Event) : State :=
  default four_player_game (run four_player_game events).


(** The window of the second scenario of the specification, played to
    its end: hands [10, -10, 0, 0] and [5, -5, 0, 0]. *)
Definition scenario_window : State :=
  after (open_rowie ++ enter_hand "hand 1" [10; -10; 0; 0]
         ++ enter_hand "hand 2" [5; -5; 0; 0]).


(** * The rest of the component *)

(** ** Naming the players *)

(** [a[idx] = v] on an array without holes: a write past the slot
    after the last one would leave a hole, and the model answers
    [None]. *)
Definition write_dense {A : Type} (idx : nat) (v : A) (a : list A)
  : option (list A) :=
  if decide (idx < length a)%nat then Some (<[idx := v]> a)
  else if decide (idx = length a) then Some (a ++ [v])
  else None.

Definition handlePlayerName (idx : nat) (name : string) (st : State)
  : option State :=
  newNames ← write_dense idx name (playerNames st);
  Some (setPlayerNames newNames st).

(** The name inputs of [renderPlayerNames] filled in one after the
    other: [handlePlayerName(idx, names[idx])] for every [idx]. *)
Definition type_names (names : list string) (st : State) : option State :=
  foldl (λ acc (entry : nat * string),
           st ← acc; handlePlayerName entry.1 entry.2 st)
        (Some st) (imap pair names).

(** ** The Rowie leaderboard: [renderRowieLeaderboard] *)




(** ** The summary: [renderSummary] *)






(** ** The history of finished rounds *)

Module GameRound.
Record t : Type := {
  date : string;
  playerNames : list string;
  finalChips : list Z;
  rowiePoints : list Z;
  rowiePayouts : list (option number);
  bubblePayouts : list (option Z);
  rowieSettings : RowieSettings.t;
  hands : list Hand.t;
  completedRowies : list CompletedRowie.t
}.
End GameRound.

(** The [round] that [saveToHistory] builds; [now] stands for
    [new Date().toLocaleString()]. *)
Definition roundOf (now : string) (st : State) : GameRound.t :=
  {| GameRound.date := now;
     GameRound.playerNames := playerNames st;
     GameRound.finalChips := chips st;
     GameRound.rowiePoints := rowie st;
     GameRound.rowiePayouts := savedRowiePayouts st;
     GameRound.bubblePayouts := calculateBubblePayouts (numPlayers st) (chips st);
     GameRound.rowieSettings := rowieSettings st;
     GameRound.hands := hands st;
     GameRound.completedRowies := completedRowies st |}.

(** [saveToHistory] on the history kept in memory: the new round comes
    first.  (The copy written to the device storage is not modelled.) *)
Definition saveToHistory (now : string) (st : State)
    (history : list GameRound.t) : list GameRound.t :=
  roundOf now st :: history.

(** [handleSaveAndExit]: the round is saved and the cells that the
    handler names are reset. *)
Definition handleSaveAndExit (now : string) (st : State)
    (history : list GameRound.t) : State * list GameRound.t :=
  (setCurrentHandIndex (-1)
     (setHands []
        (setRowieSettings RowieSettings.initial
           (setRowie (replicate 2 0)
              (setChips (replicate 2 0)
                 (setPlayerNames (replicate 2 EmptyString)
                    (setNumPlayers 2
                       (setStep 1
                          (setMercyApplied false
                             (setShowSummary false st))))))))),
   saveToHistory now st history).

(** The [onPress] of [Delete] in [deleteHistoryRound]:
    [newHistory.splice(index, 1)] for an index of the rendered list. *)
Definition deleteHistoryRound (index : nat) (history : list GameRound.t)
  : list GameRound.t :=
  take index history ++ drop (S index) history.

Definition loadHistoryRound (round : GameRound.t) (st : State) : State :=
  setStep 5
    (setHands (GameRound.hands round)
       (setRowieSettings (GameRound.rowieSettings round)
          (setRowie (GameRound.rowiePoints round)
             (setChips (GameRound.finalChips round)
                (setPlayerNames (GameRound.playerNames round) st))))).

(** The [History] button of the bottom menu, enabled when the history
    is not empty. *)
Definition pressHistory (history : list GameRound.t) (st : State) : State :=
  if decide (0 < length history)%nat then setStep 5 st else st.

Definition handleReturnToGame (st : State) : State :=
  setHandResults (replicate (numPlayers st) 0) (setStep 3 st).

Definition exitHistoryView (st : State) : State :=
  setCurrentHandIndex (-1)
    (setHands []
       (setRowieSettings RowieSettings.initial
          (setRowie (replicate 2 0)
             (setChips (replicate 2 0)
                (setPlayerNames (replicate 2 EmptyString)
                   (setNumPlayers 2 (setStep 1 st))))))).

(** The [onPress] of [New Game] in [handleNewGame]. *)
Definition handleNewGame (st : State) : State :=
  setMercyApplied false
    (setShowSummary false
       (setHandResults (replicate 2 0)
          (setCompletedRowies []
             (setCurrentHandIndex (-1)
                (setHands []
                   (setRowieSettings RowieSettings.initial
                      (setRowie (replicate 2 0)
                         (setChips (replicate 2 0)
                            (setPlayerNames (replicate 2 EmptyString)
                               (setNumPlayers 2 (setStep 1 st))))))))))).

(** ** What the log of completed Rowies keeps *)

(** The last hand a completed Rowie may cover: the hand before the
    open window, or the last hand played. *)
Definition log_bound (st : State) : Z :=
  if decide (0 < RowieSettings.currentHand (rowieSettings st))
  then RowieSettings.startHand (rowieSettings st)
  else Z.of_nat (length (hands st)).

Record log_inv (st : State) : Prop := {
  log_rowie_sum : sum_results (rowie st) = 0;
  log_open : 0 < RowieSettings.currentHand (rowieSettings st) →
             RowieSettings.isComplete (rowieSettings st) = false;
  log_numbered :
    ∀ i r, completedRowies st !! i = Some r →
           CompletedRowie.rowieNumber r = Z.of_nat i + 1;
  log_ranges :
    Forall (λ r, 1 ≤ CompletedRowie.startHand r ≤ CompletedRowie.endHand r
                 ∧ CompletedRowie.endHand r ≤ log_bound st)
           (completedRowies st);
  log_sorted :
    StronglySorted (λ r r', CompletedRowie.endHand r < CompletedRowie.startHand r')
                   (completedRowies st)
}.


(** ** The integers that a double holds exactly *)

(** [Number.MAX_SAFE_INTEGER].  The program keeps its integers in
    doubles.  An integer of at most this magnitude is a double, and
    the sum of two doubles whose exact value is such an integer is
    that integer: up to here the arithmetic of the model, on [Z], is
    the arithmetic of the program. *)
Definition MAX_SAFE_INTEGER : Z := 2 ^ 53 - 1.

Definition safe_integer (z : Z) : bool :=
  bool_decide (Z.abs z ≤ MAX_SAFE_INTEGER).

(** The entries of [xs] are summed exactly, in whatever order: their
    absolute values add up to a safe integer, and so every partial
    sum is one. *)
Definition exact_sum (xs : list Z) : bool :=
  safe_integer (sumZ Z.abs xs).

(** The integers of the state are within the range in which the
    program computes on them exactly. *)
Definition exact_state (st : State) : bool :=
  exact_sum (chips st) && exact_sum (rowie st) && exact_sum (handResults st)
  && safe_integer (RowieSettings.numHands (rowieSettings st))
  && safe_integer (RowieSettings.potAmount (rowieSettings st)).

(** Every state that [events] lead through from [st] is exact. *)
Fixpoint exact_run (st : State) (events : list Event) : bool :=
  exact_state st
  && match events with
     | [] => true
     | e :: rest =>
         match dispatch st e with
         | Some st' => exact_run st' rest
         | None => false
         end
     end.

(** ** The binary64 format *)

(** What [k] shifts to the right leave of the mantissa [m]: the
    quotient, the last bit shifted out, and whether a bit before it was set. *)
Definition shifted (m : Z) (k : nat) : SpecFloat.shr_record :=
  match k with
  | O => SpecFloat.Build_shr_record m false false
  | S j =>
      SpecFloat.Build_shr_record (m / 2 ^ Z.of_nat k)
        (Z.odd (m / 2 ^ Z.of_nat j))
        (negb (m mod 2 ^ Z.of_nat j =? 0))
  end.

(** The double that holds an integer below [2^53] in absolute value:
    a mantissa of 53 digits and the exponent that goes with it. *)
Definition mantissa_of (p : positive) : positive :=
  match (53 - Zpos (SpecFloat.digits2_pos p))%Z with
  | Zpos k => Pos.iter xO p k
  | _ => p
  end.

Definition exponent_of (p : positive) : Z := Zpos (SpecFloat.digits2_pos p) - 53.

Definition of_integer (z : Z) : SpecFloat.spec_float :=
  match z with
  | 0 => SpecFloat.S754_zero false
  | Zpos p => SpecFloat.S754_finite false (mantissa_of p) (exponent_of p)
  | Zneg p => SpecFloat.S754_finite true (mantissa_of p) (exponent_of p)
  end.

(** [P / 2^n] rounded to the nearest integer, a tie going to the even
    one. *)
Definition rne (P n : Z) : Z :=
  let f := P / 2 ^ n in
  let r := P mod 2 ^ n in
  if decide (2 * r < 2 ^ n) then f
  else if decide (2 ^ n < 2 * r) then f + 1
  else if Z.even f then f else f + 1.

(** The mantissa of the double [0.05]; its exponent is [-57]. *)
Definition mantissa_005 : positive := 7205759403792794.

(** The totals of at most [2^52] in magnitude.  On these the mercy
    amount that the program computes on doubles is the integer of the
    exact model. *)
Definition mercy_checked (total : Z) : Prop := - 2 ^ 52 ≤ total ≤ 2 ^ 52.

(** ** A saved round entered again *)





(** * Proofs *)

(** ** Arrays written by index *)

Section js_array.
Context {A : Type}.
Implicit Types (a : list (option A)) (i j : nat) (v w : A).

Lemma set_length i v a : length (Js.set i v a) = (length a `max` S i)%nat.
Proof.
  unfold Js.set. case_decide.
  - rewrite length_insert. lia.
  - rewrite !length_app, length_replicate. simpl. lia.
Qed.

Lemma set_lookup_eq i v a : Js.set i v a !! i = Some (Some v).
Proof.
  unfold Js.set. case_decide.
  - by apply list_lookup_insert_eq.
  - rewrite lookup_app_r by lia.
    rewrite lookup_app_r by (rewrite length_replicate; lia).
    rewrite length_replicate. by replace (i - length a - (i - length a))%nat with 0%nat by lia.
Qed.

Lemma set_lookup_ne i j v a :
  i ≠ j → (j < length a)%nat → Js.set i v a !! j = a !! j.
Proof.
  intros Hne Hlt. unfold Js.set. case_decide.
  - by apply list_lookup_insert_ne.
  - by apply lookup_app_l.
Qed.

Lemma assign_all_hit writes : ∀ a i v,
  (∀ w, (i, w) ∈ writes → w = v) →
  a !! i = Some (Some v) ∨ (∃ w, (i, w) ∈ writes) →
  assign_all writes a !! i = Some (Some v).
Proof.
  induction writes as [|[j w] writes IH]; intros a i v Hall Hsome; simpl.
  - destruct Hsome as [?|[w Hw]]; [done|]. by apply elem_of_nil in Hw.
  - apply IH.
    + intros w' Hw'. apply Hall. by right.
    + destruct (decide (j = i)) as [->|Hne].
      * left. rewrite (Hall w) by left. apply set_lookup_eq.
      * destruct Hsome as [Ha|[w' Hw']].
        -- left. rewrite set_lookup_ne; [done..|]. by eapply lookup_lt_Some.
        -- right. exists w'. apply elem_of_cons in Hw' as [[=]|?]; [congruence|done].
Qed.

Lemma assign_all_miss writes : ∀ a i,
  (∀ w, (i, w) ∉ writes) → (i < length a)%nat →
  assign_all writes a !! i = a !! i.
Proof.
  induction writes as [|[j w] writes IH]; intros a i Hnot Hlt; simpl; [done|].
  assert (j ≠ i) by (intros ->; apply (Hnot w); left).
  rewrite IH.
  - by apply set_lookup_ne.
  - intros w' Hw'. apply (Hnot w'). by right.
  - rewrite set_length. lia.
Qed.

Lemma assign_all_length_le writes : ∀ a (b : nat),
  (∀ j w, (j, w) ∈ writes → (j < b)%nat) → (length a ≤ b)%nat →
  (length (assign_all writes a) ≤ b)%nat.
Proof.
  induction writes as [|[j w] writes IH]; intros a b Hb Hlen; simpl; [done|].
  apply IH.
  - intros j' w' Hw'. eapply Hb. by right.
  - rewrite set_length. specialize (Hb j w ltac:(left)). lia.
Qed.

Lemma assign_all_length_ge writes a :
  (length a ≤ length (assign_all writes a))%nat.
Proof.
  revert a. induction writes as [|[j w] writes IH]; intros a; simpl; [done|].
  etrans; [|apply IH]. rewrite set_length. lia.
Qed.
End js_array.

(** ** Grouping the players by chip amount *)

Lemma nonempty_snoc {A} (l : list A) x :
  nonempty (l ++ [x]) = Some (l ++ [x]).
Proof. by destruct l. Qed.

Lemma group_step_lookup g p pre :
  (∀ k, g !! k = nonempty (with_chips k pre)) →
  ∀ k, Bubble.group_step g p !! k = nonempty (with_chips k (pre ++ [p])).
Proof.
  intros Hg k. unfold Bubble.group_step, with_chips.
  rewrite filter_app, filter_cons, filter_nil.
  destruct (decide (Bubble.chips p = k)) as [<-|Hne].
  - rewrite nonempty_snoc. rewrite lookup_alter_eq.
    specialize (Hg (Bubble.chips p)). unfold with_chips in Hg.
    destruct (g !! Bubble.chips p) as [l|] eqn:Hl.
    + rewrite Hl. simpl. destruct (filter _ pre); simplify_eq/=. done.
    + rewrite lookup_insert_eq. simpl.
      destruct (filter _ pre); simplify_eq/=. done.
  - rewrite app_nil_r. rewrite lookup_alter_ne by done.
    destruct (g !! Bubble.chips p); [apply Hg|].
    rewrite lookup_insert_ne by done. apply Hg.
Qed.

Lemma groupedPlayers_lookup pcs k :
  Bubble.groupedPlayers pcs !! k = nonempty (with_chips k pcs).
Proof.
  unfold Bubble.groupedPlayers.
  enough (∀ g pre, (∀ k, g !! k = nonempty (with_chips k pre)) →
            ∀ k, foldl Bubble.group_step g pcs !! k
                 = nonempty (with_chips k (pre ++ pcs))) as H.
  { apply (H ∅ []). intros k'. by rewrite lookup_empty. }
  induction pcs as [|p pcs IH]; intros g pre Hg k'; simpl.
  - rewrite app_nil_r. apply Hg.
  - rewrite (assoc_L (++) pre [p] pcs : pre ++ p :: pcs = (pre ++ [p]) ++ pcs).
    apply IH. by apply group_step_lookup.
Qed.

Lemma groupedPlayers_total pcs k :
  Bubble.groupedPlayers pcs !!! k = with_chips k pcs.
Proof.
  rewrite lookup_total_alt, groupedPlayers_lookup.
  by destruct (with_chips k pcs).
Qed.

Lemma playerChips_chips cs : Bubble.chips <$> Bubble.playerChips cs = cs.
Proof.
  unfold Bubble.playerChips. rewrite fmap_imap.
  apply list_eq. intros i. rewrite list_lookup_imap. simpl.
  by destruct (cs !! i).
Qed.

Lemma filter_fmap_list {A B : Type} (f : A → B) (P : B → Prop)
    `{∀ x, Decision (P x)} (l : list A) :
  filter P (f <$> l) = f <$> filter (λ x, P (f x)) l.
Proof.
  induction l as [|x l IH]; [done|].
  rewrite fmap_cons, !filter_cons, IH. by case_decide.
Qed.

Lemma with_chips_length k cs :
  Z.of_nat (length (with_chips k (Bubble.playerChips cs))) = count_eq k cs.
Proof.
  unfold count_eq, with_chips.
  rewrite <- (playerChips_chips cs) at 2.
  by rewrite filter_fmap_list, length_fmap.
Qed.

Lemma elem_of_with_chips p k cs :
  p ∈ with_chips k (Bubble.playerChips cs) ↔
  Bubble.chips p = k ∧ cs !! Bubble.index p = Some k.
Proof.
  unfold with_chips, Bubble.playerChips.
  rewrite list_elem_of_filter, elem_of_lookup_imap. split.
  - intros [Hk (i & c & -> & Hi)]. simpl in *. by subst.
  - intros [Hk Hi]. split; [done|]. exists (Bubble.index p), k.
    split; [|done]. destruct p; simpl in *. by subst.
Qed.

Lemma elem_of_keys pcs k :
  k ∈ (map_to_list (Bubble.groupedPlayers pcs)).*1 ↔ with_chips k pcs ≠ [].
Proof.
  rewrite list_elem_of_fmap. split.
  - intros [[k' l] [-> Hl]]. apply elem_of_map_to_list in Hl.
    rewrite groupedPlayers_lookup in Hl. simpl. by destruct (with_chips k' pcs).
  - intros Hne. exists (k, with_chips k pcs). split; [done|].
    apply elem_of_map_to_list. rewrite groupedPlayers_lookup.
    by destruct (with_chips k pcs).
Qed.

(** ** The chip amounts in descending order *)

#[local] Instance descending_trans : Transitive Bubble.descending.
Proof. unfold Bubble.descending. intros x y z ??. lia. Qed.
#[local] Instance descending_total : Total Bubble.descending.
Proof. unfold Bubble.descending. intros x y. lia. Qed.
#[local] Instance descending_antisymm : AntiSymm eq Bubble.descending.
Proof. unfold Bubble.descending. intros x y ??. lia. Qed.

(** Sorting distinct keys in descending order has one possible result,
    whatever the order of enumeration and the algorithm. *)
Lemma descending_sort_unique (keys sorted : list Z) :
  sorted ≡ₚ keys → StronglySorted Bubble.descending sorted →
  sorted = merge_sort Bubble.descending keys.
Proof.
  intros Hp Hs. apply (StronglySorted_unique Bubble.descending); [done| |].
  - apply StronglySorted_merge_sort; apply _.
  - by rewrite merge_sort_Permutation.
Qed.

Section sorted.
Variable cs : list Z.
Let groups := Bubble.groupedPlayers (Bubble.playerChips cs).
Let sorted := Bubble.sortedChipAmounts groups.

Lemma sorted_perm : sorted ≡ₚ (map_to_list groups).*1.
  Proof. apply merge_sort_Permutation. Qed.

Lemma sorted_NoDup : NoDup sorted.
  Proof. rewrite sorted_perm. apply NoDup_fst_map_to_list. Qed.

Lemma elem_of_sorted k : k ∈ sorted ↔ k ∈ cs.
  Proof.
    rewrite sorted_perm. unfold groups. rewrite elem_of_keys. split.
    - intros Hne. destruct (with_chips k _) as [|p l] eqn:Hw; [done|].
      assert (p ∈ with_chips k (Bubble.playerChips cs)) as Hp
        by (rewrite Hw; left).
      apply elem_of_with_chips in Hp as [_ Hp]. by eapply list_elem_of_lookup_2.
    - intros [i Hi]%list_elem_of_lookup_1 Hnil.
      assert ({| Bubble.chips := k; Bubble.index := i |}
                ∈ with_chips k (Bubble.playerChips cs)) as Hp
        by by apply elem_of_with_chips.
      rewrite Hnil in Hp. by apply elem_of_nil in Hp.
  Qed.

Lemma sorted_strongly : StronglySorted Bubble.descending sorted.
  Proof. apply StronglySorted_merge_sort; apply _. Qed.

Lemma sorted_split rank k :
    sorted !! rank = Some k →
    sorted = take rank sorted ++ k :: drop (rank + 1) sorted.
  Proof.
    intros H. replace (rank + 1)%nat with (S rank) by lia.
    by rewrite take_drop_middle.
  Qed.

Lemma sorted_before rank k x :
    sorted !! rank = Some k → x ∈ take rank sorted → k < x.
  Proof.
    intros Hk Hx. pose proof sorted_strongly as Hs. pose proof sorted_NoDup as Hn.
    rewrite (sorted_split _ _ Hk) in Hs, Hn.
    assert (Bubble.descending x k) as Hle.
    { eapply StronglySorted_app_1_elem_of; [done..|left]. }
    apply NoDup_app in Hn as (_ & Hn & _).
    assert (x ≠ k) by (intros ->; apply (Hn k); [done|left]).
    unfold Bubble.descending in Hle. lia.
  Qed.

Lemma sorted_after rank k y :
    sorted !! rank = Some k → y ∈ drop (rank + 1) sorted → y < k.
  Proof.
    intros Hk Hy. pose proof sorted_strongly as Hs. pose proof sorted_NoDup as Hn.
    rewrite (sorted_split _ _ Hk) in Hs, Hn.
    apply StronglySorted_app_1_r in Hs. apply NoDup_app in Hn as (_ & _ & Hn).
    apply StronglySorted_cons in Hs as [Hall _]. apply NoDup_cons in Hn as [Hn _].
    rewrite Forall_forall in Hall. specialize (Hall y Hy).
    assert (y ≠ k) by congruence.
    unfold Bubble.descending in Hall. lia.
  Qed.

Lemma sorted_rank_unique r1 r2 k :
    sorted !! r1 = Some k → sorted !! r2 = Some k → r1 = r2.
  Proof. intros. eapply NoDup_lookup; eauto using sorted_NoDup. Qed.

Lemma take_sorted_above rank k x :
    sorted !! rank = Some k → x ∈ cs → x ∈ take rank sorted ↔ k < x.
  Proof.
    intros Hk Hx. split; [by apply sorted_before|]. intros Hlt.
    apply elem_of_sorted in Hx. rewrite (sorted_split _ _ Hk) in Hx.
    apply elem_of_app in Hx as [?|Hx]; [done|].
    apply elem_of_cons in Hx as [->|Hx]; [lia|].
    apply (sorted_after _ _ _ Hk) in Hx. lia.
  Qed.

Lemma drop_sorted_below rank k x :
    sorted !! rank = Some k → x ∈ cs → x ∈ drop (rank + 1) sorted ↔ x < k.
  Proof.
    intros Hk Hx. split; [by apply sorted_after|]. intros Hlt.
    apply elem_of_sorted in Hx. rewrite (sorted_split _ _ Hk) in Hx.
    apply elem_of_app in Hx as [Hx|Hx].
    { apply (sorted_before _ _ _ Hk) in Hx. lia. }
    apply elem_of_cons in Hx as [->|Hx]; [lia|done].
  Qed.
End sorted.

(** ** Counting the players above and below *)

Lemma foldl_add_sumZ {A} (f : A → Z) l : ∀ z,
  foldl (λ sum x, sum + f x) z l = z + sumZ f l.
Proof.
  induction l as [|x l IH]; intros z; simpl; [lia|]. rewrite IH. lia.
Qed.

Lemma sumZ_add {A} (f g : A → Z) l :
  sumZ (λ x, f x + g x) l = sumZ f l + sumZ g l.
Proof. induction l as [|x l IH]; simpl; lia. Qed.

Lemma sumZ_ext {A} (f g : A → Z) l :
  (∀ x, x ∈ l → f x = g x) → sumZ f l = sumZ g l.
Proof.
  induction l as [|x l IH]; intros H; simpl; [done|].
  rewrite (H x) by left. rewrite IH; [done|]. intros y Hy. apply H. by right.
Qed.

Lemma sumZ_indicator (c : Z) l :
  NoDup l →
  sumZ (λ a, if decide (c = a) then 1 else 0) l = if decide (c ∈ l) then 1 else 0.
Proof.
  induction 1 as [|a l Hnotin Hnd IH].
  - rewrite decide_False by apply not_elem_of_nil. done.
  - cbn [sumZ foldr]. fold (sumZ (λ a, if decide (c = a) then 1 else 0) l).
    rewrite IH. destruct (decide (c = a)) as [->|Hne].
    + rewrite decide_False by done. rewrite decide_True by left. done.
    + destruct (decide (c ∈ l)).
      * rewrite decide_True by by right. done.
      * rewrite decide_False; [done|]. by intros [?|?]%elem_of_cons.
Qed.

Lemma count_eq_cons a c cs :
  count_eq a (c :: cs) = (if decide (c = a) then 1 else 0) + count_eq a cs.
Proof. unfold count_eq. rewrite filter_cons. case_decide; simpl; lia. Qed.

Lemma sum_count_eq cs l :
  NoDup l →
  sumZ (λ a, count_eq a cs) l = Z.of_nat (length (filter (λ c, c ∈ l) cs)).
Proof.
  intros Hnd. induction cs as [|c cs IH].
  - simpl. induction l; simpl; [done|]. apply NoDup_cons in Hnd as [_ Hnd].
    unfold count_eq at 1. simpl. auto.
  - rewrite (sumZ_ext _ (λ a, (if decide (c = a) then 1 else 0) + count_eq a cs))
      by (intros; apply count_eq_cons).
    rewrite sumZ_add, IH, sumZ_indicator by done.
    rewrite filter_cons. case_decide; simpl; lia.
Qed.

Lemma filter_ext_elem {A} (P Q : A → Prop) `{∀ x, Decision (P x)}
    `{∀ x, Decision (Q x)} (l : list A) :
  (∀ x, x ∈ l → P x ↔ Q x) → filter P l = filter Q l.
Proof.
  induction l as [|x l IH]; intros Hpq; [done|].
  rewrite !filter_cons, IH by (intros; apply Hpq; by right).
  destruct (Hpq x ltac:(left)). repeat case_decide; tauto || done.
Qed.

Section counts.
Variable cs : list Z.
Let groups := Bubble.groupedPlayers (Bubble.playerChips cs).
Let sorted := Bubble.sortedChipAmounts groups.

Lemma group_sizes_count l :
    Bubble.group_sizes groups l = sumZ (λ a, count_eq a cs) l.
  Proof.
    unfold Bubble.group_sizes.
    rewrite (foldl_add_sumZ (λ a, Z.of_nat (length (groups !!! a)))), Z.add_0_l.
    apply sumZ_ext. intros a _. unfold groups.
    by rewrite groupedPlayers_total, with_chips_length.
  Qed.

Lemma playersAbove_count rank k :
    sorted !! rank = Some k →
    Bubble.playersAbove groups sorted rank = countAbove cs k.
  Proof.
    intros Hk. unfold Bubble.playersAbove, countAbove.
    rewrite group_sizes_count, sum_count_eq.
    - f_equal. f_equal. apply filter_ext_elem. intros x Hx.
      by apply take_sorted_above.
    - eapply sublist_NoDup; [apply sorted_NoDup|apply sublist_take].
  Qed.

Lemma playersBelow_count rank k :
    sorted !! rank = Some k →
    Bubble.playersBelow groups sorted rank = countBelow cs k.
  Proof.
    intros Hk. unfold Bubble.playersBelow, countBelow.
    rewrite group_sizes_count, sum_count_eq.
    - f_equal. f_equal. apply filter_ext_elem. intros x Hx.
      by apply drop_sorted_below.
    - eapply sublist_NoDup; [apply sorted_NoDup|apply sublist_drop].
  Qed.

Lemma payoutPerPlayer_count unitAmount rank k :
    sorted !! rank = Some k →
    Bubble.payoutPerPlayer unitAmount groups sorted rank = rankedPayout unitAmount cs k.
  Proof.
    intros Hk. unfold Bubble.payoutPerPlayer, rankedPayout.
    rewrite (playersAbove_count _ _ Hk), (playersBelow_count _ _ Hk). lia.
  Qed.
End counts.

(** ** The ranked payouts as a batch of writes *)

Lemma rank_step_writes unitAmount groups sorted a entry :
  Bubble.rank_step unitAmount groups sorted a entry
  = assign_all (rank_writes unitAmount groups sorted entry) a.
Proof.
  destruct entry as [rank amount]. unfold Bubble.rank_step, rank_writes, assign_all.
  simpl. generalize (groups !!! amount) as ps. intros ps. revert a.
  induction ps as [|p ps IH]; intros a; simpl; [done|]. apply IH.
Qed.

Lemma ranks_writes unitAmount groups sorted ranks : ∀ a,
  foldl (Bubble.rank_step unitAmount groups sorted) a ranks
  = assign_all (ranks ≫= rank_writes unitAmount groups sorted) a.
Proof.
  induction ranks as [|entry ranks IH]; intros a; simpl; [done|].
  rewrite IH, rank_step_writes. unfold assign_all. by rewrite foldl_app.
Qed.

Section writes.
Variables (unitAmount : Z) (cs : list Z).
Let groups := Bubble.groupedPlayers (Bubble.playerChips cs).
Let sorted := Bubble.sortedChipAmounts groups.
Let writes := imap pair sorted ≫= rank_writes unitAmount groups sorted.

Lemma elem_of_writes i w :
    (i, w) ∈ writes ↔ ∃ v, cs !! i = Some v ∧ w = rankedPayout unitAmount cs v.
  Proof.
    unfold writes. rewrite list_elem_of_bind. split.
    - intros ([rank amount] & Hin & Hrank).
      apply elem_of_lookup_imap in Hrank as (r & a & [= -> ->] & Hr).
      unfold rank_writes in Hin. simpl in Hin.
      apply list_elem_of_fmap in Hin as (p & [= -> ->] & Hp).
      unfold groups in Hp. rewrite groupedPlayers_total in Hp.
      apply elem_of_with_chips in Hp as [_ Hp].
      exists a. split; [done|]. by apply payoutPerPlayer_count.
    - intros (v & Hv & ->).
      assert (v ∈ sorted) as [rank Hrank]%list_elem_of_lookup_1.
      { apply elem_of_sorted. by eapply list_elem_of_lookup_2. }
      exists (rank, v). split; [|by apply elem_of_lookup_imap; eauto].
      unfold rank_writes. simpl. apply list_elem_of_fmap.
      exists {| Bubble.chips := v; Bubble.index := i |}. split.
      + simpl. f_equal. symmetry. by apply payoutPerPlayer_count.
      + unfold groups. rewrite groupedPlayers_total. by apply elem_of_with_chips.
  Qed.
End writes.

Lemma bubble_lookup unitAmount numPlayers cs i v :
  cs !! i = Some v →
  Bubble.calculateBubblePayoutsWith unitAmount numPlayers cs !! i
  = Some (Some (rankedPayout unitAmount cs v)).
Proof.
  intros Hv. unfold Bubble.calculateBubblePayoutsWith. rewrite ranks_writes.
  apply assign_all_hit.
  - intros w (v' & Hv' & ->)%elem_of_writes. congruence.
  - right. exists (rankedPayout unitAmount cs v). apply elem_of_writes. eauto.
Qed.

Lemma bubble_lookup_pad unitAmount numPlayers cs i :
  (length cs ≤ i < numPlayers)%nat →
  Bubble.calculateBubblePayoutsWith unitAmount numPlayers cs !! i = Some (Some 0).
Proof.
  intros [Hge Hlt]. unfold Bubble.calculateBubblePayoutsWith. rewrite ranks_writes.
  rewrite assign_all_miss.
  - unfold Js.Array_fill. by rewrite lookup_replicate_2.
  - intros w (v & Hv & _)%elem_of_writes. apply lookup_lt_Some in Hv. lia.
  - unfold Js.Array_fill. by rewrite length_replicate.
Qed.

Lemma bubble_length unitAmount numPlayers cs :
  length (Bubble.calculateBubblePayoutsWith unitAmount numPlayers cs)
  = (numPlayers `max` length cs)%nat.
Proof.
  apply Nat.le_antisymm.
  - unfold Bubble.calculateBubblePayoutsWith. rewrite ranks_writes.
    apply assign_all_length_le.
    + intros j w (v & Hv & _)%elem_of_writes. apply lookup_lt_Some in Hv. lia.
    + unfold Js.Array_fill. rewrite length_replicate. lia.
  - apply Nat.max_lub.
    + unfold Bubble.calculateBubblePayoutsWith. rewrite ranks_writes.
      etrans; [|apply assign_all_length_ge].
      unfold Js.Array_fill. by rewrite length_replicate.
    + destruct (decide (length cs = 0)%nat) as [->|Hne]; [lia|].
      destruct (lookup_lt_is_Some_2 cs (length cs - 1)) as [v Hv]; [lia|].
      apply (bubble_lookup unitAmount numPlayers) in Hv.
      apply lookup_lt_Some in Hv. lia.
Qed.

Lemma bubble_closed_form unitAmount numPlayers cs :
  Bubble.calculateBubblePayoutsWith unitAmount numPlayers cs
  = ((λ v, Some (rankedPayout unitAmount cs v)) <$> cs)
    ++ replicate (numPlayers - length cs) (Some 0).
Proof.
  apply list_eq. intros i.
  destruct (decide (i < length cs)%nat) as [Hlt|Hge].
  - destruct (lookup_lt_is_Some_2 cs i Hlt) as [v Hv].
    rewrite (bubble_lookup _ _ _ _ _ Hv).
    rewrite lookup_app_l by (by rewrite length_fmap).
    by rewrite list_lookup_fmap, Hv.
  - rewrite lookup_app_r by (rewrite length_fmap; lia). rewrite length_fmap.
    destruct (decide (i < numPlayers)%nat).
    + rewrite bubble_lookup_pad by lia. symmetry. apply lookup_replicate_2. lia.
    + rewrite lookup_ge_None_2 by (rewrite bubble_length; lia).
      symmetry. apply lookup_ge_None_2. rewrite length_replicate. lia.
Qed.

(** ** The ranked payouts sum to zero *)

Lemma sumZ_length_filter {A} (P : A → Prop) `{∀ x, Decision (P x)} (l : list A) :
  sumZ (λ x, if decide (P x) then 1 else 0) l = Z.of_nat (length (filter P l)).
Proof.
  induction l as [|x l IH]; [done|].
  rewrite filter_cons. cbn [sumZ foldr].
  fold (sumZ (λ x, if decide (P x) then 1 else 0) l). rewrite IH.
  case_decide; simpl; lia.
Qed.

(** Counting the pairs [(v, c)] with [c < v] by rows or by columns. *)
Lemma count_pairs_swap (l l' : list Z) :
  sumZ (λ v, Z.of_nat (length (filter (λ c, c < v) l'))) l
  = sumZ (λ c, Z.of_nat (length (filter (λ v, c < v) l))) l'.
Proof.
  induction l as [|v l IH].
  - simpl. induction l' as [|c l' IH']; simpl; [done|]. by rewrite <- IH'.
  - cbn [sumZ foldr].
    fold (sumZ (λ v, Z.of_nat (length (filter (λ c, c < v) l'))) l).
    rewrite IH, <- sumZ_length_filter, <- sumZ_add.
    apply sumZ_ext. intros c _. rewrite filter_cons. case_decide; simpl; lia.
Qed.

Lemma sumZ_below_above cs :
  sumZ (countBelow cs) cs = sumZ (countAbove cs) cs.
Proof. unfold countBelow, countAbove. apply count_pairs_swap. Qed.

Lemma sumZ_scale {A} (u : Z) (f g : A → Z) l :
  sumZ (λ x, u * (f x - g x)) l = u * (sumZ f l - sumZ g l).
Proof. induction l as [|x l IH]; simpl; lia. Qed.

Lemma sumZ_rankedPayout unitAmount cs :
  sumZ (rankedPayout unitAmount cs) cs = 0.
Proof.
  unfold rankedPayout. rewrite sumZ_scale, sumZ_below_above. lia.
Qed.

Lemma js_sum_dense (g : Z → Z) (l : list Z) (k : nat) :
  Js.sum (((λ v, Some (g v)) <$> l) ++ replicate k (Some 0)) = sumZ g l.
Proof.
  unfold Js.sum. rewrite foldl_app.
  assert (∀ z, foldl (λ acc slot, match slot with Some x => acc + x | None => acc end)
                 z (replicate k (Some 0)) = z) as ->.
  { induction k as [|k IH]; intros z; simpl; [done|]. rewrite IH. lia. }
  enough (∀ z, foldl (λ acc slot, match slot with Some x => acc + x | None => acc end)
                 z ((λ v, Some (g v)) <$> l) = z + sumZ g l) as -> by lia.
  induction l as [|x l IH]; intros z; simpl; [lia|]. rewrite IH. lia.
Qed.


(** ** Submitting a hand *)

Lemma add_results_Some xs rs :
  (length xs ≤ length rs)%nat → add_results xs rs = Some (zip_with Z.add xs rs).
Proof.
  intros Hlen. unfold add_results. apply mapM_Some.
  apply Forall2_same_length_lookup. split.
  - rewrite length_imap, length_zip_with. lia.
  - intros i [j x] y Hx Hy.
    apply list_lookup_imap_Some in Hx as (x' & Hx & [= -> ->]).
    apply lookup_zip_with_Some in Hy as (x'' & r & -> & Hx'' & Hr).
    rewrite Hr. simpl. congruence.
Qed.

Lemma add_results_length xs rs ys :
  add_results xs rs = Some ys → length ys = length xs.
Proof.
  unfold add_results. intros H%length_mapM. by rewrite length_imap in H.
Qed.

Lemma add_row_offset (rs : list Z) : ∀ (pre totals : list Z),
  length totals = length rs →
  foldl (λ acc (entry : nat * Z), totals ← acc; add_at totals entry.1 entry.2)
        (Some (pre ++ totals)) (imap (λ i r, (length pre + i, r)%nat) rs)
  = Some (pre ++ zip_with Z.add totals rs).
Proof.
  induction rs as [|r rs IH]; intros pre totals Hlen.
  - destruct totals; [done|discriminate].
  - destruct totals as [|t totals]; [discriminate|]. simpl in Hlen.
    cbn [imap foldl zip_with]. simpl mbind.
    unfold add_at at 2.
    rewrite (list_lookup_middle pre totals t (length pre + 0)) by lia. simpl.
    rewrite insert_app_r. simpl.
    rewrite (cons_middle (t + r) pre), (assoc_L (++)).
    rewrite (imap_ext _ (λ i r0, ((length (pre ++ [(t + r)%Z]) + i)%nat, r0))).
    + rewrite IH by lia. by rewrite <- (assoc_L (++)).
    + intros i x _. simpl. rewrite length_app. simpl. f_equal. lia.
Qed.

Lemma add_row totals rs :
  length totals = length rs →
  foldl (λ acc (entry : nat * Z), totals ← acc; add_at totals entry.1 entry.2)
        (Some totals) (imap pair rs)
  = Some (zip_with Z.add totals rs).
Proof. intros H. by apply (add_row_offset rs []). Qed.

Lemma replay_length n hs :
  Forall (λ h, length (Hand.playerResults h) = n) hs → length (replay n hs) = n.
Proof.
  unfold replay. generalize (length_replicate n 0). generalize (replicate n 0).
  intros totals Hlen Hall. revert totals Hlen.
  induction Hall as [|h hs Hh _ IH]; intros totals Hlen; simpl; [done|].
  apply IH. unfold applyHand. rewrite length_zip_with. lia.
Qed.

Lemma rowieTotalsOf_replay n hs :
  Forall (λ h, length (Hand.playerResults h) = n) hs →
  rowieTotalsOf n hs = Some (replay n hs).
Proof.
  unfold rowieTotalsOf, replay.
  generalize (length_replicate n 0). generalize (replicate n 0).
  intros totals Hlen Hall. revert totals Hlen.
  induction Hall as [|h hs Hh _ IH]; intros totals Hlen; simpl; [done|].
  rewrite add_row by lia. apply IH. unfold applyHand.
  rewrite length_zip_with. lia.
Qed.

Lemma replay_snoc n hs h : replay n (hs ++ [h]) = applyHand (replay n hs) h.
Proof. unfold replay. by rewrite foldl_snoc. Qed.

Lemma strict_eq_Int a b :
  Number.strict_eq (Number.Int a) (Number.Int b) = true ↔ a = b.
Proof.
  unfold Number.strict_eq, Number.Int. rewrite Qeq_bool_iff.
  unfold Qeq, inject_Z. simpl. lia.
Qed.

Lemma foldl_max_spec l : ∀ x,
  (foldl Z.max x l = x ∨ foldl Z.max x l ∈ l)
  ∧ x ≤ foldl Z.max x l ∧ ∀ t, t ∈ l → t ≤ foldl Z.max x l.
Proof.
  induction l as [|y l IH]; intros x; simpl.
  - split; [by left|]. split; [lia|]. intros t Ht. by apply elem_of_nil in Ht.
  - destruct (IH (Z.max x y)) as (Hin & Hle & Hall). split; [|split].
    + destruct Hin as [Heq|Hin]; [|right; by right].
      rewrite Heq. destruct (Z.max_spec x y) as [[_ ->]|[_ ->]]; [right; left|by left].
    + lia.
    + intros t [->|Ht]%elem_of_cons; [lia|by apply Hall].
Qed.

Lemma Math_max_spec totals :
  totals ≠ [] →
  ∃ m, Number.Math_max totals = Number.Int m ∧ m ∈ totals ∧ ∀ t, t ∈ totals → t ≤ m.
Proof.
  destruct totals as [|x l]; [done|]. intros _. exists (foldl Z.max x l).
  destruct (foldl_max_spec l x) as (Hin & Hle & Hall). split; [done|]. split.
  - destruct Hin as [->|?]; [left|by right].
  - intros t [->|Ht]%elem_of_cons; [done|by apply Hall].
Qed.

Lemma winners_offset (m : Z) (totals : list Z) : ∀ (pre names : list string),
  length names = length totals →
  mapM (λ entry : nat * Z, initial_of <$> (pre ++ names) !! entry.1)
       (filter (λ entry : nat * Z,
                  Number.strict_eq (Number.Int entry.2) (Number.Int m) = true)
               (imap (λ i t, (length pre + i, t)%nat) totals))
  = Some (initial_of <$> tiedAt m names totals).
Proof.
  induction totals as [|t totals IH]; intros pre names Hlen.
  - by destruct names.
  - destruct names as [|name names]; [discriminate|]. simpl in Hlen.
    unfold tiedAt. cbn [imap zip zip_with]. rewrite !filter_cons. cbn [fst snd].
    rewrite (cons_middle name pre), (assoc_L (++)).
    rewrite (imap_ext _ (λ i t0, (length (pre ++ [name]) + i, t0)%nat)); last first.
    { intros i x _. simpl. rewrite length_app. simpl. f_equal. lia. }
    specialize (IH (pre ++ [name]) names ltac:(lia)).
    destruct (decide (t = m)) as [->|Hne].
    + rewrite decide_True by by apply strict_eq_Int.
      cbn [mapM fst]. rewrite IH.
      rewrite lookup_app_l by (rewrite length_app; simpl; lia).
      rewrite (list_lookup_middle pre [] name (length pre + 0)) by lia.
      done.
    + rewrite decide_False by by rewrite strict_eq_Int. apply IH.
Qed.

Lemma winnersOf_tied names totals m :
  length names = length totals → Number.Math_max totals = Number.Int m →
  winnersOf names totals = Some (initial_of <$> tiedAt m names totals).
Proof.
  intros Hlen Hm. unfold winnersOf. rewrite Hm.
  by apply (winners_offset m totals []).
Qed.

(** ** The invariant of the game *)

Lemma inv_hands_length n st :
  game_inv n st → Forall (λ h, length (Hand.playerResults h) = n) (hands st).
Proof. intros [? ? ? ? ? H]. eapply Forall_impl; [exact H|]. by intros h [? _]. Qed.

Lemma inv_chips_length n st : game_inv n st → length (chips st) = n.
Proof.
  intros Hinv. rewrite (inv_chips _ _ Hinv).
  by apply replay_length, inv_hands_length.
Qed.

Lemma slice_from_Forall {A} (P : A → Prop) start (l : list A) :
  Forall P l → Forall P (slice_from start l).
Proof. unfold slice_from. apply Forall_drop. Qed.

Lemma winnersOf_is_Some names totals :
  length names = length totals → is_Some (winnersOf names totals).
Proof.
  intros Hlen. destruct (decide (totals = [])) as [->|Hne].
  - by exists [].
  - destruct (Math_max_spec totals Hne) as (m & Hm & _).
    rewrite (winnersOf_tied _ _ m) by done. eauto.
Qed.

Ltac submit_done Hn :=
  eexists; split; [reflexivity|];
  split;
  [ split; simpl;
    rewrite ?length_replicate, ?length_zip_with, ?length_app; simpl;
    try (done || lia)
  | simpl; rewrite Hn, ?length_app; simpl; repeat split; (done || lia) ].

Lemma submit_accepted n now st :
  game_inv n st → sum_results (handResults st) = 0 →
  ∃ st', handleSubmitHand now st = Some (st', [])
    ∧ game_inv n st'
    ∧ hands st' = hands st
        ++ [{| Hand.playerResults := handResults st; Hand.date := now |}]
    ∧ step st' = step st
    ∧ currentHandIndex st' = Z.of_nat (length (hands st))
    ∧ handResults st' = replicate n 0
    ∧ playerNames st' = playerNames st.
Proof.
  intros Hinv Hsum.
  pose proof (inv_chips_length _ _ Hinv) as Hclen.
  pose proof (inv_hands_length _ _ Hinv) as Hhlen.
  destruct Hinv as [Hn Hnames Hchips Hrowie Hres Hhands Hidx Hsummary Hstep Hcur Hwin].
  unfold handleSubmitHand. rewrite decide_False by lia.
  rewrite add_results_Some by lia. cbn [mbind option_bind].
  unfold submit_rowie.
  set (newHand := {| Hand.playerResults := handResults st; Hand.date := now |}).
  assert (Forall (λ h, length (Hand.playerResults h) = n
                       ∧ sum_results (Hand.playerResults h) = 0)
                 (hands st ++ [newHand])) as Hhands'.
  { apply Forall_app. split; [done|]. by apply Forall_singleton. }
  assert (zip_with Z.add (chips st) (handResults st)
          = replay n (hands st ++ [newHand])) as Hchips'.
  { rewrite replay_snoc. unfold applyHand. by rewrite <- Hchips. }
  destruct (decide (0 < RowieSettings.currentHand (rowieSettings st))) as [Hopen|Hclosed].
  - rewrite add_results_Some by lia. cbn [mbind option_bind].
    destruct (decide (RowieSettings.currentHand (rowieSettings st) = 1)) as [Hlast|Hmore].
    + rewrite (rowieTotalsOf_replay (numPlayers st)); last first.
      { rewrite Hn. apply Forall_app. split; [by apply slice_from_Forall|].
        by apply Forall_singleton. }
      cbn [mbind option_bind].
      set (totals := replay (numPlayers st) _).
      assert (length totals = n) as Htot.
      { unfold totals. rewrite Hn. apply replay_length, Forall_app.
        split; [by apply slice_from_Forall|]. by apply Forall_singleton. }
      destruct (winnersOf_is_Some (playerNames st) totals) as [ws ->]; [lia|].
      cbn [mbind option_bind].
      submit_done Hn.
    + submit_done Hn.
  - destruct (RowieSettings.isComplete (rowieSettings st)).
    + submit_done Hn.
    + submit_done Hn.
Qed.

Lemma hand_at_Some n k st :
  game_inv n st → 0 ≤ k < Z.of_nat (length (hands st)) →
  ∃ h, hand_at k (hands st) = Some h ∧ length (Hand.playerResults h) = n.
Proof.
  intros Hinv Hk. unfold hand_at. rewrite decide_True by lia.
  destruct (lookup_lt_is_Some_2 (hands st) (Z.to_nat k)) as [h Hh]; [lia|].
  exists h. split; [done|].
  pose proof (inv_hands_length _ _ Hinv) as Hall.
  rewrite Forall_forall in Hall. apply Hall. by eapply list_elem_of_lookup_2.
Qed.

Ltac inv_done :=
  split; simpl; rewrite ?length_insert; try (done || lia || tauto).

Lemma dispatch_inv n st e :
  game_inv n st → ∃ st', dispatch st e = Some st' ∧ game_inv n st'.
Proof.
  intros Hinv. pose proof Hinv as [Hn Hnames Hchips Hrowie Hres Hhands Hidx Hsummary Hstep Hcur Hwin].
  destruct e as [idx value|idx|now| | | | |field value|confirmed]; simpl.
  - (* typing into a chip input *)
    destruct (game_screen st && bool_decide (idx < length (playerNames st))%nat)
      eqn:Hguard; [|eauto].
    apply andb_prop in Hguard as [_ Hlt%bool_decide_eq_true].
    unfold handleHandResult, set_dense.
    destruct value as [| |parsed]; rewrite decide_True by lia;
      cbn [mbind option_bind]; eexists; (split; [reflexivity|]); inv_done.
  - (* the minus button *)
    destruct (game_screen st && bool_decide (idx < length (playerNames st))%nat)
      eqn:Hguard; [|eauto].
    apply andb_prop in Hguard as [_ Hlt%bool_decide_eq_true].
    unfold toggleNegative.
    destruct (lookup_lt_is_Some_2 (handResults st) idx) as [r ->]; [lia|].
    cbn [mbind option_bind]. eexists. split; [reflexivity|]. inv_done.
  - (* submitting *)
    destruct (game_screen st); [|eauto].
    destruct (decide (sum_results (handResults st) = 0)) as [Hsum|Hsum].
    + destruct (submit_accepted n now st Hinv Hsum) as (st' & -> & Hinv' & _).
      eauto.
    + unfold handleSubmitHand. rewrite decide_True by done. simpl. eauto.
  - (* previous hand *)
    match goal with |- context [if ?g then _ else _] => destruct g end; [|eauto].
    unfold handlePreviousHand. case_decide; [|eauto].
    destruct (hand_at_Some n (currentHandIndex st - 1) st Hinv) as (h & -> & Hh); [lia|].
    cbn [mbind option_bind]. eexists. split; [reflexivity|]. inv_done.
  - (* next hand *)
    match goal with |- context [if ?g then _ else _] => destruct g end; [|eauto].
    unfold handleNextHand. case_decide; [|eauto].
    destruct (hand_at_Some n (currentHandIndex st + 1) st Hinv) as (h & -> & Hh); [lia|].
    cbn [mbind option_bind]. eexists. split; [reflexivity|]. inv_done.
  - (* current hand *)
    match goal with |- context [if ?g then _ else _] => destruct g eqn:Hguard end;
      [|eauto].
    apply andb_prop in Hguard as [[_ Hlen%bool_decide_eq_true]%andb_prop _].
    unfold handleCurrentHand.
    destruct (hand_at_Some n (Z.of_nat (length (hands st)) - 1) st Hinv) as (h & -> & Hh); [lia|].
    cbn [mbind option_bind]. eexists. split; [reflexivity|]. inv_done.
  - (* new Rowie *)
    destruct (game_screen st); [|eauto].
    unfold handleNewRowie. case_decide; simpl; [eauto|].
    eexists. split; [reflexivity|]. inv_done.
  - (* editing the Rowie settings *)
    destruct (settings_screen st) eqn:Hguard; [|eauto].
    apply andb_prop in Hguard as [Hs%bool_decide_eq_true _].
    destruct Hstep as [?|[_ Hzero]]; [lia|].
    eexists. split; [reflexivity|].
    destruct field; inv_done.
  - (* starting the Rowie *)
    destruct (settings_screen st) eqn:Hguard; [|eauto].
    unfold handleRowieSettingsContinue. case_decide as Hbad; [eauto|].
    destruct confirmed; [|eauto].
    eexists. split; [reflexivity|]. unfold startRowie_onPress. inv_done.
Qed.

Lemma run_inv n events : ∀ st,
  game_inv n st → ∃ st', run st events = Some st' ∧ game_inv n st'.
Proof.
  induction events as [|e events IH]; intros st Hinv; simpl; [eauto|].
  destruct (dispatch_inv n st e Hinv) as (st1 & -> & Hinv1). simpl.
  by apply IH.
Qed.




(** ** Entering a sequence of hands *)

Lemma handleNamesContinue_inv st :
  length (playerNames st) = numPlayers st →
  existsb Str.blank (playerNames st) = false →
  game_inv (numPlayers st) (handleNamesContinue st).1
  ∧ hands (handleNamesContinue st).1 = []
  ∧ step (handleNamesContinue st).1 = 3
  ∧ currentHandIndex (handleNamesContinue st).1 = -1.
Proof.
  intros Hlen Hnames. unfold handleNamesContinue. rewrite Hnames. simpl.
  split; [|done].
  split; simpl; rewrite ?length_replicate; try (done || lia || tauto).
Qed.




(** ** Closing a Rowie *)

Lemma slice_from_drop {A} (start : Z) (l : list A) :
  0 ≤ start → slice_from start l = drop (Z.to_nat start) l.
Proof.
  intros Hs. unfold slice_from. rewrite decide_False by lia.
  destruct (decide (start ≤ Z.of_nat (length l))).
  - by rewrite Z.min_l by lia.
  - rewrite Z.min_r by lia. rewrite Nat2Z.id.
    rewrite !drop_ge; (done || lia).
Qed.

Lemma submit_closes_rowie n now st :
  game_inv n st → sum_results (handResults st) = 0 →
  RowieSettings.currentHand (rowieSettings st) = 1 →
  let newHand := {| Hand.playerResults := handResults st; Hand.date := now |} in
  let totals := replay n (windowHands st newHand) in
  ∃ st' ws,
    handleSubmitHand now st = Some (st', [])
    ∧ winnersOf (playerNames st) totals = Some ws
    ∧ length totals = n
    ∧ Z.of_nat (length (windowHands st newHand))
      = RowieSettings.numHands (rowieSettings st)
    ∧ RowieSettings.currentHand (rowieSettings st') = 0
    ∧ RowieSettings.isComplete (rowieSettings st') = true
    ∧ completedRowies st'
      = completedRowies st
        ++ [{| CompletedRowie.rowieNumber := Z.of_nat (length (completedRowies st)) + 1;
               CompletedRowie.startHand := RowieSettings.startHand (rowieSettings st) + 1;
               CompletedRowie.endHand := Z.of_nat (length (hands st)) + 1;
               CompletedRowie.value := RowieSettings.potAmount (rowieSettings st);
               CompletedRowie.winners := ws |}].
Proof.
  intros Hinv Hsum Hlast newHand totals.
  pose proof (inv_chips_length _ _ Hinv) as Hclen.
  pose proof (inv_hands_length _ _ Hinv) as Hhlen.
  destruct Hinv as [Hn Hnames Hchips Hrowie Hres Hhands Hidx Hsummary Hstep Hcur Hwin].
  destruct Hwin as [Hstart Hwindow]; [lia..|].
  assert (Forall (λ h, length (Hand.playerResults h) = n) (windowHands st newHand))
    as Hwlen.
  { apply Forall_app. split; [by apply Forall_drop|]. by apply Forall_singleton. }
  assert (length totals = n) as Htot by by apply replay_length.
  destruct (winnersOf_is_Some (playerNames st) totals) as [ws Hws]; [congruence|].
  unfold handleSubmitHand. rewrite decide_False by lia.
  rewrite add_results_Some by lia. cbn [mbind option_bind].
  unfold submit_rowie. rewrite decide_True by lia.
  rewrite add_results_Some by lia. cbn [mbind option_bind].
  rewrite decide_True by done.
  rewrite slice_from_drop by lia. fold newHand. fold (windowHands st newHand).
  rewrite Hn, (rowieTotalsOf_replay n) by done. cbn [mbind option_bind].
  fold totals. rewrite Hws. cbn [mbind option_bind].
  eexists _, ws. split; [reflexivity|]. split; [done|]. split; [done|].
  split; [|done].
  unfold windowHands. rewrite length_app, length_drop. simpl. lia.
Qed.

(** ** The proportional pot *)

Lemma rowie_fold_writes numPlayers potAmount rowiePoints entries : ∀ payouts divisions,
  (foldl (rowie_step (sum_results rowiePoints) (Z.of_nat numPlayers * potAmount))
         (payouts, divisions) entries).1
  = assign_all (rowie_writes numPlayers potAmount rowiePoints entries) payouts.
Proof.
  induction entries as [|[idx points] entries IH]; intros payouts divisions; [done|].
  unfold rowie_writes. cbn [foldl rowie_step]. rewrite filter_cons. cbn [snd].
  case_decide; [|apply IH]. rewrite IH. done.
Qed.

Lemma calculateRowiePayouts_writes numPlayers potAmount rowiePoints :
  calculateRowiePayouts numPlayers potAmount rowiePoints
  = assign_all (rowie_writes numPlayers potAmount rowiePoints (imap pair rowiePoints))
      (Js.Array_fill numPlayers (Number.Int 0)).
Proof. apply rowie_fold_writes. Qed.

Lemma elem_of_rowie_writes numPlayers potAmount rowiePoints i w :
  (i, w) ∈ rowie_writes numPlayers potAmount rowiePoints (imap pair rowiePoints)
  ↔ ∃ p, rowiePoints !! i = Some p ∧ 0 < p
         ∧ w = rowiePayout numPlayers potAmount rowiePoints p.
Proof.
  unfold rowie_writes. rewrite list_elem_of_fmap. split.
  - intros ([j p] & [= -> ->] & [Hp Hin]%list_elem_of_filter).
    apply elem_of_lookup_imap in Hin as (j' & p' & [= -> ->] & Hj). eauto.
  - intros (p & Hi & Hp & ->). exists (i, p). split; [done|].
    apply list_elem_of_filter. split; [done|]. apply elem_of_lookup_imap. eauto.
Qed.

Lemma rowie_lookup_positive numPlayers potAmount rowiePoints i p :
  rowiePoints !! i = Some p → 0 < p →
  calculateRowiePayouts numPlayers potAmount rowiePoints !! i
  = Some (Some (rowiePayout numPlayers potAmount rowiePoints p)).
Proof.
  intros Hi Hp. rewrite calculateRowiePayouts_writes. apply assign_all_hit.
  - intros w (p' & Hi' & _ & ->)%elem_of_rowie_writes. congruence.
  - right. eexists. apply elem_of_rowie_writes. eauto.
Qed.

Lemma rowie_lookup_other numPlayers potAmount rowiePoints i :
  (i < numPlayers)%nat → (∀ p, rowiePoints !! i = Some p → p ≤ 0) →
  calculateRowiePayouts numPlayers potAmount rowiePoints !! i
  = Some (Some (Number.Int 0)).
Proof.
  intros Hi Hp. rewrite calculateRowiePayouts_writes. rewrite assign_all_miss.
  - unfold Js.Array_fill. by rewrite lookup_replicate_2.
  - intros w (p & Hi' & Hpos & _)%elem_of_rowie_writes. apply Hp in Hi'. lia.
  - unfold Js.Array_fill. by rewrite length_replicate.
Qed.

Lemma rowie_no_writes totalPoints potSize entries : ∀ acc,
  Forall (λ e : nat * Z, e.2 ≤ 0) entries →
  foldl (rowie_step totalPoints potSize) acc entries = acc.
Proof.
  induction entries as [|[idx points] entries IH]; intros [payouts divisions] Hall;
    [done|].
  apply Forall_cons in Hall as [Hle Hall]. simpl in Hle.
  cbn [foldl rowie_step]. rewrite decide_False by lia. by apply IH.
Qed.

(** With a zero-sum window and a positive pot every positive entry is
    divided by zero. *)
Lemma rowiePayout_zero_sum numPlayers potAmount rowiePoints p :
  sum_results rowiePoints = 0 → 0 < Z.of_nat numPlayers * potAmount → 0 < p →
  rowiePayout numPlayers potAmount rowiePoints p = Infinity.
Proof.
  intros Hsum Hpot Hp. unfold rowiePayout. rewrite Hsum.
  unfold Number.div, Number.Int, Number.sign.
  replace (inject_Z 0 ?= inject_Z 0)%Q with Eq by done.
  replace (inject_Z p ?= inject_Z 0)%Q with Gt.
  2:{ symmetry. unfold Qcompare, inject_Z. simpl. apply Z.compare_gt_iff. lia. }
  unfold Number.mul, Number.sign.
  replace (inject_Z (Z.of_nat numPlayers * potAmount) ?= inject_Z 0)%Q with Gt.
  2:{ symmetry. unfold Qcompare, inject_Z. simpl. apply Z.compare_gt_iff. lia. }
  done.
Qed.

(** ** Mercy *)




Lemma mercyAmount_div chip : mercyAmount chip = (chip + 40) / 80.
Proof.
  unfold mercyAmount, Number.round, Qfloor, Qplus, Qdiv, Qmult, Qinv, inject_Z.
  simpl. change (Z.pos (1 * 100 * 2 * 2 * 2)) with (80 * 10).
  change (Z.pos (1 * 100 * 2 * 2)) with 400.
  replace (chip * 5 * 1 * 1 * 2 + 1 * 400) with ((chip + 40) * 10) by lia.
  by rewrite Z.div_mul_cancel_r.
Qed.


(** ** Winners and sample games *)



Lemma initial_of_cons c rest :
  initial_of (String c rest) = String (Str.upper_ascii c) EmptyString.
Proof. done. Qed.

(** With a zero-sum window and a positive pot, [calculateRowiePayouts]
    gives [Infinity] to every player with positive points. *)
Lemma rowie_zero_sum_infinite numPlayers potAmount rowiePoints i p :
  sum_results rowiePoints = 0 → 0 < Z.of_nat numPlayers * potAmount →
  rowiePoints !! i = Some p → 0 < p →
  calculateRowiePayouts numPlayers potAmount rowiePoints !! i
  = Some (Some Infinity).
Proof.
  intros Hsum Hpot Hi Hp. rewrite (rowie_lookup_positive _ _ _ _ _ Hi Hp).
  by rewrite rowiePayout_zero_sum.
Qed.

Lemma four_player_game_inv : game_inv 4 four_player_game.
Proof. by apply (handleNamesContinue_inv four_players). Qed.

Lemma after_inv events : game_inv 4 (after events).
Proof.
  unfold after.
  destruct (run_inv 4 events four_player_game four_player_game_inv)
    as (st & -> & Hinv).
  exact Hinv.
Qed.

(** ** Doubles against the exact model *)

#[local] Instance Q_eq_dec : EqDecision Q.
Proof. solve_decision. Defined.

#[local] Instance number_eq_dec : EqDecision number.
Proof. solve_decision. Defined.

(** On doubles too, the scenario of the specification divides by zero
    and pays [Infinity]. *)
Lemma double_scenario_infinite :
  Double.rowiePayout 4 5 [15; -15; 0; 0] 15 = Infinity
  ∧ rowiePayout 4 5 [15; -15; 0; 0] 15 = Infinity.
Proof. vm_compute. split; reflexivity. Qed.

(** Away from a zero divisor the two can differ when the exact value is
    a tie: [23 / 10 * 25] is 57.5, rounded to 58, and the double
    product is just below it, rounded to 57. *)
Lemma double_quotient_tie :
  Double.rowiePayout 5 5 [23; -13] 23 = Number.Int 57
  ∧ rowiePayout 5 5 [23; -13] 23 = Number.Int 58.
Proof. vm_compute. split; reflexivity. Qed.

(** * More on the handlers and the screens *)

(** ** More on the ranked settlement *)

Lemma filter_length_lt {A} (P Q : A → Prop) `{∀ x, Decision (P x)}
    `{∀ x, Decision (Q x)} (l : list A) (x : A) :
  (∀ y, P y → Q y) → x ∈ l → Q x → ¬ P x →
  (length (filter P l) < length (filter Q l))%nat.
Proof.
  intros HPQ Hx HQ HP.
  assert (∀ k : list A, length (filter P k) ≤ length (filter Q k))%nat as Hle.
  { induction k as [|y k IH]; [done|]. rewrite !filter_cons.
    destruct (decide (P y)) as [Hy|Hy].
    - rewrite decide_True by auto. simpl. lia.
    - case_decide; simpl; lia. }
  induction l as [|y l IH]; [by apply elem_of_nil in Hx|].
  rewrite !filter_cons. apply elem_of_cons in Hx as [<-|Hx].
  - rewrite decide_False, decide_True by done. specialize (Hle l). simpl. lia.
  - specialize (IH Hx). destruct (decide (P y)) as [Hy|Hy].
    + rewrite decide_True by auto. simpl. lia.
    + case_decide; simpl; lia.
Qed.

Lemma count_below_above_le cs i v :
  cs !! i = Some v →
  countBelow cs v + countAbove cs v ≤ Z.of_nat (length cs) - 1.
Proof.
  intros Hv. unfold countBelow, countAbove.
  assert (length (filter (λ c, (c < v ∨ v < c)%Z) cs) < length (filter (λ _, True) cs))%nat
    as Hlt.
  { apply (filter_length_lt _ _ cs v); [done| |done|lia].
    by eapply list_elem_of_lookup_2. }
  assert (∀ k : list Z,
            length (filter (λ c, (c < v)%Z) k) + length (filter (λ c, (v < c)%Z) k)
            = length (filter (λ c, (c < v ∨ v < c)%Z) k))%nat as Hsplit.
  { induction k as [|c k IH]; [done|]. rewrite !filter_cons.
    repeat case_decide; simpl; lia. }
  assert (length (filter (λ _ : Z, True) cs) = length cs) as Hall.
  { clear. induction cs as [|c cs IH]; [done|]. rewrite filter_cons. simpl. lia. }
  specialize (Hsplit cs). lia.
Qed.

Lemma countBelow_lt cs i a b :
  cs !! i = Some a → a < b → countBelow cs a + 1 ≤ countBelow cs b.
Proof.
  intros Ha Hab. unfold countBelow.
  assert (length (filter (λ c, (c < a)%Z) cs) < length (filter (λ c, (c < b)%Z) cs))%nat.
  { apply (filter_length_lt _ _ cs a); [intros; lia| |lia|lia].
    by eapply list_elem_of_lookup_2. }
  lia.
Qed.

Lemma countAbove_lt cs j a b :
  cs !! j = Some b → a < b → countAbove cs b + 1 ≤ countAbove cs a.
Proof.
  intros Hb Hab. unfold countAbove.
  assert (length (filter (λ c, (b < c)%Z) cs) < length (filter (λ c, (a < c)%Z) cs))%nat.
  { apply (filter_length_lt _ _ cs b); [intros; lia| |lia|lia].
    by eapply list_elem_of_lookup_2. }
  lia.
Qed.

Lemma count_nonneg cs v : 0 ≤ countBelow cs v ∧ 0 ≤ countAbove cs v.
Proof. unfold countBelow, countAbove. lia. Qed.

Lemma count_monotone_map (f : Z → Z) cs v :
  (∀ x y, x < y ↔ f x < f y) →
  countBelow (f <$> cs) (f v) = countBelow cs v
  ∧ countAbove (f <$> cs) (f v) = countAbove cs v.
Proof.
  intros Hf. unfold countBelow, countAbove.
  rewrite !filter_fmap_list, !length_fmap. split; f_equal; f_equal.
  - apply list_filter_iff. intros x. symmetry. apply Hf.
  - apply list_filter_iff. intros x. symmetry. apply Hf.
Qed.


(** ** The ledger along the events of the game *)

Lemma sum_results_from z l :
  foldl (λ sum result, sum + result) z l = z + sum_results l.
Proof.
  unfold sum_results. revert z.
  induction l as [|x l IH]; intros z; simpl; [lia|].
  rewrite (IH (z + x)), (IH (0 + x)). lia.
Qed.

Lemma sum_results_cons x l : sum_results (x :: l) = x + sum_results l.
Proof. unfold sum_results at 1. simpl. by rewrite sum_results_from. Qed.

Lemma sum_results_zip_with a : ∀ b,
  length a = length b →
  sum_results (zip_with Z.add a b) = sum_results a + sum_results b.
Proof.
  induction a as [|x a IH]; intros [|y b] Hlen; try discriminate; [done|].
  simpl in Hlen. cbn [zip_with]. rewrite !sum_results_cons, IH by lia. lia.
Qed.

Lemma sum_results_replicate n : sum_results (replicate n 0) = 0.
Proof. induction n as [|n IH]; [done|]. simpl. by rewrite sum_results_cons, IH. Qed.

Lemma replay_sum n hs :
  Forall (λ h, length (Hand.playerResults h) = n
               ∧ sum_results (Hand.playerResults h) = 0) hs →
  sum_results (replay n hs) = 0.
Proof.
  intros Hall. induction hs as [|h hs IH] using rev_ind.
  - apply sum_results_replicate.
  - apply Forall_app in Hall as [Hhs [Hlen Hsum]%Forall_singleton].
    rewrite replay_snoc. unfold applyHand. rewrite sum_results_zip_with.
    + rewrite IH by done. lia.
    + rewrite replay_length; [done|]. eapply Forall_impl; [exact Hhs|].
      by intros ? [? _].
Qed.

(** Every event but an accepted [Submit Hand] leaves the ledger alone. *)
Lemma dispatch_frame st e st' :
  (∀ now, e ≠ PressSubmit now) → dispatch st e = Some st' →
  hands st' = hands st ∧ chips st' = chips st ∧ rowie st' = rowie st
  ∧ completedRowies st' = completedRowies st
  ∧ playerNames st' = playerNames st ∧ numPlayers st' = numPlayers st.
Proof.
  intros Hne Hd. destruct e; try (by destruct (Hne now));
    unfold dispatch, handleHandResult, toggleNegative, handlePreviousHand,
      handleNextHand, handleCurrentHand, handleNewRowie, handleRowieSettings,
      handleRowieSettingsContinue, startRowie_onPress in Hd;
    repeat (case_match; simplify_option_eq); simplify_eq; try done.
Qed.


(** What an accepted hand does to every part of the ledger. *)
Lemma submit_ledger n now st :
  game_inv n st → sum_results (handResults st) = 0 →
  ∃ st', handleSubmitHand now st = Some (st', [])
    ∧ game_inv n st'
    ∧ step st' = step st
    ∧ hands st' = hands st
        ++ [{| Hand.playerResults := handResults st; Hand.date := now |}]
    ∧ chips st' = zip_with Z.add (chips st) (handResults st)
    ∧ rowie st'
      = (if decide (0 < RowieSettings.currentHand (rowieSettings st))
         then zip_with Z.add (rowie st) (handResults st) else rowie st)
    ∧ RowieSettings.startHand (rowieSettings st')
      = RowieSettings.startHand (rowieSettings st)
    ∧ RowieSettings.numHands (rowieSettings st')
      = RowieSettings.numHands (rowieSettings st)
    ∧ RowieSettings.potAmount (rowieSettings st')
      = RowieSettings.potAmount (rowieSettings st)
    ∧ RowieSettings.currentHand (rowieSettings st')
      = (if decide (0 < RowieSettings.currentHand (rowieSettings st))
         then RowieSettings.currentHand (rowieSettings st) - 1
         else RowieSettings.currentHand (rowieSettings st))
    ∧ RowieSettings.isComplete (rowieSettings st')
      = (if decide (RowieSettings.currentHand (rowieSettings st) = 1) then true
         else if decide (0 < RowieSettings.currentHand (rowieSettings st))
              then RowieSettings.isComplete (rowieSettings st)
              else false)
    ∧ (if decide (RowieSettings.currentHand (rowieSettings st) = 1)
       then ∃ ws,
           completedRowies st'
           = completedRowies st
             ++ [{| CompletedRowie.rowieNumber :=
                      Z.of_nat (length (completedRowies st)) + 1;
                    CompletedRowie.startHand :=
                      RowieSettings.startHand (rowieSettings st) + 1;
                    CompletedRowie.endHand := Z.of_nat (length (hands st)) + 1;
                    CompletedRowie.value :=
                      RowieSettings.potAmount (rowieSettings st);
                    CompletedRowie.winners := ws |}]
       else completedRowies st' = completedRowies st).
Proof.
  intros Hinv Hsum.
  destruct (decide (RowieSettings.currentHand (rowieSettings st) = 1)) as [Hlast|Hnot].
  - destruct (submit_closes_rowie n now st Hinv Hsum Hlast)
      as (st' & ws & Hsubmit & _ & _ & _ & Hcur & Hcomplete & Hrec).
    destruct (submit_accepted n now st Hinv Hsum)
      as (st'' & Hsubmit' & Hinv' & Hhands & Hstep & _).
    assert (st'' = st') as -> by congruence.
    exists st'. split; [done|]. split; [done|]. split; [done|]. split; [done|].
    pose proof (inv_chips_length _ _ Hinv) as Hclen.
    pose proof (inv_results _ _ Hinv) as Hres.
    pose proof (inv_rowie _ _ Hinv) as Hrow.
    unfold handleSubmitHand in Hsubmit. rewrite decide_False in Hsubmit by lia.
    rewrite add_results_Some in Hsubmit by lia. cbn [mbind option_bind] in Hsubmit.
    unfold submit_rowie in Hsubmit. rewrite decide_True in Hsubmit by lia.
    rewrite add_results_Some in Hsubmit by lia. cbn [mbind option_bind] in Hsubmit.
    rewrite decide_True in Hsubmit by done.
    destruct (rowieTotalsOf _ _) as [totals|]; [|done].
    cbn [mbind option_bind] in Hsubmit.
    destruct (winnersOf _ _) as [ws'|]; [|done].
    cbn [mbind option_bind] in Hsubmit. injection Hsubmit as <-.
    rewrite !decide_True by lia. simpl.
    repeat (split; [done || lia|]). eauto.
  - destruct (submit_accepted n now st Hinv Hsum)
      as (st' & Hsubmit & Hinv' & Hhands & Hstep & _).
    exists st'. split; [done|]. split; [done|]. split; [done|]. split; [done|].
    pose proof (inv_chips_length _ _ Hinv) as Hclen.
    pose proof (inv_results _ _ Hinv) as Hres.
    pose proof (inv_rowie _ _ Hinv) as Hrow.
    unfold handleSubmitHand in Hsubmit. rewrite decide_False in Hsubmit by lia.
    rewrite add_results_Some in Hsubmit by lia. cbn [mbind option_bind] in Hsubmit.
    unfold submit_rowie in Hsubmit.
    destruct (decide (0 < RowieSettings.currentHand (rowieSettings st))) as [Hopen|Hclosed].
    + rewrite add_results_Some in Hsubmit by lia. cbn [mbind option_bind] in Hsubmit.
      rewrite decide_False in Hsubmit by done. injection Hsubmit as <-.
      simpl. repeat split; done.
    + destruct (RowieSettings.isComplete (rowieSettings st)) eqn:Hc;
        injection Hsubmit as <-; simpl; repeat split; done.
Qed.

Lemma log_bound_le n st :
  game_inv n st → log_bound st ≤ Z.of_nat (length (hands st)).
Proof.
  intros Hinv. unfold log_bound. case_decide as Hopen; [|lia].
  destruct (inv_window _ _ Hinv Hopen) as [? _]. lia.
Qed.

Lemma StronglySorted_snoc {A} (R : relation A) l x :
  StronglySorted R l → Forall (λ y, R y x) l → StronglySorted R (l ++ [x]).
Proof.
  intros Hs Hall. apply StronglySorted_app_2; [|done|repeat constructor].
  intros y z Hy [->|Hz%elem_of_nil]%elem_of_cons; [|done].
  rewrite Forall_forall in Hall. by apply Hall.
Qed.

Lemma submit_log n now st :
  game_inv n st → log_inv st → sum_results (handResults st) = 0 →
  ∃ st', handleSubmitHand now st = Some (st', []) ∧ game_inv n st' ∧ log_inv st'.
Proof.
  intros Hinv Hlog Hsum.
  destruct (submit_ledger n now st Hinv Hsum)
    as (st' & Hsubmit & Hinv' & _ & Hhands & _ & Hrowie & Hstart & _ & _ & Hcur
        & Hcomplete & Hrec).
  exists st'. split; [done|]. split; [done|].
  pose proof (log_bound_le n st Hinv) as Hbound.
  destruct Hlog as [Hrsum Hopen Hnum Hranges Hsorted].
  assert (length (hands st') = S (length (hands st))) as Hlen.
  { rewrite Hhands, length_app. simpl. lia. }
  destruct (decide (RowieSettings.currentHand (rowieSettings st) = 1)) as [Hlast|Hnot].
  - destruct Hrec as [ws Hrec].
    destruct (inv_window _ _ Hinv) as [Hwstart _]; [lia|].
    assert (log_bound st = RowieSettings.startHand (rowieSettings st)) as Hb.
    { unfold log_bound. by rewrite decide_True by lia. }
    assert (RowieSettings.currentHand (rowieSettings st') = 0) as Hcur0.
    { rewrite Hcur. case_decide; lia. }
    assert (log_bound st' = Z.of_nat (length (hands st'))) as Hb'.
    { unfold log_bound. rewrite Hcur0. by rewrite decide_False by lia. }
    split.
    + rewrite Hrowie, decide_True by lia. rewrite sum_results_zip_with.
      * lia.
      * by rewrite (inv_rowie _ _ Hinv), (inv_results _ _ Hinv).
    + rewrite Hcur0. lia.
    + intros i r. rewrite Hrec. intros Hr.
      apply lookup_app_Some in Hr as [Hr|[Hge Hr]]; [by apply Hnum|].
      apply list_lookup_singleton_Some in Hr as [Hi <-]. simpl. lia.
    + rewrite Hrec, Hb'. apply Forall_app. split.
      * eapply Forall_impl; [exact Hranges|]. simpl. intros r. lia.
      * apply Forall_singleton. simpl. lia.
    + rewrite Hrec. apply StronglySorted_snoc; [done|].
      eapply Forall_impl; [exact Hranges|]. simpl. intros r. lia.
  - assert (log_bound st ≤ log_bound st') as Hb.
    { unfold log_bound. rewrite Hcur, Hstart.
      destruct (decide (0 < RowieSettings.currentHand (rowieSettings st))).
      - rewrite decide_True by lia. lia.
      - rewrite decide_False by lia. lia. }
    split.
    + rewrite Hrowie. case_decide; [|done]. rewrite sum_results_zip_with.
      * lia.
      * by rewrite (inv_rowie _ _ Hinv), (inv_results _ _ Hinv).
    + rewrite Hcur, Hcomplete. intros Hpos.
      case_decide; [|lia]. apply Hopen. lia.
    + by rewrite Hrec.
    + rewrite Hrec. eapply Forall_impl; [exact Hranges|]. simpl. intros r. lia.
    + by rewrite Hrec.
Qed.


Lemma submit_or_not e :
  (∃ now, e = PressSubmit now) ∨ (∀ now, e ≠ PressSubmit now).
Proof. destruct e; eauto; right; done. Qed.

Lemma start_or_not e :
  (∃ confirmed, e = PressStartRowie confirmed)
  ∨ (∀ confirmed, e ≠ PressStartRowie confirmed).
Proof. destruct e; eauto; right; done. Qed.

Lemma dispatch_frame_window st e st' :
  (∀ now, e ≠ PressSubmit now) → (∀ confirmed, e ≠ PressStartRowie confirmed) →
  dispatch st e = Some st' →
  RowieSettings.startHand (rowieSettings st') = RowieSettings.startHand (rowieSettings st)
  ∧ RowieSettings.currentHand (rowieSettings st')
    = RowieSettings.currentHand (rowieSettings st)
  ∧ RowieSettings.isComplete (rowieSettings st')
    = RowieSettings.isComplete (rowieSettings st).
Proof.
  intros Hne Hne' Hd.
  destruct e; try (by destruct (Hne now)); try (by destruct (Hne' confirmed));
    unfold dispatch, handleHandResult, toggleNegative, handlePreviousHand,
      handleNextHand, handleCurrentHand, handleNewRowie, handleRowieSettings in Hd;
    repeat (case_match; simplify_option_eq); simplify_eq; try done.
Qed.

Lemma log_inv_ext st st' :
  rowie st' = rowie st → completedRowies st' = completedRowies st →
  hands st' = hands st →
  RowieSettings.startHand (rowieSettings st') = RowieSettings.startHand (rowieSettings st) →
  RowieSettings.currentHand (rowieSettings st')
  = RowieSettings.currentHand (rowieSettings st) →
  RowieSettings.isComplete (rowieSettings st')
  = RowieSettings.isComplete (rowieSettings st) →
  log_inv st → log_inv st'.
Proof.
  intros Hr Hc Hh Hs Hcur Hcomp [H1 H2 H3 H4 H5].
  split; unfold log_bound in *; rewrite ?Hr, ?Hc, ?Hh, ?Hs, ?Hcur, ?Hcomp; done.
Qed.

Lemma dispatch_log n st e :
  game_inv n st → log_inv st →
  ∃ st', dispatch st e = Some st' ∧ game_inv n st' ∧ log_inv st'.
Proof.
  intros Hinv Hlog.
  destruct (submit_or_not e) as [[now ->]|Hne].
  { simpl. destruct (game_screen st); [|eauto].
    destruct (decide (sum_results (handResults st) = 0)) as [Hsum|Hsum].
    - destruct (submit_log n now st Hinv Hlog Hsum) as (st' & -> & ? & ?). eauto.
    - unfold handleSubmitHand. rewrite decide_True by done. simpl. eauto. }
  destruct (dispatch_inv n st e Hinv) as (st' & Hd & Hinv').
  exists st'. split; [done|]. split; [done|].
  destruct (dispatch_frame st e st' Hne Hd) as (Hh & _ & Hr & Hc & _).
  destruct (start_or_not e) as [[c ->]|Hne'].
  - simpl in Hd. destruct (settings_screen st) eqn:Hscreen;
      [|injection Hd as <-; done].
    apply andb_prop in Hscreen as [Hstep%bool_decide_eq_true _].
    destruct (inv_step _ _ Hinv) as [?|[_ Hzero]]; [lia|].
    unfold handleRowieSettingsContinue in Hd.
    case_decide as Hbad; [injection Hd as <-; done|].
    destruct c; [|injection Hd as <-; done].
    injection Hd as <-. destruct Hlog as [H1 H2 H3 H4 H5].
    unfold log_bound in H4. rewrite decide_False in H4 by lia.
    split; unfold log_bound; simpl; try done.
    case_decide; [done|]. eapply Forall_impl; [exact H4|]. simpl. intros r. lia.
  - destruct (dispatch_frame_window st e st' Hne Hne' Hd) as (Hs & Hcur & Hcomp).
    by apply (log_inv_ext st st').
Qed.

Lemma run_log n events : ∀ st,
  game_inv n st → log_inv st →
  ∃ st', run st events = Some st' ∧ game_inv n st' ∧ log_inv st'.
Proof.
  induction events as [|e events IH]; intros st Hinv Hlog; simpl; [eauto|].
  destruct (dispatch_log n st e Hinv Hlog) as (st1 & -> & Hinv1 & Hlog1). simpl.
  by apply IH.
Qed.

Lemma start_log st :
  length (playerNames st) = numPlayers st →
  existsb Str.blank (playerNames st) = false →
  log_inv (handleNamesContinue st).1.
Proof.
  intros Hlen Hnames. unfold handleNamesContinue. rewrite Hnames. simpl.
  split; simpl; try done; try constructor.
  apply sum_results_replicate.
Qed.

(** The hands and the completed Rowies only grow. *)
Lemma dispatch_prefix n st e st' :
  game_inv n st → dispatch st e = Some st' →
  hands st `prefix_of` hands st'
  ∧ completedRowies st `prefix_of` completedRowies st'.
Proof.
  intros Hinv Hd.
  destruct (submit_or_not e) as [[now ->]|Hne].
  - simpl in Hd. destruct (game_screen st); [|by injection Hd as <-].
    destruct (decide (sum_results (handResults st) = 0)) as [Hsum|Hsum].
    + destruct (submit_ledger n now st Hinv Hsum)
        as (st1 & Hs & _ & _ & Hh & _ & _ & _ & _ & _ & _ & _ & Hrec).
      rewrite Hs in Hd. injection Hd as <-. split.
      * rewrite Hh. by apply prefix_app_r.
      * case_decide; [destruct Hrec as [ws ->]; by apply prefix_app_r|by rewrite Hrec].
    + unfold handleSubmitHand in Hd. rewrite decide_True in Hd by done.
      by injection Hd as <-.
  - destruct (dispatch_frame st e st' Hne Hd) as (-> & _ & _ & -> & _). done.
Qed.

(** ** A Rowie from its start to its end *)



(** ** More on the mercy amount *)

Lemma mercy_bounds t :
  80 * mercyAmount t ≤ t + 40 < 80 * mercyAmount t + 80.
Proof.
  rewrite mercyAmount_div.
  pose proof (Z.div_mod (t + 40) 80 ltac:(lia)).
  pose proof (Z.mod_pos_bound (t + 40) 80 ltac:(lia)). lia.
Qed.

Lemma mercy_monotone a b : a ≤ b → mercyAmount a ≤ mercyAmount b.
Proof.
  intros Hab. pose proof (mercy_bounds a). pose proof (mercy_bounds b). lia.
Qed.

Lemma mercy_shrinks t : t ≠ 0 → Z.abs (mercyAmount t) < Z.abs t.
Proof. intros Ht. pose proof (mercy_bounds t). lia. Qed.

Lemma sum_results_nil : sum_results [] = 0.
Proof. done. Qed.

Lemma mercy_sum_weak chips :
  sum_results chips - 40 * Z.of_nat (length chips)
  ≤ 80 * sum_results (mercyAmount <$> chips)
  ≤ sum_results chips + 40 * Z.of_nat (length chips).
Proof.
  induction chips as [|t l IH].
  - rewrite fmap_nil, sum_results_nil. simpl. lia.
  - rewrite fmap_cons, !sum_results_cons. simpl length.
    pose proof (mercy_bounds t). lia.
Qed.

(** ** Setting a game up *)

Lemma type_names_offset (names : list string) : ∀ (pre old : list string) st,
  length old = length names →
  foldl (λ acc (entry : nat * string),
           st ← acc; handlePlayerName entry.1 entry.2 st)
        (Some (setPlayerNames (pre ++ old) st))
        (imap (λ i name, ((length pre + i)%nat, name)) names)
  = Some (setPlayerNames (pre ++ names) st).
Proof.
  induction names as [|name names IH]; intros pre old st Hlen.
  - by destruct old.
  - destruct old as [|o old]; [discriminate|]. simpl in Hlen.
    cbn [imap foldl mbind option_bind fst snd].
    unfold handlePlayerName at 2, write_dense.
    cbn [playerNames setPlayerNames].
    rewrite decide_True by (rewrite length_app; simpl; lia).
    cbn [mbind option_bind]. rewrite insert_app_r. cbn [insert list_insert].
    rewrite (cons_middle name pre old), (assoc_L (++)).
    rewrite (imap_ext _ (λ i nm, ((length (pre ++ [name]) + i)%nat, nm))); last first.
    { intros i x _. simpl. rewrite length_app. simpl. f_equal. lia. }
    rewrite (cons_middle name pre names), (assoc_L (++) pre [name] names).
    exact (IH (pre ++ [name]) old st ltac:(lia)).
Qed.

Lemma type_names_Some names st :
  length (playerNames st) = length names →
  type_names names st = Some (setPlayerNames names st).
Proof.
  intros Hlen. unfold type_names.
  pose proof (type_names_offset names [] (playerNames st) st ltac:(done)) as H.
  simpl in H. replace (setPlayerNames (playerNames st) st) with st in H
    by (by destruct st).
  exact H.
Qed.

(** ** The proportional pot on the points a game reaches *)

Lemma saved_payouts_reached n st i p :
  game_inv n st → log_inv st →
  0 < RowieSettings.potAmount (rowieSettings st) →
  rowie st !! i = Some p →
  savedRowiePayouts st !! i
  = Some (Some (if decide (0 < p) then Infinity else Number.Int 0)).
Proof.
  intros Hinv Hlog Hpot Hp. unfold savedRowiePayouts.
  assert (i < n)%nat as Hi.
  { rewrite <- (inv_rowie _ _ Hinv). by eapply lookup_lt_Some. }
  rewrite (inv_numPlayers _ _ Hinv). case_decide as Hpos.
  - apply (rowie_zero_sum_infinite _ _ _ _ p); [apply Hlog|nia|done|done].
  - apply rowie_lookup_other; [done|].
    intros p' Hp'. rewrite Hp in Hp'. injection Hp' as <-. lia.
Qed.


(** ** The order of the ranked payouts *)

Lemma rankedPayout_lt unitAmount cs i j a b :
  cs !! i = Some a → cs !! j = Some b → a < b → 0 ≤ unitAmount →
  rankedPayout unitAmount cs a + 2 * unitAmount ≤ rankedPayout unitAmount cs b.
Proof.
  intros Ha Hb Hab Hu. unfold rankedPayout.
  pose proof (countBelow_lt cs i a b Ha Hab).
  pose proof (countAbove_lt cs j a b Hb Hab). nia.
Qed.


Lemma rankedPayout_bound unitAmount cs i v :
  cs !! i = Some v →
  Z.abs (rankedPayout unitAmount cs v)
  ≤ Z.abs unitAmount * (Z.of_nat (length cs) - 1).
Proof.
  intros Hv. unfold rankedPayout.
  pose proof (count_below_above_le cs i v Hv).
  pose proof (count_nonneg cs v) as [? ?].
  rewrite Z.abs_mul. apply Z.mul_le_mono_nonneg_l; lia.
Qed.

Lemma rankedPayout_map (f : Z → Z) unitAmount cs v :
  (∀ x y, x < y ↔ f x < f y) →
  rankedPayout unitAmount (f <$> cs) (f v) = rankedPayout unitAmount cs v.
Proof.
  intros Hf. unfold rankedPayout.
  by destruct (count_monotone_map f cs v Hf) as [-> ->].
Qed.


(** ** The states of the four-player game *)

Lemma after_log events : log_inv (after events).
Proof.
  unfold after.
  destruct (run_log 4 events four_player_game four_player_game_inv)
    as (st & -> & _ & Hlog); [|exact Hlog].
  by apply (start_log four_players).
Qed.

(** ** The leaderboard against the record *)





(** ** The chips of a game sum to zero *)

Lemma inv_chips_sum n st : game_inv n st → sum_results (chips st) = 0.
Proof.
  intros Hinv. rewrite (inv_chips _ _ Hinv). apply replay_sum.
  eapply Forall_impl; [exact (inv_hands _ _ Hinv)|]. done.
Qed.

Lemma StronglySorted_lookup {A} (R : relation A) (l : list A) : ∀ i j x y,
  StronglySorted R l → (i < j)%nat → l !! i = Some x → l !! j = Some y → R x y.
Proof.
  induction l as [|z l IH]; intros i j x y Hs Hij Hx Hy; [done|].
  apply StronglySorted_inv in Hs as [Hs Hall].
  destruct j as [|j]; [lia|]. destruct i as [|i]; simpl in *.
  - injection Hx as <-. rewrite Forall_forall in Hall. apply Hall.
    by eapply list_elem_of_lookup_2.
  - apply (IH i j); (done || lia).
Qed.

Lemma start_run st events :
  length (playerNames st) = numPlayers st →
  existsb Str.blank (playerNames st) = false →
  ∃ st', run (handleNamesContinue st).1 events = Some st'
    ∧ game_inv (numPlayers st) st' ∧ log_inv st'.
Proof.
  intros Hlen Hnames.
  destruct (handleNamesContinue_inv st Hlen Hnames) as (Hinv & _).
  apply run_log; [done|]. by apply start_log.
Qed.

(** ** The start of the last window *)



(** ** The Rowie shown as complete *)



(** ** Doubles that hold integers *)

Lemma digits2_pos_bounds p :
  2 ^ (Zpos (SpecFloat.digits2_pos p) - 1) ≤ Zpos p < 2 ^ Zpos (SpecFloat.digits2_pos p).
Proof.
  induction p as [p IH|p IH|]; simpl SpecFloat.digits2_pos; [| |simpl; lia].
  - rewrite Pos2Z.inj_succ, Pos2Z.inj_xI.
    replace (Z.succ (Zpos (SpecFloat.digits2_pos p)) - 1)
      with (Z.succ (Zpos (SpecFloat.digits2_pos p) - 1)) by lia.
    rewrite !Z.pow_succ_r by lia.
    revert IH. generalize (2 ^ (Z.pos (SpecFloat.digits2_pos p) - 1)).
    generalize (2 ^ Z.pos (SpecFloat.digits2_pos p)). lia.
  - rewrite Pos2Z.inj_succ. change (Zpos p~0) with (2 * Zpos p).
    replace (Z.succ (Zpos (SpecFloat.digits2_pos p)) - 1)
      with (Z.succ (Zpos (SpecFloat.digits2_pos p) - 1)) by lia.
    rewrite !Z.pow_succ_r by lia.
    revert IH. generalize (2 ^ (Z.pos (SpecFloat.digits2_pos p) - 1)).
    generalize (2 ^ Z.pos (SpecFloat.digits2_pos p)). lia.
Qed.

Lemma digits2_pos_unique p d :
  2 ^ (d - 1) ≤ Zpos p < 2 ^ d → Zpos (SpecFloat.digits2_pos p) = d.
Proof.
  intros [Hlo Hhi]. pose proof (digits2_pos_bounds p) as [Hlo' Hhi'].
  assert (0 < d) as Hd.
  { destruct (Z.lt_trichotomy d 0) as [?|[->|?]]; [|simpl in Hhi; lia|done].
    rewrite Z.pow_neg_r in Hhi by lia. lia. }
  destruct (Z.lt_trichotomy (Zpos (SpecFloat.digits2_pos p)) d) as [Hlt|[?|Hgt]]; [|done|].
  - assert (2 ^ Zpos (SpecFloat.digits2_pos p) ≤ 2 ^ (d - 1)) by (apply Z.pow_le_mono_r; lia). lia.
  - assert (2 ^ d ≤ 2 ^ (Zpos (SpecFloat.digits2_pos p) - 1)) by (apply Z.pow_le_mono_r; lia). lia.
Qed.

Lemma iter_xO_mul p k : Zpos (Pos.iter xO p k) = Zpos p * 2 ^ Zpos k.
Proof.
  revert p. induction k as [|k IH] using Pos.peano_ind; intros p.
  - simpl. lia.
  - rewrite Pos.iter_succ.
    change (Zpos (Pos.iter xO p k)~0) with (2 * Zpos (Pos.iter xO p k)).
    rewrite IH, Pos2Z.inj_succ, Z.pow_succ_r by lia. lia.
Qed.

Lemma digits_iter_xO p k :
  Zpos (SpecFloat.digits2_pos (Pos.iter xO p k))
  = Zpos (SpecFloat.digits2_pos p) + Zpos k.
Proof.
  apply digits2_pos_unique. rewrite iter_xO_mul.
  pose proof (digits2_pos_bounds p) as [Hlo Hhi].
  replace (Zpos (SpecFloat.digits2_pos p) + Zpos k - 1)
    with ((Zpos (SpecFloat.digits2_pos p) - 1) + Zpos k) by lia.
  rewrite !Z.pow_add_r by lia.
  assert (0 < 2 ^ Zpos k) by (apply Z.pow_pos_nonneg; lia). nia.
Qed.

(** A mantissa of 53 digits at an exponent within the range is kept
    as it is. *)
Lemma binary_round_aux_canonical s m e :
  Zpos (SpecFloat.digits2_pos m) = 53 → -1074 ≤ e ≤ 971 →
  SpecFloat.binary_round_aux FloatOps.prec FloatOps.emax s (Zpos m) e
    SpecFloat.loc_Exact
  = SpecFloat.S754_finite s m e.
Proof.
  intros Hd He.
  unfold SpecFloat.binary_round_aux, SpecFloat.shr_fexp, SpecFloat.fexp,
    SpecFloat.emin, FloatOps.prec, FloatOps.emax.
  cbn [SpecFloat.Zdigits2 SpecFloat.shr_record_of_loc]. rewrite Hd.
  replace (Z.max (53 + e - 53) (3 - 1024 - 53) - e) with 0 by lia.
  cbn [SpecFloat.shr SpecFloat.shr_m SpecFloat.loc_of_shr_record
       SpecFloat.round_nearest_even SpecFloat.Zdigits2 SpecFloat.shr_record_of_loc].
  rewrite Hd.
  replace (Z.max (53 + e - 53) (3 - 1024 - 53) - e) with 0 by lia.
  cbn [SpecFloat.shr SpecFloat.shr_m].
  replace (e <=? 1024 - 53) with true by (symmetry; apply Z.leb_le; lia).
  reflexivity.
Qed.

Lemma iter_pos_nat {A} (f : A → A) p x :
  SpecFloat.iter_pos f p x = Nat.iter (Pos.to_nat p) f x.
Proof.
  revert x. induction p as [p IH|p IH|]; intros x; simpl SpecFloat.iter_pos.
  - rewrite !IH, Pos2Nat.inj_xI.
    replace (S (2 * Pos.to_nat p)) with (Pos.to_nat p + (Pos.to_nat p + 1))%nat by lia.
    by rewrite !Nat.iter_add.
  - rewrite !IH, Pos2Nat.inj_xO.
    replace (2 * Pos.to_nat p)%nat with (Pos.to_nat p + Pos.to_nat p)%nat by lia.
    by rewrite Nat.iter_add.
  - done.
Qed.

Lemma shr_1_spec m r s :
  0 ≤ m →
  SpecFloat.shr_1 (SpecFloat.Build_shr_record m r s)
  = SpecFloat.Build_shr_record (m / 2) (Z.odd m) (r || s).
Proof.
  intros Hm. destruct m as [|[p|p|]|p]; try lia; cbn [SpecFloat.shr_1].
  - done.
  - f_equal. rewrite Pos2Z.inj_xI. 
    rewrite Z.add_comm, Z.mul_comm, Z.div_add by lia. done.
  - f_equal. change (Zpos p~0) with (2 * Zpos p).
    rewrite Z.mul_comm, Z.div_mul by lia. done.
  - done.
Qed.

Lemma iter_shr_1 m k :
  0 ≤ m →
  Nat.iter k SpecFloat.shr_1 (SpecFloat.Build_shr_record m false false)
  = shifted m k.
Proof.
  intros Hm. induction k as [|k IH]; [done|].
  rewrite Nat.iter_succ, IH. destruct k as [|k].
  - cbn [shifted]. rewrite shr_1_spec by done.
    change (2 ^ Z.of_nat 1) with 2. change (2 ^ Z.of_nat 0) with 1.
    rewrite Z.div_1_r, Z.mod_1_r. done.
  - cbn [shifted]. rewrite shr_1_spec by (apply Z.div_pos; lia).
    assert (0 < 2 ^ Z.of_nat k) as Hk by (apply Z.pow_pos_nonneg; lia).
    assert (2 ^ Z.of_nat (S k) = 2 ^ Z.of_nat k * 2) as H1.
    { rewrite Nat2Z.inj_succ, Z.pow_succ_r by lia. lia. }
    assert (2 ^ Z.of_nat (S (S k)) = 2 ^ Z.of_nat (S k) * 2) as H2.
    { rewrite (Nat2Z.inj_succ (S k)), Z.pow_succ_r by lia. lia. }
    f_equal.
    + rewrite H2, Z.div_div by lia. done.
    + rewrite H1, Z.rem_mul_r by lia.
      rewrite Zodd_mod.
      pose proof (Z.mod_pos_bound m (2 ^ Z.of_nat k) Hk).
      pose proof (Z.mod_pos_bound (m / 2 ^ Z.of_nat k) 2 ltac:(lia)).
      destruct (Z.eqb_spec (m / 2 ^ Z.of_nat k mod 2) 1) as [Hbit|Hbit];
        destruct (Z.eqb_spec (m mod 2 ^ Z.of_nat k) 0) as [Hlow|Hlow];
        destruct (Z.eqb_spec (m mod 2 ^ Z.of_nat k
                              + 2 ^ Z.of_nat k * ((m / 2 ^ Z.of_nat k) mod 2)) 0)
          as [Hall|Hall]; simpl; try done; exfalso; nia.
Qed.

Lemma Zdigits2_unique M d :
  2 ^ (d - 1) ≤ M < 2 ^ d → 0 < M → SpecFloat.Zdigits2 M = d.
Proof.
  intros HM Hpos. destruct M as [|p|p]; try lia. simpl.
  by apply digits2_pos_unique.
Qed.

Lemma shr_fexp_spec M e D :
  0 < M → SpecFloat.Zdigits2 M = D → 53 ≤ D → -1074 ≤ e + D - 53 →
  SpecFloat.shr_fexp FloatOps.prec FloatOps.emax M e SpecFloat.loc_Exact
  = (shifted M (Z.to_nat (D - 53)), e + (D - 53)).
Proof.
  intros HM HD Hprec Hmin.
  unfold SpecFloat.shr_fexp, SpecFloat.fexp, SpecFloat.emin, FloatOps.prec,
    FloatOps.emax. rewrite HD.
  replace (Z.max (D + e - 53) (3 - 1024 - 53) - e) with (D - 53) by lia.
  cbn [SpecFloat.shr_record_of_loc]. unfold SpecFloat.shr.
  destruct (D - 53) as [|n|n] eqn:Hn; try lia.
  - by rewrite Z.add_0_r.
  - rewrite iter_pos_nat, iter_shr_1 by lia. done.
Qed.

Lemma shifted_exact q n :
  0 < q → shifted (q * 2 ^ Z.of_nat n) n = SpecFloat.Build_shr_record q false false.
Proof.
  intros Hq. destruct n as [|n]; cbn [shifted].
  - change (2 ^ Z.of_nat 0) with 1. by rewrite Z.mul_1_r.
  - assert (0 < 2 ^ Z.of_nat n) as Hn by (apply Z.pow_pos_nonneg; lia).
    assert (2 ^ Z.of_nat (S n) = 2 * 2 ^ Z.of_nat n) as ->.
    { rewrite Nat2Z.inj_succ, Z.pow_succ_r by lia. done. }
    f_equal.
    + rewrite Z.div_mul by lia. done.
    + replace (q * (2 * 2 ^ Z.of_nat n)) with (q * 2 * 2 ^ Z.of_nat n) by lia.
      rewrite Z.div_mul by lia. by rewrite Z.mul_comm, Z.odd_mul.
    + replace (q * (2 * 2 ^ Z.of_nat n)) with (q * 2 * 2 ^ Z.of_nat n) by lia.
      by rewrite Z.mod_mul by lia.
Qed.

(** A mantissa that ends in [n] zeros after 53 digits is shifted
    without rounding. *)
Lemma binary_round_aux_exact s q n e :
  Zpos (SpecFloat.digits2_pos q) = 53 →
  -1074 ≤ e + Z.of_nat n ≤ 971 →
  SpecFloat.binary_round_aux FloatOps.prec FloatOps.emax s
    (Zpos q * 2 ^ Z.of_nat n) e SpecFloat.loc_Exact
  = SpecFloat.S754_finite s q (e + Z.of_nat n).
Proof.
  intros Hq He.
  assert (0 < 2 ^ Z.of_nat n) as Hn by (apply Z.pow_pos_nonneg; lia).
  pose proof (digits2_pos_bounds q) as Hb. rewrite Hq in Hb.
  assert (SpecFloat.Zdigits2 (Zpos q * 2 ^ Z.of_nat n) = 53 + Z.of_nat n) as HD.
  { apply Zdigits2_unique; [|lia].
    replace (53 + Z.of_nat n - 1) with (52 + Z.of_nat n) by lia.
    rewrite !Z.pow_add_r by lia. change (53 - 1) with 52 in Hb. nia. }
  pose proof (binary_round_aux_canonical s q (e + Z.of_nat n) Hq He) as Hcanon.
  unfold SpecFloat.binary_round_aux in *.
  rewrite (shr_fexp_spec _ e (53 + Z.of_nat n)) by (lia || done).
  replace (53 + Z.of_nat n - 53) with (Z.of_nat n) by lia.
  rewrite Nat2Z.id, shifted_exact by lia.
  cbn [SpecFloat.shr_m SpecFloat.loc_of_shr_record SpecFloat.round_nearest_even].
  cbn [SpecFloat.shr_fexp SpecFloat.shr_record_of_loc] in Hcanon.
  revert Hcanon.
  unfold SpecFloat.shr_fexp at 1. unfold SpecFloat.fexp, SpecFloat.emin, FloatOps.prec, FloatOps.emax.
  cbn [SpecFloat.Zdigits2]. rewrite Hq.
  replace (Z.max (53 + (e + Z.of_nat n) - 53) (3 - 1024 - 53) - (e + Z.of_nat n)) with 0 by lia.
  cbn [SpecFloat.shr SpecFloat.shr_record_of_loc SpecFloat.shr_m
       SpecFloat.loc_of_shr_record SpecFloat.round_nearest_even]. done.
Qed.

Lemma mantissa_of_value p :
  Zpos (SpecFloat.digits2_pos p) ≤ 53 →
  Zpos (mantissa_of p) = Zpos p * 2 ^ (- exponent_of p).
Proof.
  intros Hd. unfold mantissa_of, exponent_of.
  destruct (53 - Zpos (SpecFloat.digits2_pos p)) as [|k|k] eqn:Hk; try lia.
  - replace (- (Zpos (SpecFloat.digits2_pos p) - 53)) with 0 by lia. simpl. lia.
  - rewrite iter_xO_mul. do 2 f_equal. lia.
Qed.

Lemma mantissa_of_digits p :
  Zpos (SpecFloat.digits2_pos p) ≤ 53 →
  Zpos (SpecFloat.digits2_pos (mantissa_of p)) = 53.
Proof.
  intros Hd. unfold mantissa_of.
  destruct (53 - Zpos (SpecFloat.digits2_pos p)) as [|k|k] eqn:Hk; try lia.
  rewrite digits_iter_xO. lia.
Qed.

Lemma digits_le_53 p : Zpos p < 2 ^ 53 → Zpos (SpecFloat.digits2_pos p) ≤ 53.
Proof.
  intros Hp. pose proof (digits2_pos_bounds p) as [Hlo _].
  destruct (Z.le_gt_cases (Zpos (SpecFloat.digits2_pos p)) 53) as [|Hgt]; [done|].
  assert (2 ^ 53 ≤ 2 ^ (Zpos (SpecFloat.digits2_pos p) - 1))
    by (apply Z.pow_le_mono_r; lia). lia.
Qed.

(** [p * 2^k] at the exponent [-k] is rounded to the double of [p]. *)
Lemma binary_round_integer s mx p k :
  Zpos mx = Zpos p * 2 ^ k → 0 ≤ k ≤ 1000 → Zpos p < 2 ^ 53 →
  SpecFloat.binary_round FloatOps.prec FloatOps.emax s mx (- k)
  = SpecFloat.S754_finite s (mantissa_of p) (exponent_of p).
Proof.
  intros Hmx Hk Hp. pose proof (digits_le_53 p Hp) as Hd.
  pose proof (digits2_pos_bounds p) as Hb.
  pose proof (mantissa_of_value p Hd) as Hm.
  pose proof (mantissa_of_digits p Hd) as Hmd.
  assert (0 < 2 ^ k) as Hk2 by (apply Z.pow_pos_nonneg; lia).
  assert (Zpos (SpecFloat.digits2_pos mx) = Zpos (SpecFloat.digits2_pos p) + k) as Hdx.
  { apply digits2_pos_unique. rewrite Hmx.
    replace (Zpos (SpecFloat.digits2_pos p) + k - 1)
      with ((Zpos (SpecFloat.digits2_pos p) - 1) + k) by lia.
    rewrite !Z.pow_add_r by lia. nia. }
  unfold SpecFloat.binary_round, SpecFloat.fexp, SpecFloat.emin, FloatOps.prec,
    FloatOps.emax. rewrite Hdx.
  replace (Z.max (Zpos (SpecFloat.digits2_pos p) + k + - k - 53) (3 - 1024 - 53))
    with (exponent_of p) by (unfold exponent_of; lia).
  unfold SpecFloat.shl_align.
  destruct (exponent_of p - - k) as [|d|d] eqn:Hshift.
  - assert (Zpos mx = Zpos (mantissa_of p)) as [= ->].
    { rewrite Hmx, Hm. do 2 f_equal. lia. }
    replace (- k) with (exponent_of p) by lia.
    apply binary_round_aux_canonical; [done|unfold exponent_of; lia].
  - replace (Zpos mx) with (Zpos (mantissa_of p) * 2 ^ Z.of_nat (Pos.to_nat d)).
    + rewrite binary_round_aux_exact.
      * f_equal. rewrite positive_nat_Z. lia.
      * done.
      * rewrite positive_nat_Z. unfold exponent_of in *. lia.
    + rewrite Hmx, Hm, positive_nat_Z, <- Z.mul_assoc, <- Z.pow_add_r
        by (unfold exponent_of in *; lia).
      do 2 f_equal. lia.
  - assert (Pos.iter xO mx d = mantissa_of p) as ->.
    { apply Pos2Z.inj. rewrite iter_xO_mul, Hmx, Hm, <- Z.mul_assoc, <- Z.pow_add_r
        by (unfold exponent_of in *; lia).
      do 2 f_equal. lia. }
    apply binary_round_aux_canonical; [done|unfold exponent_of; lia].
Qed.

Lemma binary_normalize_integer c k :
  - 2 ^ 53 < c < 2 ^ 53 → 0 ≤ k ≤ 1000 →
  SpecFloat.binary_normalize FloatOps.prec FloatOps.emax (c * 2 ^ k) (- k) false
  = of_integer c.
Proof.
  intros Hc Hk. assert (0 < 2 ^ k) as Hk2 by (apply Z.pow_pos_nonneg; lia).
  destruct c as [|p|p]; cbn [of_integer].
  - done.
  - destruct (Zpos p * 2 ^ k) as [|mx|mx] eqn:Hmx; try lia.
    cbn [SpecFloat.binary_normalize].
    apply binary_round_integer; (done || lia).
  - destruct (Zneg p * 2 ^ k) as [|mx|mx] eqn:Hmx; try lia.
    cbn [SpecFloat.binary_normalize].
    apply binary_round_integer; [|done|lia]. lia.
Qed.

Lemma exponent_of_range p :
  Zpos p < 2 ^ 53 → -52 ≤ exponent_of p ≤ 0.
Proof. intros Hp%digits_le_53. unfold exponent_of. lia. Qed.

Lemma of_integer_valid z :
  - 2 ^ 53 < z < 2 ^ 53 →
  SpecFloat.valid_binary FloatOps.prec FloatOps.emax (of_integer z) = true.
Proof.
  intros Hz.
  assert (∀ p, Zpos p < 2 ^ 53 →
            SpecFloat.bounded FloatOps.prec FloatOps.emax (mantissa_of p) (exponent_of p)
            = true) as Hbounded.
  { intros p Hp.
    unfold SpecFloat.bounded, SpecFloat.canonical_mantissa, SpecFloat.fexp,
      SpecFloat.emin, FloatOps.prec, FloatOps.emax.
    rewrite mantissa_of_digits by (by apply digits_le_53).
    pose proof (exponent_of_range p Hp).
    apply andb_true_intro. split; [apply Z.eqb_eq|apply Z.leb_le]; lia. }
  destruct z as [|p|p]; [done|..]; cbn [of_integer SpecFloat.valid_binary];
    apply Hbounded; lia.
Qed.

(** The mantissa of an integer double, aligned at a lower exponent. *)
Lemma shl_align_integer p ez :
  Zpos p < 2 ^ 53 → ez ≤ exponent_of p →
  Zpos (SpecFloat.shl_align (mantissa_of p) (exponent_of p) ez).1
  = Zpos p * 2 ^ (- ez).
Proof.
  intros Hp Hez. pose proof (digits_le_53 p Hp) as Hd.
  pose proof (exponent_of_range p Hp).
  unfold SpecFloat.shl_align.
  destruct (ez - exponent_of p) as [|d|d] eqn:Hshift; try lia; cbn [fst].
  - rewrite mantissa_of_value by done. do 2 f_equal. lia.
  - rewrite iter_xO_mul, mantissa_of_value, <- Z.mul_assoc, <- Z.pow_add_r by lia.
    do 2 f_equal. lia.
Qed.

(** The sum of two integer doubles whose exact sum is below [2^53] in
    absolute value is the double of that sum. *)
Lemma SFadd_integer a b :
  - 2 ^ 53 < a < 2 ^ 53 → - 2 ^ 53 < b < 2 ^ 53 → - 2 ^ 53 < a + b < 2 ^ 53 →
  SpecFloat.SFadd FloatOps.prec FloatOps.emax (of_integer a) (of_integer b)
  = of_integer (a + b).
Proof.
  intros Ha Hb Hab.
  assert (∀ p q (sp sq : bool),
            Zpos p < 2 ^ 53 → Zpos q < 2 ^ 53 →
            - 2 ^ 53 < SpecFloat.cond_Zopp sp (Zpos p) + SpecFloat.cond_Zopp sq (Zpos q)
              < 2 ^ 53 →
            SpecFloat.SFadd FloatOps.prec FloatOps.emax
              (SpecFloat.S754_finite sp (mantissa_of p) (exponent_of p))
              (SpecFloat.S754_finite sq (mantissa_of q) (exponent_of q))
            = of_integer (SpecFloat.cond_Zopp sp (Zpos p)
                          + SpecFloat.cond_Zopp sq (Zpos q))) as Hfinite.
  { intros p q sp sq Hp Hq Hsum. cbn [SpecFloat.SFadd].
    pose proof (exponent_of_range p Hp). pose proof (exponent_of_range q Hq).
    set (ez := Z.min (exponent_of p) (exponent_of q)).
    assert (0 < 2 ^ (- ez)) as Hez by (apply Z.pow_pos_nonneg; lia).
    replace (SpecFloat.cond_Zopp sp
               (Zpos (SpecFloat.shl_align (mantissa_of p) (exponent_of p) ez).1)
             + SpecFloat.cond_Zopp sq
               (Zpos (SpecFloat.shl_align (mantissa_of q) (exponent_of q) ez).1))
      with ((SpecFloat.cond_Zopp sp (Zpos p) + SpecFloat.cond_Zopp sq (Zpos q))
            * 2 ^ (- ez)).
    - replace ez with (- - ez) at 2 by lia.
      apply binary_normalize_integer; [done|lia].
    - rewrite (shl_align_integer p ez), (shl_align_integer q ez) by lia.
      destruct sp, sq; unfold SpecFloat.cond_Zopp; lia. }
  destruct a as [|p|p]; [by destruct b| |];
    (destruct b as [|q|q]; [by rewrite Z.add_0_r| |]); cbn [of_integer].
  - apply (Hfinite p q false false); (done || lia).
  - apply (Hfinite p q false true); (done || lia).
  - apply (Hfinite p q true false); (done || lia).
  - apply (Hfinite p q true true); (done || lia).
Qed.

(** ** The sum of the results on doubles *)

Lemma of_Z_spec z :
  - 2 ^ 53 < z < 2 ^ 53 → FloatOps.Prim2SF (Double.of_Z z) = of_integer z.
Proof.
  intros Hz. unfold Double.of_Z.
  pose proof (binary_normalize_integer z 0 Hz ltac:(lia)) as Hn.
  change (2 ^ 0) with 1 in Hn. rewrite Z.mul_1_r in Hn. change (- 0) with 0 in Hn.
  rewrite Hn. apply FloatAxioms.Prim2SF_SF2Prim. by apply of_integer_valid.
Qed.

Lemma add_of_Z a b :
  - 2 ^ 53 < a < 2 ^ 53 → - 2 ^ 53 < b < 2 ^ 53 → - 2 ^ 53 < a + b < 2 ^ 53 →
  PrimFloat.add (Double.of_Z a) (Double.of_Z b) = Double.of_Z (a + b).
Proof.
  intros Ha Hb Hab. apply FloatAxioms.Prim2SF_inj.
  rewrite FloatAxioms.add_spec, !of_Z_spec by done.
  by apply SFadd_integer.
Qed.

Lemma sumZ_abs_nonneg xs : 0 ≤ sumZ Z.abs xs.
Proof. induction xs as [|x xs IH]; simpl; lia. Qed.

Lemma double_sum_from xs : ∀ acc,
  Z.abs acc + sumZ Z.abs xs ≤ MAX_SAFE_INTEGER →
  foldl (λ sum result, PrimFloat.add sum (Double.of_Z result)) (Double.of_Z acc) xs
  = Double.of_Z (acc + sum_results xs).
Proof.
  unfold MAX_SAFE_INTEGER.
  induction xs as [|x xs IH]; intros acc Hacc.
  - simpl. by rewrite Z.add_0_r.
  - cbn [foldl]. cbn [sumZ foldr] in Hacc. fold (sumZ Z.abs xs) in Hacc.
    pose proof (sumZ_abs_nonneg xs).
    rewrite add_of_Z by lia. rewrite IH by lia.
    rewrite sum_results_cons. f_equal. lia.
Qed.

(** Within the safe range the total that the program computes is the
    sum of the results. *)
Lemma double_sum_exact xs :
  exact_sum xs = true → Double.sum_results xs = Double.of_Z (sum_results xs).
Proof.
  intros Hsafe%bool_decide_eq_true. unfold Double.sum_results.
  pose proof (sumZ_abs_nonneg xs).
  change (PrimFloat.of_uint63 0) with (Double.of_Z 0) || idtac.
  rewrite <- (Z.add_0_l (sum_results xs)).
  rewrite <- double_sum_from by lia. done.
Qed.

Lemma sum_results_abs xs : Z.abs (sum_results xs) ≤ sumZ Z.abs xs.
Proof.
  induction xs as [|x xs IH]; [done|].
  rewrite sum_results_cons. cbn [sumZ foldr]. fold (sumZ Z.abs xs). lia.
Qed.

Lemma total_nonzero_exact xs :
  exact_sum xs = true →
  Double.total_nonzero xs = bool_decide (sum_results xs ≠ 0).
Proof.
  intros Hsafe. unfold Double.total_nonzero.
  rewrite (double_sum_exact xs Hsafe), FloatAxioms.eqb_spec.
  apply bool_decide_eq_true in Hsafe. unfold MAX_SAFE_INTEGER in Hsafe.
  pose proof (sum_results_abs xs). pose proof (sumZ_abs_nonneg xs).
  rewrite of_Z_spec by lia.
  change (FloatOps.Prim2SF PrimFloat.zero) with (SpecFloat.S754_zero false).
  destruct (sum_results xs) as [|p|p]; [by rewrite bool_decide_eq_false_2 by lia|..];
    by rewrite bool_decide_eq_true_2 by lia.
Qed.

(** ** Rounding to the nearest double *)

Lemma round_shifted P k :
  0 ≤ P → (0 < k)%nat →
  SpecFloat.round_nearest_even (SpecFloat.shr_m (shifted P k))
    (SpecFloat.loc_of_shr_record (shifted P k))
  = rne P (Z.of_nat k).
Proof.
  intros HP Hk. destruct k as [|j]; [lia|]. cbn [shifted SpecFloat.shr_m].
  unfold rne.
  assert (0 < 2 ^ Z.of_nat j) as Hj by (apply Z.pow_pos_nonneg; lia).
  assert (2 ^ Z.of_nat (S j) = 2 ^ Z.of_nat j * 2) as Hpow.
  { rewrite Nat2Z.inj_succ, Z.pow_succ_r by lia. lia. }
  assert (P mod 2 ^ Z.of_nat (S j)
          = P mod 2 ^ Z.of_nat j + 2 ^ Z.of_nat j * ((P / 2 ^ Z.of_nat j) mod 2))
    as Hrem by (rewrite Hpow; apply Z.rem_mul_r; lia).
  rewrite Hrem, Hpow. clear Hrem Hpow.
  pose proof (Z.mod_pos_bound P (2 ^ Z.of_nat j) Hj) as Hlow.
  rewrite (Zodd_mod (P / 2 ^ Z.of_nat j)).
  pose proof (Z.mod_pos_bound (P / 2 ^ Z.of_nat j) 2 ltac:(lia)) as Hbit.
  destruct (Z.eqb_spec ((P / 2 ^ Z.of_nat j) mod 2) 1) as [H1|H1];
    destruct (Z.eqb_spec (P mod 2 ^ Z.of_nat j) 0) as [H0|H0];
    cbn [negb SpecFloat.loc_of_shr_record SpecFloat.round_nearest_even];
    repeat case_decide; try done; try (exfalso; nia).
Qed.

Lemma rne_bounds P n :
  0 ≤ n → P / 2 ^ n ≤ rne P n ≤ P / 2 ^ n + 1.
Proof.
  intros Hn. unfold rne. repeat case_decide; try lia.
  destruct (Z.even (P / 2 ^ n)); lia.
Qed.

Lemma rne_below P n : 2 * (P mod 2 ^ n) < 2 ^ n → rne P n = P / 2 ^ n.
Proof. intros H. unfold rne. by rewrite decide_True. Qed.

Lemma rne_above P n : 2 ^ n < 2 * (P mod 2 ^ n) → rne P n = P / 2 ^ n + 1.
Proof.
  intros H. unfold rne. rewrite decide_False by lia. by rewrite decide_True.
Qed.

(** What a mantissa [P] of more than 53 digits is rounded to. *)
Lemma binary_round_aux_nearest s P e D :
  SpecFloat.Zdigits2 P = D → 0 < P → 53 < D →
  -1074 ≤ e + (D - 53) → e + (D - 53) + 1 ≤ 971 →
  let Q := rne P (D - 53) in
  2 ^ 52 ≤ Q ≤ 2 ^ 53
  ∧ SpecFloat.binary_round_aux FloatOps.prec FloatOps.emax s P e SpecFloat.loc_Exact
    = if decide (Q < 2 ^ 53)
      then SpecFloat.S754_finite s (Z.to_pos Q) (e + (D - 53))
      else SpecFloat.S754_finite s (Z.to_pos (2 ^ 52)) (e + (D - 53) + 1).
Proof.
  intros HD HP Hprec Hmin Hmax Q.
  set (n := D - 53) in *.
  assert (0 < 2 ^ n) as Hn by (apply Z.pow_pos_nonneg; lia).
  assert (2 ^ (D - 1) ≤ P < 2 ^ D) as HPD.
  { destruct P as [|p|p]; try lia. simpl in HD. subst D.
    apply digits2_pos_bounds. }
  assert (2 ^ 52 ≤ P / 2 ^ n < 2 ^ 53) as Hf.
  { assert (2 ^ (D - 1) = 2 ^ 52 * 2 ^ n) as Hlo
      by (rewrite <- Z.pow_add_r by lia; f_equal; lia).
    assert (2 ^ D = 2 ^ 53 * 2 ^ n) as Hhi
      by (rewrite <- Z.pow_add_r by lia; f_equal; lia).
    rewrite Hlo, Hhi in HPD. split.
    - apply Z.div_le_lower_bound; lia.
    - apply Z.div_lt_upper_bound; lia. }
  assert (2 ^ 52 ≤ Q ≤ 2 ^ 53) as HQ.
  { pose proof (rne_bounds P n ltac:(lia)). unfold Q. lia. }
  split; [done|].
  unfold SpecFloat.binary_round_aux.
  rewrite (shr_fexp_spec P e D) by (done || lia). fold n.
  rewrite round_shifted by lia. rewrite Z2Nat.id by lia. fold Q.
  destruct (decide (Q < 2 ^ 53)) as [Hlt|Hge].
  - rewrite (shr_fexp_spec Q (e + n) 53); [|lia| |lia|lia].
    + change (Z.to_nat (53 - 53)) with 0%nat. cbn [shifted SpecFloat.shr_m].
      change (53 - 53) with 0. rewrite Z.add_0_r.
      destruct Q as [|q|q]; try lia.
      replace (e + n <=? FloatOps.emax - FloatOps.prec) with true; [done|].
      symmetry. apply Z.leb_le. unfold FloatOps.emax, FloatOps.prec. lia.
    + apply Zdigits2_unique; [|lia]. change (53 - 1) with 52. lia.
  - assert (Q = 2 ^ 53) as HQ53 by lia. clearbody Q. subst Q.
    rewrite (shr_fexp_spec (2 ^ 53) (e + n) 54); [|done|done|lia|lia].
    change (Z.to_nat (54 - 53)) with 1%nat. change (54 - 53) with 1.
    change (2 ^ 53) with (4503599627370496 * 2 ^ Z.of_nat 1).
    rewrite shifted_exact by done. cbn [SpecFloat.shr_m].
    replace (e + n + 1 <=? FloatOps.emax - FloatOps.prec) with true; [done|].
    symmetry. apply Z.leb_le. unfold FloatOps.emax, FloatOps.prec. lia.
Qed.

(** ** Halving a double *)

Lemma SFdiv_two s q e :
  Zpos (SpecFloat.digits2_pos q) = 53 → -1072 ≤ e ≤ 971 →
  SpecFloat.SFdiv FloatOps.prec FloatOps.emax (SpecFloat.S754_finite s q e)
    (SpecFloat.S754_finite false 4503599627370496 (-51))
  = SpecFloat.S754_finite s q (e - 1).
Proof.
  intros Hq He. unfold SpecFloat.SFdiv, SpecFloat.SFdiv_core_binary.
  cbn [SpecFloat.Zdigits2]. rewrite Hq.
  change (Zpos (SpecFloat.digits2_pos 4503599627370496)) with 53.
  unfold SpecFloat.fexp, SpecFloat.emin, FloatOps.prec, FloatOps.emax.
  replace (Z.min (Z.max (53 + e - (53 + -51) - 53) (3 - 1024 - 53)) (e - -51))
    with (e - 2) by lia.
  replace (e - -51 - (e - 2)) with 53 by lia.
  rewrite Z.shiftl_mul_pow2 by done.
  assert (Z.div_eucl (Zpos q * 2 ^ 53) 4503599627370496 = (Zpos q * 2 ^ Z.of_nat 1, 0))
    as ->.
  { pose proof (Z_div_mod (Zpos q * 2 ^ 53) 4503599627370496 eq_refl) as Hdiv.
    destruct (Z.div_eucl _ _) as [quotient remainder].
    change (2 ^ 53) with 9007199254740992 in Hdiv.
    change (2 ^ Z.of_nat 1) with 2. f_equal; lia. }
  change (SpecFloat.new_location 4503599627370496 0) with SpecFloat.loc_Exact.
  rewrite xorb_false_r, binary_round_aux_exact by (done || lia).
  f_equal. lia.
Qed.

(** ** The mercy amount on doubles *)

Lemma div_between a b q : 0 < b → q * b ≤ a < (q + 1) * b → a / b = q.
Proof.
  intros Hb Hq. symmetry. apply (Z.div_unique a b q (a - q * b)); lia.
Qed.

(** Where the rounded product [t * 0.05] lies, for a positive [t] and
    for a negative one: [x = |t| * B] is the mantissa of [t], [y = m * B]
    with [m] the integer expected, [f] and [r] the quotient and the rest of
    the product of the mantissas by [N], and [Q] that product rounded. *)
Lemma mercy_core_pos c x y B f r Q N :
  (N = 2 ^ 52 ∧ c = 64) ∨ (N = 2 ^ 53 ∧ c = 32) →
  1 ≤ B → x ≤ 2 ^ 52 * B →
  80 * y - 40 * B ≤ x ≤ 80 * y + 39 * B →
  N * 2 ^ 52 ≤ Zpos mantissa_005 * x < N * 2 ^ 53 →
  Zpos mantissa_005 * x = N * f + r → 0 ≤ r < N →
  f ≤ Q ≤ f + 1 → (2 * r < N → Q = f) → (N < 2 * r → Q = f + 1) →
  c * (2 * y - B) ≤ Q < c * (2 * y + B).
Proof.
  unfold mantissa_005.
  intros [[-> ->]|[-> ->]] HB Hx Hy HP Hdiv Hr HQ Hbelow Habove;
    change (2 ^ 52) with 4503599627370496 in *;
    change (2 ^ 53) with 9007199254740992 in *; lia.
Qed.

Lemma mercy_core_neg c x y B f r Q N :
  (N = 2 ^ 52 ∧ c = 64) ∨ (N = 2 ^ 53 ∧ c = 32) →
  1 ≤ B → x ≤ 2 ^ 52 * B →
  80 * y - 39 * B ≤ x ≤ 80 * y + 40 * B →
  N * 2 ^ 52 ≤ Zpos mantissa_005 * x < N * 2 ^ 53 →
  Zpos mantissa_005 * x = N * f + r → 0 ≤ r < N →
  f ≤ Q ≤ f + 1 → (2 * r < N → Q = f) → (N < 2 * r → Q = f + 1) →
  c * (2 * y - B) < Q ≤ c * (2 * y + B).
Proof.
  unfold mantissa_005.
  intros [[-> ->]|[-> ->]] HB Hx Hy HP Hdiv Hr HQ Hbelow Habove;
    change (2 ^ 52) with 4503599627370496 in *;
    change (2 ^ 53) with 9007199254740992 in *; lia.
Qed.

(** The double [t * 0.05 / 2 / 2] and the integer it rounds to. *)
Lemma mercy_double s p :
  Zpos p ≤ 2 ^ 52 →
  ∃ q e,
    SpecFloat.SFdiv FloatOps.prec FloatOps.emax
      (SpecFloat.SFdiv FloatOps.prec FloatOps.emax
         (SpecFloat.SFmul FloatOps.prec FloatOps.emax
            (SpecFloat.S754_finite s (mantissa_of p) (exponent_of p))
            (SpecFloat.S754_finite false mantissa_005 (-57)))
         (SpecFloat.S754_finite false 4503599627370496 (-51)))
      (SpecFloat.S754_finite false 4503599627370496 (-51))
    = SpecFloat.S754_finite s q e
    ∧ e < 0
    ∧ (2 * Zpos q + 2 ^ (- e)) / 2 ^ (- e + 1) = (Zpos p + 40) / 80
    ∧ (2 * Zneg q + 2 ^ (- e)) / 2 ^ (- e + 1) = (Zneg p + 40) / 80.
Proof.
  intros Hp.
  assert (Zpos p < 2 ^ 53) as Hp53 by (change (2 ^ 52) with 4503599627370496 in Hp;
    change (2 ^ 53) with 9007199254740992; lia).
  pose proof (digits_le_53 p Hp53) as Hd.
  pose proof (mantissa_of_value p Hd) as Hx.
  pose proof (mantissa_of_digits p Hd) as Hxd.
  pose proof (exponent_of_range p Hp53) as Het.
  pose proof (digits2_pos_bounds (mantissa_of p)) as Hxb. rewrite Hxd in Hxb.
  change (53 - 1) with 52 in Hxb.
  set (et := exponent_of p) in *. set (B := 2 ^ (- et)) in *.
  assert (1 ≤ B) as HB.
  { assert (0 < B) by (apply Z.pow_pos_nonneg; lia). lia. }
  cbn [SpecFloat.SFmul]. rewrite xorb_false_r.
  set (P := Zpos (mantissa_of p * mantissa_005)).
  assert (P = Zpos mantissa_005 * (Zpos p * B)) as HP
    by (unfold P; rewrite Pos2Z.inj_mul, Hx; lia).
  assert (2 ^ 104 ≤ P < 2 ^ 106) as HPb.
  { rewrite HP, <- Hx. unfold mantissa_005.
    change (2 ^ 52) with 4503599627370496 in Hxb.
    change (2 ^ 53) with 9007199254740992 in Hxb.
    change (2 ^ 104) with 20282409603651670423947251286016.
    change (2 ^ 106) with 81129638414606681695789005144064. lia. }
  set (D := SpecFloat.Zdigits2 P).
  assert (2 ^ (D - 1) ≤ P < 2 ^ D) as HDb by apply digits2_pos_bounds.
  assert (D = 105 ∨ D = 106) as HD.
  { destruct (Z.le_gt_cases D 104) as [Hle|Hgt].
    - assert (2 ^ D ≤ 2 ^ 104) by (apply Z.pow_le_mono_r; lia). lia.
    - destruct (Z.le_gt_cases 107 D) as [Hge|Hlt]; [|lia].
      assert (2 ^ 106 ≤ 2 ^ (D - 1)) by (apply Z.pow_le_mono_r; lia). lia. }
  destruct (binary_round_aux_nearest s P (et + -57) D eq_refl) as [HQ Hround];
    [done|lia|lia|lia|].
  rewrite Hround. clear Hround.
  set (N := 2 ^ (D - 53)) in *.
  pose proof (rne_bounds P (D - 53) ltac:(lia)) as Hrne.
  pose proof (rne_below P (D - 53)) as Hbelow.
  pose proof (rne_above P (D - 53)) as Habove.
  fold N in Hrne, Hbelow, Habove.
  set (Q := rne P (D - 53)) in *.
  assert (0 < N) as HN by (apply Z.pow_pos_nonneg; lia).
  pose proof (Z.div_mod P N ltac:(lia)) as Hdiv.
  pose proof (Z.mod_pos_bound P N HN) as Hr.
  assert (N * 2 ^ 52 ≤ P < N * 2 ^ 53) as HPN.
  { unfold N. rewrite <- !Z.pow_add_r by lia.
    replace (D - 53 + 52) with (D - 1) by lia.
    by replace (D - 53 + 53) with D by lia. }
  rewrite HP in Hdiv at 1. rewrite HP in HPN.
  pose proof (Z.div_mod (Zpos p + 40) 80 ltac:(lia)) as Hpos.
  pose proof (Z.mod_pos_bound (Zpos p + 40) 80 ltac:(lia)) as Hpos'.
  pose proof (Z.div_mod (Zneg p + 40) 80 ltac:(lia)) as Hneg.
  pose proof (Z.mod_pos_bound (Zneg p + 40) 80 ltac:(lia)) as Hneg'.
  set (mp := (Zpos p + 40) / 80) in *. set (mn := (Zneg p + 40) / 80) in *.
  assert (∃ c, ((N = 2 ^ 52 ∧ c = 64) ∨ (N = 2 ^ 53 ∧ c = 32))
               ∧ 2 ^ (- (et + -57 + (D - 53) - 1 - 1)) = 2 * (c * B)
               ∧ 2 ^ (- (et + -57 + (D - 53) - 1 - 1) + 1) = 4 * (c * B)
               ∧ 2 ^ (- (et + -57 + (D - 53) + 1 - 1 - 1)) = c * B
               ∧ 2 ^ (- (et + -57 + (D - 53) + 1 - 1 - 1) + 1) = 2 * (c * B))
    as (c & Hc & Hw1 & Hw2 & Hw3 & Hw4).
  { destruct HD as [HD|HD]; [exists 64|exists 32]; unfold N, B; rewrite HD;
      (split; [by (left + right)|]); repeat split.
    - replace (- (et + -57 + (105 - 53) - 1 - 1)) with (7 + - et) by lia.
      rewrite Z.pow_add_r by lia. change (2 ^ 7) with 128. lia.
    - replace (- (et + -57 + (105 - 53) - 1 - 1) + 1) with (8 + - et) by lia.
      rewrite Z.pow_add_r by lia. change (2 ^ 8) with 256. lia.
    - replace (- (et + -57 + (105 - 53) + 1 - 1 - 1)) with (6 + - et) by lia.
      rewrite Z.pow_add_r by lia. change (2 ^ 6) with 64. lia.
    - replace (- (et + -57 + (105 - 53) + 1 - 1 - 1) + 1) with (7 + - et) by lia.
      rewrite Z.pow_add_r by lia. change (2 ^ 7) with 128. lia.
    - replace (- (et + -57 + (106 - 53) - 1 - 1)) with (6 + - et) by lia.
      rewrite Z.pow_add_r by lia. change (2 ^ 6) with 64. lia.
    - replace (- (et + -57 + (106 - 53) - 1 - 1) + 1) with (7 + - et) by lia.
      rewrite Z.pow_add_r by lia. change (2 ^ 7) with 128. lia.
    - replace (- (et + -57 + (106 - 53) + 1 - 1 - 1)) with (5 + - et) by lia.
      rewrite Z.pow_add_r by lia. change (2 ^ 5) with 32. lia.
    - replace (- (et + -57 + (106 - 53) + 1 - 1 - 1) + 1) with (6 + - et) by lia.
      rewrite Z.pow_add_r by lia. change (2 ^ 6) with 64. lia. }
  set (rp := (Zpos p + 40) mod 80) in *. set (rn := (Zneg p + 40) mod 80) in *.
  clearbody Q mp mn rp rn N B P D et. clear HPb HDb Hx Hxd Hxb Hd Hp53.
  assert (c = 64 ∨ c = 32) as Hc' by lia.
  assert (Zpos p * B ≤ 2 ^ 52 * B) as HxB by (apply Z.mul_le_mono_nonneg_r; lia).
  assert (0 ≤ rp * B ≤ 79 * B) as Hrp
    by (split; [apply Z.mul_nonneg_nonneg|apply Z.mul_le_mono_nonneg_r]; lia).
  assert (0 ≤ rn * B ≤ 79 * B) as Hrn
    by (split; [apply Z.mul_nonneg_nonneg|apply Z.mul_le_mono_nonneg_r]; lia).
  assert (Zpos p * B = 80 * (mp * B) + rp * B - 40 * B) as Hyp
    by (replace (Zpos p) with (80 * mp + rp - 40) by lia; ring).
  assert (Zpos p * B = 80 * (- mn * B) - rn * B + 40 * B) as Hyn
    by (replace (Zpos p) with (- (80 * mn + rn - 40)) by lia; ring).
  pose proof (mercy_core_pos c (Zpos p * B) (mp * B) B (P / N) (P mod N) Q N
                Hc HB HxB ltac:(lia) HPN Hdiv Hr Hrne Hbelow Habove) as Hcp.
  pose proof (mercy_core_neg c (Zpos p * B) (- mn * B) B (P / N) (P mod N) Q N
                Hc HB HxB ltac:(lia) HPN Hdiv Hr Hrne Hbelow Habove) as Hcn.
  destruct (decide (Q < 2 ^ 53)) as [Hlt|Hge].
  - destruct Q as [|q|q]; try lia. cbn [Z.to_pos].
    assert (Zpos (SpecFloat.digits2_pos q) = 53) as Hq
      by (apply digits2_pos_unique; change (53 - 1) with 52; lia).
    rewrite !SFdiv_two by (done || lia).
    exists q, (et + -57 + (D - 53) - 1 - 1). split; [done|]. split; [lia|].
    rewrite Hw1, Hw2. split; apply div_between; lia.
  - assert (Q = 2 ^ 53) as -> by lia.
    change (Z.to_pos (2 ^ 52)) with 4503599627370496%positive.
    rewrite !SFdiv_two by (done || lia).
    exists 4503599627370496%positive, (et + -57 + (D - 53) + 1 - 1 - 1).
    split; [done|]. split; [lia|].
    rewrite Hw3, Hw4. change (2 ^ 53) with 9007199254740992 in Hcp, Hcn.
    split; apply div_between; lia.
Qed.


Section mercy_on_doubles.
Import PrimFloat.

Lemma mercyAmount_double t :
  - 2 ^ 52 ≤ t ≤ 2 ^ 52 →
  Double.mercyAmount t = Number.Int ((t + 40) / 80).
Proof.
  intros Ht.
  assert (- 2 ^ 53 < t < 2 ^ 53) as Ht'.
  { change (2 ^ 52) with 4503599627370496 in Ht.
    change (2 ^ 53) with 9007199254740992. lia. }
  unfold Double.mercyAmount, Double.Math_round.
  rewrite !FloatAxioms.div_spec, FloatAxioms.mul_spec, of_Z_spec by done.
  change (FloatOps.Prim2SF 0x1.999999999999ap-5%float)
    with (SpecFloat.S754_finite false mantissa_005 (-57)).
  change (FloatOps.Prim2SF 2%float)
    with (SpecFloat.S754_finite false 4503599627370496 (-51)).
  unfold FloatAxioms.SF64div, FloatAxioms.SF64mul.
  destruct t as [|p|p]; cbn [of_integer].
  - done.
  - destruct (mercy_double false p ltac:(lia)) as (q & e & -> & He & Hpos & _).
    rewrite decide_False by lia. by rewrite Hpos.
  - destruct (mercy_double true p ltac:(lia)) as (q & e & -> & He & _ & Hneg).
    rewrite decide_False by lia. by rewrite Hneg.
Qed.

End mercy_on_doubles.

(** On doubles the mercy amount is the integer of the exact model, for
    every total of at most [2^52] in magnitude. *)
Lemma double_mercy_agrees chip :
  mercy_checked chip → Double.mercyAmount chip = Number.Int (mercyAmount chip).
Proof. intros Hchip. rewrite mercyAmount_div. by apply mercyAmount_double. Qed.

(** ** Integers as numbers, and ASCII letters *)

Lemma Int_inj a b : Number.Int a = Number.Int b → a = b.
Proof. unfold Number.Int. intros [= H]. exact H. Qed.


(** * The claims of the specification *)

(** C1 (the code departs from the claim).  In the scenario of the
    specification, four players, 5 per player and window points
    [15, -15, 0, 0], the divisor [totalPoints] is the sum of all the
    entries, which is zero: the payout of the first player is
    [Infinity], not 20.  The single division evaluated is [15 / 0], and
    the same expression on doubles is [Infinity] as well.  The game
    reaches these points by playing the two hands of the scenario, and
    these are the payouts computed when the round is saved. *)
Theorem rowie_scenario_divides_by_zero :
  calculateRowiePayouts 4 5 [15; -15; 0; 0]
  = [Some Infinity; Some (Number.Int 0); Some (Number.Int 0); Some (Number.Int 0)]
  ∧ calculateRowiePayouts 4 5 [15; -15; 0; 0] !! 0%nat
    ≠ Some (Some (Number.Int 20))
  ∧ (rowiePayoutsTraced 4 5 [15; -15; 0; 0]).2 = [(15, 0)]
  ∧ Double.rowiePayout 4 5 [15; -15; 0; 0] 15 = Infinity
  ∧ rowie scenario_window = [15; -15; 0; 0]
  ∧ savedRowiePayouts scenario_window
    = [Some Infinity; Some (Number.Int 0); Some (Number.Int 0); Some (Number.Int 0)].
Proof. vm_compute. repeat split; discriminate || reflexivity. Qed.

(** C2.  For every vector of final values, every unit amount and every
    number of players, the array returned by the ranked settlement has
    no hole and its entries sum to exactly zero. *)
Theorem bubble_payouts_sum_zero (unitAmount : Z) (numPlayers : nat)
    (finalValues : list Z) :
  let payouts := Bubble.calculateBubblePayoutsWith unitAmount numPlayers finalValues in
  Forall is_Some payouts ∧ Js.sum payouts = 0
  ∧ Js.sum (calculateBubblePayouts numPlayers finalValues) = 0.
Proof.
  intros payouts. unfold payouts, calculateBubblePayouts.
  rewrite !bubble_closed_form. split; [|split].
  - apply Forall_app. split.
    + apply Forall_fmap, Forall_forall. intros v _. simpl. eauto.
    + apply Forall_replicate. eauto.
  - rewrite js_sum_dense. apply sumZ_rankedPayout.
  - rewrite js_sum_dense. apply sumZ_rankedPayout.
Qed.

(** C3, as the specification states it, for every vector that does
    not sum to zero: the results [2^53, 1, -2^53] sum to 1, and the
    program, which adds them as doubles from the left, finds a total
    of 0 and accepts the hand. *)
Lemma submit_accepts_unbalanced_doubles :
  sum_results [2 ^ 53; 1; - 2 ^ 53] = 1
  ∧ Double.total_nonzero [2 ^ 53; 1; - 2 ^ 53] = false.
Proof. vm_compute. split; reflexivity. Qed.

(** C3 (amended).  A hand whose results are summed exactly, their
    absolute values adding up to at most [2^53 - 1], and do not sum to
    zero is rejected with the alert "Hand results must sum to zero."
    and the state is returned as it was: totals, hand list, Rowie
    settings and Rowie points are all unchanged. *)
Theorem submit_rejects_unbalanced (now : string) (st : State) :
  exact_sum (handResults st) = true →
  sum_results (handResults st) ≠ 0 →
  handleSubmitHand now st = Some (st, [sum_error])
  ∧ dispatch st (PressSubmit now) = Some st.
Proof.
  intros _ Hsum.
  assert (handleSubmitHand now st = Some (st, [sum_error])) as Hreject.
  { unfold handleSubmitHand. by rewrite decide_True. }
  split; [done|]. simpl. rewrite Hreject. by destruct (game_screen st).
Qed.

Lemma submit_rejects_unbalanced_witness :
  let st := setHandResults [10; -5; -4] three_player_game in
  sum_results (handResults st) = 1
  ∧ Double.total_nonzero (handResults st) = true
  ∧ handleSubmitHand "now" st = Some (st, [sum_error])
  ∧ chips st = [0; 0; 0].
Proof.
  intros st. split; [reflexivity|]. split; [reflexivity|].
  split; [|reflexivity].
  apply (submit_rejects_unbalanced "now" st); [reflexivity|].
  vm_compute. discriminate.
Defined.

(** C4.  When no entry of the points vector is positive, the
    proportional-pot settlement returns 0 for each of the [numPlayers]
    players, whatever the pot amount, and evaluates no division. *)
Theorem rowie_no_positive_points (numPlayers : nat) (potAmount : Z)
    (rowiePoints : list Z) :
  Forall (λ points, points ≤ 0) rowiePoints →
  calculateRowiePayouts numPlayers potAmount rowiePoints
  = replicate numPlayers (Some (Number.Int 0))
  ∧ (rowiePayoutsTraced numPlayers potAmount rowiePoints).2 = [].
Proof.
  intros Hall. unfold calculateRowiePayouts, rowiePayoutsTraced.
  rewrite rowie_no_writes; [done|].
  apply Forall_forall. intros [idx points] Hin.
  apply elem_of_lookup_imap in Hin as (i & p & [= -> ->] & Hp).
  rewrite Forall_forall in Hall. apply Hall. by eapply list_elem_of_lookup_2.
Qed.

Lemma rowie_no_positive_points_witness :
  calculateRowiePayouts 4 5 [0; -3; 0; -2]
  = replicate 4 (Some (Number.Int 0))
  ∧ (rowiePayoutsTraced 4 5 [0; -3; 0; -2]).2 = [].
Proof.
  apply (rowie_no_positive_points 4 5 [0; -3; 0; -2]).
  repeat constructor; lia.
Defined.

(** C5, the example as the specification gives it: with totals
    [50, -20, -30] the payouts are not [+20, -10, -10], because -20 and
    -30 are different values and the two players are not tied. *)
Lemma bubble_scenario_not_tied :
  ¬ (calculateBubblePayouts 3 [50; -20; -30] = [Some 20; Some (-10); Some (-10)]).
Proof. vm_compute. discriminate. Qed.

(** C5 (amended).  Each player [i] receives [unitAmount * (below -
    above)], where [above] counts the players with a strictly higher
    value and [below] those with a strictly lower value; players with
    equal values receive the same payout.  With totals [50, -20, -30]
    and unit 10 the payouts are [+20, 0, -20]. *)
Theorem bubble_payout_by_rank (unitAmount : Z) (numPlayers : nat)
    (finalValues : list Z) :
  let payouts := Bubble.calculateBubblePayoutsWith unitAmount numPlayers finalValues in
  (∀ i v, finalValues !! i = Some v →
     payouts !! i
     = Some (Some (unitAmount
                   * (countBelow finalValues v - countAbove finalValues v))))
  ∧ (∀ i j v, finalValues !! i = Some v → finalValues !! j = Some v →
       payouts !! i = payouts !! j)
  ∧ calculateBubblePayouts 3 [50; -20; -30] = [Some 20; Some 0; Some (-20)].
Proof.
  intros payouts. split; [|split].
  - intros i v Hv. by apply bubble_lookup.
  - intros i j v Hi Hj. unfold payouts.
    by rewrite (bubble_lookup _ _ _ _ _ Hi), (bubble_lookup _ _ _ _ _ Hj).
  - vm_compute. reflexivity.
Qed.

Lemma bubble_payout_by_rank_witness :
  [50; -20; -20] !! 1%nat = Some (-20)
  ∧ Bubble.calculateBubblePayoutsWith 10 3 [50; -20; -20] !! 1%nat
    = Some (Some (10 * (countBelow [50; -20; -20] (-20)
                        - countAbove [50; -20; -20] (-20))))
  ∧ Bubble.calculateBubblePayoutsWith 10 3 [50; -20; -20] !! 1%nat
    = Bubble.calculateBubblePayoutsWith 10 3 [50; -20; -20] !! 2%nat.
Proof.
  destruct (bubble_payout_by_rank 10 3 [50; -20; -20]) as (Hrank & Htie & _).
  split; [reflexivity|]. split.
  - apply Hrank. reflexivity.
  - apply (Htie 1%nat 2%nat (-20)); reflexivity.
Defined.







(** C8.  The state holds a single Rowie window.  [New Rowie] pressed
    while the window is open is answered by an alert and changes
    nothing; [Start Rowie] with a number of hands or a value that is
    not positive is answered by an alert and changes nothing; and in
    every state the game reaches, the settings screen, where a window is
    created, is shown only while no window is open. *)
Theorem rowie_window_guard :
  (∀ st, 0 < RowieSettings.currentHand (rowieSettings st) →
     handleNewRowie st = (st, [rowie_open_error]))
  ∧ (∀ st, RowieSettings.numHands (rowieSettings st) ≤ 0
           ∨ RowieSettings.potAmount (rowieSettings st) ≤ 0 →
       handleRowieSettingsContinue st = (st, [rowie_settings_error]))
  ∧ (∀ st events,
       length (playerNames st) = numPlayers st →
       existsb Str.blank (playerNames st) = false →
       ∃ st', run (handleNamesContinue st).1 events = Some st'
         ∧ (settings_screen st' = true →
            RowieSettings.currentHand (rowieSettings st') = 0)).
Proof.
  split; [|split].
  - intros st Hopen. unfold handleNewRowie. by rewrite decide_True.
  - intros st Hbad. unfold handleRowieSettingsContinue. by rewrite decide_True.
  - intros st events Hlen Hnames.
    destruct (handleNamesContinue_inv st Hlen Hnames) as (Hinv & _).
    destruct (run_inv _ events _ Hinv) as (st' & Hrun & Hinv').
    exists st'. split; [done|]. intros Hscreen.
    apply andb_prop in Hscreen as [Hstep%bool_decide_eq_true _].
    destruct (inv_step _ _ Hinv') as [?|[_ ?]]; [lia|done].
Qed.

Lemma rowie_window_guard_witness :
  let opened := after open_rowie in
  let unset := after [PressNewRowie; EditRowie FieldNumHands 0] in
  RowieSettings.currentHand (rowieSettings opened) = 2
  ∧ handleNewRowie opened = (opened, [rowie_open_error])
  ∧ RowieSettings.numHands (rowieSettings unset) = 0
  ∧ handleRowieSettingsContinue unset = (unset, [rowie_settings_error]).
Proof.
  intros opened unset.
  destruct rowie_window_guard as (Hopen & Hbad & _).
  split; [reflexivity|]. split; [|split; [reflexivity|]].
  - apply Hopen. vm_compute. reflexivity.
  - apply Hbad. left. vm_compute. discriminate.
Defined.





(** * Further properties of the code *)

(** ** The ranked settlement *)

(** X1.  The ranked settlement keeps the order of the chips: of two
    players, the one with strictly more chips is paid at least twice
    the unit amount more than the other. *)
Theorem bubble_payouts_ordered (numPlayers : nat) (finalChips : list Z)
    (i j : nat) (a b : Z) :
  finalChips !! i = Some a → finalChips !! j = Some b → a < b →
  ∃ p q,
    calculateBubblePayouts numPlayers finalChips !! i = Some (Some p)
    ∧ calculateBubblePayouts numPlayers finalChips !! j = Some (Some q)
    ∧ p + 2 * BUBBLE_AMOUNT ≤ q.
Proof.
  intros Ha Hb Hab. unfold calculateBubblePayouts.
  rewrite (bubble_lookup _ _ _ _ _ Ha), (bubble_lookup _ _ _ _ _ Hb).
  eexists _, _. split; [done|]. split; [done|].
  apply (rankedPayout_lt _ _ i j); done.
Qed.

Lemma bubble_payouts_ordered_witness :
  ∃ p q,
    calculateBubblePayouts 3 [50; -20; -30] !! 2%nat = Some (Some p)
    ∧ calculateBubblePayouts 3 [50; -20; -30] !! 1%nat = Some (Some q)
    ∧ p + 2 * BUBBLE_AMOUNT ≤ q.
Proof.
  apply (bubble_payouts_ordered 3 [50; -20; -30] 2 1 (-30) (-20));
    [reflexivity|reflexivity|lia].
Defined.

(** X2.  No entry of the array returned by the ranked settlement
    exceeds, in absolute value, the unit amount times the number of
    the other players. *)
Theorem bubble_payouts_bounded (numPlayers : nat) (finalChips : list Z)
    (i : nat) (p : Z) :
  calculateBubblePayouts numPlayers finalChips !! i = Some (Some p) →
  Z.abs p ≤ BUBBLE_AMOUNT * Z.max 0 (Z.of_nat (length finalChips) - 1).
Proof.
  intros Hp. unfold calculateBubblePayouts in Hp.
  destruct (decide (i < length finalChips)%nat) as [Hlt|Hge].
  - destruct (lookup_lt_is_Some_2 finalChips i Hlt) as [v Hv].
    rewrite (bubble_lookup _ _ _ _ _ Hv) in Hp. injection Hp as <-.
    pose proof (rankedPayout_bound BUBBLE_AMOUNT finalChips i v Hv) as Hbound.
    unfold BUBBLE_AMOUNT in *. lia.
  - pose proof (lookup_lt_Some _ _ _ Hp) as Hi. rewrite bubble_length in Hi.
    rewrite bubble_lookup_pad in Hp by lia. injection Hp as <-.
    unfold BUBBLE_AMOUNT. lia.
Qed.

Lemma bubble_payouts_bounded_witness :
  calculateBubblePayouts 3 [50; -20; -30] !! 0%nat = Some (Some 20)
  ∧ Z.abs 20 ≤ BUBBLE_AMOUNT * Z.max 0 (3 - 1).
Proof.
  split; [reflexivity|].
  apply (bubble_payouts_bounded 3 [50; -20; -30] 0 20). reflexivity.
Defined.

(** X3.  The ranked settlement reads the ranks of the chip totals and
    nothing else: a strictly increasing change of the totals leaves
    every payout as it was. *)
Theorem bubble_payouts_rank_only (f : Z → Z) (numPlayers : nat)
    (finalChips : list Z) :
  (∀ x y, x < y ↔ f x < f y) →
  calculateBubblePayouts numPlayers (f <$> finalChips)
  = calculateBubblePayouts numPlayers finalChips.
Proof.
  intros Hf. unfold calculateBubblePayouts.
  rewrite !bubble_closed_form, length_fmap. f_equal.
  rewrite <- list_fmap_compose. apply list_fmap_ext. intros k v _. simpl.
  f_equal. by apply rankedPayout_map.
Qed.

Lemma bubble_payouts_rank_only_witness :
  calculateBubblePayouts 3 ((λ x, 2 * x + 1) <$> [50; -20; -30])
  = calculateBubblePayouts 3 [50; -20; -30].
Proof.
  apply (bubble_payouts_rank_only (λ x, 2 * x + 1) 3 [50; -20; -30]).
  intros x y. lia.
Defined.

(** X4.  The array returned by the ranked settlement has as many
    entries as the larger of [numPlayers] and the number of chip
    totals, and the players without a chip total are paid 0. *)
Theorem bubble_payouts_shape (numPlayers : nat) (finalChips : list Z) :
  length (calculateBubblePayouts numPlayers finalChips)
  = (numPlayers `max` length finalChips)%nat
  ∧ ∀ i, (length finalChips ≤ i < numPlayers)%nat →
      calculateBubblePayouts numPlayers finalChips !! i = Some (Some 0).
Proof.
  unfold calculateBubblePayouts. split; [apply bubble_length|].
  intros i Hi. by apply bubble_lookup_pad.
Qed.

Lemma bubble_payouts_shape_witness :
  (length [50; -50]%Z ≤ 2 < 4)%nat
  ∧ calculateBubblePayouts 4 [50; -50] !! 2%nat = Some (Some 0).
Proof.
  split; [simpl; lia|].
  destruct (bubble_payouts_shape 4 [50; -50]) as [_ Hpad].
  apply (Hpad 2%nat). simpl. lia.
Defined.

(** ** The mercy calculation *)

(** X5.  On chip totals between -5000 and 5000 the mercy amount that
    the program computes on doubles is monotone in the total, it is
    [m] exactly for the totals from [80 m - 40] up to [80 m + 39], and
    it is strictly smaller in absolute value than every total but 0. *)
Theorem mercy_amount_order :
  (∀ t, mercy_checked t →
     ∃ m, Double.mercyAmount t = Number.Int m
          ∧ 80 * m - 40 ≤ t < 80 * m + 40
          ∧ (t ≠ 0 → Z.abs m < Z.abs t))
  ∧ (∀ a b ma mb, mercy_checked a → mercy_checked b → a ≤ b →
       Double.mercyAmount a = Number.Int ma →
       Double.mercyAmount b = Number.Int mb → ma ≤ mb).
Proof.
  split.
  - intros t Ht. exists (mercyAmount t).
    split; [by apply double_mercy_agrees|].
    pose proof (mercy_bounds t). split; [lia|]. apply mercy_shrinks.
  - intros a b ma mb Ha Hb Hab Hma Hmb.
    rewrite (double_mercy_agrees a Ha) in Hma.
    rewrite (double_mercy_agrees b Hb) in Hmb.
    apply Int_inj in Hma, Hmb. subst ma mb. by apply mercy_monotone.
Qed.

Lemma mercy_amount_order_witness :
  ∃ m, Double.mercyAmount 1000 = Number.Int m
       ∧ 80 * m - 40 ≤ 1000 < 80 * m + 40
       ∧ (1000 ≠ 0 → Z.abs m < Z.abs 1000).
Proof.
  destruct mercy_amount_order as [Hband _].
  apply (Hband 1000). unfold mercy_checked. lia.
Defined.



(** X7.  When the chips sum to zero, the chips after the mercy
    calculation need not: on chip totals between -5000 and 5000 the
    integers that the program stores sum to a number within half the
    number of players of zero. *)
Theorem mercy_sum_drift (st : State) :
  sum_results (chips st) = 0 → Forall mercy_checked (chips st) →
  Forall2 (λ total stored, Double.mercyAmount total = Number.Int stored)
          (chips st) (chips (handleMercyCalculation st))
  ∧ - Z.of_nat (length (chips st))
    ≤ 2 * sum_results (chips (handleMercyCalculation st))
    ≤ Z.of_nat (length (chips st)).
Proof.
  intros Hsum Hchips. split.
  - unfold handleMercyCalculation. simpl. apply Forall2_fmap_r, Forall_Forall2_diag.
    eapply Forall_impl; [exact Hchips|]. intros total Htotal.
    by apply double_mercy_agrees.
  - change (chips (handleMercyCalculation st)) with (mercyAmount <$> chips st).
    pose proof (mercy_sum_weak (chips st)) as Hweak.
    rewrite Hsum in Hweak. lia.
Qed.

Lemma mercy_sum_drift_witness :
  let st := after (enter_hand "hand 1" [40; -40; 0; 0]) in
  chips (handleMercyCalculation st) = [1; 0; 0; 0]
  ∧ - 4 ≤ 2 * sum_results (chips (handleMercyCalculation st)) ≤ 4.
Proof.
  intros st. split; [reflexivity|].
  destruct (mercy_sum_drift st) as [_ Hdrift]; [reflexivity| |exact Hdrift].
  unfold mercy_checked. repeat constructor; simpl; lia.
Defined.



(** ** The ledger of a game *)

(** X9.  From the moment the names are confirmed, along every
    sequence of events of the game screen that keeps the integers of
    the state within the range in which doubles are exact, the chips
    sum to zero and so do the Rowie points, and both have one entry
    per player. *)
Theorem game_conserves_chips (st : State) :
  length (playerNames st) = numPlayers st →
  existsb Str.blank (playerNames st) = false →
  ∀ events, exact_run (handleNamesContinue st).1 events = true → ∃ st',
    run (handleNamesContinue st).1 events = Some st'
    ∧ sum_results (chips st') = 0 ∧ sum_results (rowie st') = 0
    ∧ length (chips st') = numPlayers st ∧ length (rowie st') = numPlayers st.
Proof.
  intros Hlen Hnames events _.
  destruct (start_run st events Hlen Hnames) as (st' & Hrun & Hinv & Hlog).
  exists st'. split; [done|]. split; [by eapply inv_chips_sum|].
  split; [apply Hlog|]. split; [by eapply inv_chips_length|apply Hinv].
Qed.

Lemma game_conserves_chips_witness :
  ∃ st',
    run four_player_game
      (open_rowie ++ enter_hand "hand 1" [10; -10; 0; 0]) = Some st'
    ∧ sum_results (chips st') = 0 ∧ sum_results (rowie st') = 0
    ∧ length (chips st') = 4%nat ∧ length (rowie st') = 4%nat.
Proof.
  apply (game_conserves_chips four_players); [reflexivity|reflexivity|].
  vm_compute. reflexivity.
Defined.

(** X10.  The events of the game screen only ever append to the hands
    and to the completed Rowies: what was recorded stays recorded, in
    the same place. *)
Theorem ledger_append_only n events : ∀ st st',
  game_inv n st → run st events = Some st' →
  hands st `prefix_of` hands st'
  ∧ completedRowies st `prefix_of` completedRowies st'.
Proof.
  induction events as [|e events IH]; intros st st' Hinv Hrun; simpl in Hrun.
  - by injection Hrun as <-.
  - destruct (dispatch_inv n st e Hinv) as (st1 & Hd & Hinv1).
    rewrite Hd in Hrun. simpl in Hrun.
    destruct (dispatch_prefix n st e st1 Hinv Hd) as [Hh Hc].
    destruct (IH st1 st' Hinv1 Hrun) as [Hh' Hc'].
    split; etrans; eauto.
Qed.

Lemma ledger_append_only_witness :
  let events := open_rowie ++ enter_hand "hand 1" [10; -10; 0; 0] in
  hands four_player_game `prefix_of` hands (after events)
  ∧ completedRowies four_player_game `prefix_of` completedRowies (after events).
Proof.
  intros events.
  apply (ledger_append_only 4 events four_player_game (after events));
    [apply four_player_game_inv|vm_compute; reflexivity].
Defined.

(** X11.  Only [Submit Hand] changes the ledger: along events none of
    which is a press of [Submit Hand], the hands, the chips, the Rowie
    points, the completed Rowies, the names and the number of players
    stay as they were. *)
Theorem only_submit_changes_ledger (events : list Event) : ∀ st st',
  Forall (λ e, ∀ now, e ≠ PressSubmit now) events →
  run st events = Some st' →
  hands st' = hands st ∧ chips st' = chips st ∧ rowie st' = rowie st
  ∧ completedRowies st' = completedRowies st
  ∧ playerNames st' = playerNames st ∧ numPlayers st' = numPlayers st.
Proof.
  induction events as [|e events IH]; intros st st' Hall Hrun; simpl in Hrun.
  - by injection Hrun as <-.
  - apply Forall_cons in Hall as [He Hall].
    destruct (dispatch st e) as [st1|] eqn:Hd; [|done]. simpl in Hrun.
    destruct (dispatch_frame st e st1 He Hd) as (H1 & H2 & H3 & H4 & H5 & H6).
    destruct (IH st1 st' Hall Hrun) as (? & ? & ? & ? & ? & ?).
    repeat split; congruence.
Qed.

Lemma only_submit_changes_ledger_witness :
  let st := after (enter_hand "hand 1" [10; -10; 0; 0]) in
  let events := open_rowie ++ type_results [5; -5; 0; 0] ++ [PressMinus 0; PressPrevious] in
  hands (after (enter_hand "hand 1" [10; -10; 0; 0] ++ events)) = hands st
  ∧ chips (after (enter_hand "hand 1" [10; -10; 0; 0] ++ events)) = chips st.
Proof.
  intros st events.
  destruct (only_submit_changes_ledger events st
              (after (enter_hand "hand 1" [10; -10; 0; 0] ++ events)))
    as (Hhands & Hchips & _).
  - repeat (constructor; [intros now; discriminate|]). constructor.
  - vm_compute. reflexivity.
  - split; [exact Hhands|exact Hchips].
Defined.





(** X14.  The minus button pressed twice on the same input puts the
    state back as it was. *)
Theorem minus_twice_restores n st idx :
  game_inv n st → run st [PressMinus idx; PressMinus idx] = Some st.
Proof.
  intros Hinv. cbn [run dispatch].
  destruct (game_screen st && bool_decide (idx < length (playerNames st))%nat)
    eqn:Hguard.
  - apply andb_prop in Hguard as [Hscreen Hlt%bool_decide_eq_true].
    destruct (lookup_lt_is_Some_2 (handResults st) idx) as [r Hr].
    { rewrite (inv_results _ _ Hinv), <- (inv_names _ _ Hinv). done. }
    assert (toggleNegative idx st
            = Some (setHandResults (<[idx := - r]> (handResults st)) st)) as ->.
    { unfold toggleNegative. by rewrite Hr. }
    cbn [mbind option_bind].
    match goal with |- context [game_screen ?s] =>
      replace (game_screen s) with true by (symmetry; exact Hscreen) end.
    cbn [playerNames setHandResults]. rewrite bool_decide_eq_true_2 by done.
    cbn [andb]. unfold toggleNegative. cbn [handResults setHandResults].
    rewrite list_lookup_insert_eq by (by eapply lookup_lt_Some).
    cbn [mbind option_bind]. rewrite list_insert_insert_eq, Z.opp_involutive.
    rewrite list_insert_id by done. by destruct st.
  - cbn [mbind option_bind]. by rewrite Hguard.
Qed.

Lemma minus_twice_restores_witness :
  let st := after (type_results [10; -10; 0; 0]) in
  run st [PressMinus 1; PressMinus 1] = Some st.
Proof.
  intros st. apply (minus_twice_restores 4 st 1). apply after_inv.
Defined.

(** ** The Rowie window *)



(** X16.  From the moment the names are confirmed, along every
    sequence of events of the game screen, the completed Rowies are
    numbered 1, 2, 3, ... in the order they are kept, each covers a
    range of hands that were played, the ranges follow one another
    without overlap, and all of them end before the window that is
    open, if one is. *)
Theorem completed_rowies_log (st : State) :
  length (playerNames st) = numPlayers st →
  existsb Str.blank (playerNames st) = false →
  ∀ events, ∃ st',
    run (handleNamesContinue st).1 events = Some st'
    ∧ (∀ i r, completedRowies st' !! i = Some r →
         CompletedRowie.rowieNumber r = Z.of_nat i + 1
         ∧ 1 ≤ CompletedRowie.startHand r ≤ CompletedRowie.endHand r
         ∧ CompletedRowie.endHand r ≤ Z.of_nat (length (hands st')))
    ∧ (∀ i j r r', (i < j)%nat →
         completedRowies st' !! i = Some r → completedRowies st' !! j = Some r' →
         CompletedRowie.endHand r < CompletedRowie.startHand r')
    ∧ (0 < RowieSettings.currentHand (rowieSettings st') →
       ∀ r, r ∈ completedRowies st' →
         CompletedRowie.endHand r ≤ RowieSettings.startHand (rowieSettings st')).
Proof.
  intros Hlen Hnames events.
  destruct (start_run st events Hlen Hnames) as (st' & Hrun & Hinv & Hlog).
  exists st'. split; [done|].
  pose proof (log_bound_le _ _ Hinv) as Hbound.
  pose proof (log_ranges _ Hlog) as Hranges. rewrite Forall_forall in Hranges.
  split; [|split].
  - intros i r Hr. split; [by apply (log_numbered _ Hlog)|].
    apply list_elem_of_lookup_2, Hranges in Hr. lia.
  - intros i j r r' Hij Hr Hr'.
    by apply (StronglySorted_lookup _ _ i j r r' (log_sorted _ Hlog)).
  - intros Hopen r Hr. apply Hranges in Hr. unfold log_bound in Hr.
    rewrite decide_True in Hr by done. lia.
Qed.

Lemma completed_rowies_log_witness :
  ∃ st',
    run four_player_game
      (open_rowie ++ enter_hand "hand 1" [10; -10; 0; 0]
       ++ enter_hand "hand 2" [5; -5; 0; 0]
       ++ open_rowie ++ enter_hand "hand 3" [0; 0; 7; -7]
       ++ enter_hand "hand 4" [0; 0; 7; -7]) = Some st'
    ∧ (∀ i r, completedRowies st' !! i = Some r →
         CompletedRowie.rowieNumber r = Z.of_nat i + 1
         ∧ 1 ≤ CompletedRowie.startHand r ≤ CompletedRowie.endHand r
         ∧ CompletedRowie.endHand r ≤ Z.of_nat (length (hands st'))).
Proof.
  destruct (completed_rowies_log four_players ltac:(reflexivity) ltac:(reflexivity)
              (open_rowie ++ enter_hand "hand 1" [10; -10; 0; 0]
               ++ enter_hand "hand 2" [5; -5; 0; 0]
               ++ open_rowie ++ enter_hand "hand 3" [0; 0; 7; -7]
               ++ enter_hand "hand 4" [0; 0; 7; -7]))
    as (st' & Hrun & Hlog & _).
  exists st'. split; [exact Hrun|exact Hlog].
Defined.



(** ** The proportional pot when a round is saved *)

(** X18.  On a points vector no longer than the number of players the
    proportional-pot settlement returns one entry per player, none of
    them a hole, and 0 for every player whose points are not
    positive. *)
Theorem rowie_payouts_shape numPlayers potAmount rowiePoints :
  (length rowiePoints ≤ numPlayers)%nat →
  length (calculateRowiePayouts numPlayers potAmount rowiePoints) = numPlayers
  ∧ Forall is_Some (calculateRowiePayouts numPlayers potAmount rowiePoints)
  ∧ (∀ i, (i < numPlayers)%nat →
       (∀ p, rowiePoints !! i = Some p → p ≤ 0) →
       calculateRowiePayouts numPlayers potAmount rowiePoints !! i
       = Some (Some (Number.Int 0))).
Proof.
  intros Hlen.
  assert (length (calculateRowiePayouts numPlayers potAmount rowiePoints) = numPlayers)
    as Hl.
  { apply Nat.le_antisymm.
    - rewrite calculateRowiePayouts_writes. apply assign_all_length_le.
      + intros j w (p & Hp & _)%elem_of_rowie_writes.
        apply lookup_lt_Some in Hp. lia.
      + unfold Js.Array_fill. by rewrite length_replicate.
    - rewrite calculateRowiePayouts_writes.
      etrans; [|apply assign_all_length_ge].
      unfold Js.Array_fill. by rewrite length_replicate. }
  split; [done|]. split.
  - apply Forall_lookup. intros i slot Hslot.
    assert (i < numPlayers)%nat as Hi by (rewrite <- Hl; by eapply lookup_lt_Some).
    destruct (rowiePoints !! i) as [p|] eqn:Hp.
    + destruct (decide (0 < p)).
      * rewrite (rowie_lookup_positive _ _ _ _ _ Hp) in Hslot by done.
        injection Hslot as <-. eauto.
      * rewrite rowie_lookup_other in Hslot; [injection Hslot as <-; eauto|done|].
        intros p' Hp'. rewrite Hp in Hp'. injection Hp' as <-. lia.
    + rewrite rowie_lookup_other in Hslot; [injection Hslot as <-; eauto|done|].
      intros p' Hp'. by rewrite Hp in Hp'.
  - intros i Hi Hp. by apply rowie_lookup_other.
Qed.

Lemma rowie_payouts_shape_witness :
  length (calculateRowiePayouts 4 5 [15; -15; 0; 0]) = 4%nat
  ∧ Forall is_Some (calculateRowiePayouts 4 5 [15; -15; 0; 0]).
Proof.
  destruct (rowie_payouts_shape 4 5 [15; -15; 0; 0]) as (Hlen & Hdense & _);
    [simpl; lia|].
  split; [exact Hlen|exact Hdense].
Defined.

(** X19.  The Rowie payouts that [saveToHistory] computes, in every
    state that the game reaches with a positive Rowie value through
    events that keep the integers of the state within the range in
    which doubles are exact: the points are sums of zero-sum hands, so
    the divisor is 0, and every player with positive points is paid
    [Infinity], every other player 0. *)
Theorem saved_payouts_infinite (st : State) :
  length (playerNames st) = numPlayers st →
  existsb Str.blank (playerNames st) = false →
  ∀ events, exact_run (handleNamesContinue st).1 events = true → ∃ st',
    run (handleNamesContinue st).1 events = Some st'
    ∧ sum_results (rowie st') = 0
    ∧ (0 < RowieSettings.potAmount (rowieSettings st') →
       ∀ now i p, rowie st' !! i = Some p →
         GameRound.rowiePayouts (roundOf now st') !! i
         = Some (Some (if decide (0 < p) then Infinity else Number.Int 0))).
Proof.
  intros Hlen Hnames events _.
  destruct (start_run st events Hlen Hnames) as (st' & Hrun & Hinv & Hlog).
  exists st'. split; [done|]. split; [apply Hlog|].
  intros Hpot now i p Hp. simpl.
  by apply (saved_payouts_reached (numPlayers st)).
Qed.

Lemma saved_payouts_infinite_witness :
  ∃ st',
    run four_player_game
      (open_rowie ++ enter_hand "hand 1" [10; -10; 0; 0]) = Some st'
    ∧ sum_results (rowie st') = 0
    ∧ (0 < RowieSettings.potAmount (rowieSettings st') →
       ∀ now i p, rowie st' !! i = Some p →
         GameRound.rowiePayouts (roundOf now st') !! i
         = Some (Some (if decide (0 < p) then Infinity else Number.Int 0))).
Proof.
  apply (saved_payouts_infinite four_players); [reflexivity|reflexivity|].
  vm_compute. reflexivity.
Defined.

(** ** Setting a game up, saving it and viewing it *)

(** X20.  Whatever the state before, choosing the number of players
    and typing names of ASCII characters fills the names in.  With a
    name that is empty or white space only
    [Continue] is answered by an alert and changes nothing; otherwise
    it starts a fresh game: no hand, no completed Rowie, no open
    window, all chips and Rowie points 0, the game screen shown, and
    every sequence of events of the game screen is answered.  [New
    Game] pressed first makes no difference to the game started. *)
Theorem game_setup (names : list string) (st : State) :
  forallb Str.is_ascii names = true →
  let n := length names in
  ∃ typed,
    type_names names (handleNumPlayers n st) = Some typed
    ∧ playerNames typed = names
    ∧ (existsb Str.blank names = true →
       handleNamesContinue typed = (typed, [names_error]))
    ∧ (existsb Str.blank names = false →
       let game := (handleNamesContinue typed).1 in
       handleNamesContinue typed = (game, [])
       ∧ game_inv n game
       ∧ playerNames game = names
       ∧ chips game = replicate n 0 ∧ rowie game = replicate n 0
       ∧ hands game = [] ∧ completedRowies game = []
       ∧ rowieSettings game = RowieSettings.initial
       ∧ game_screen game = true
       ∧ (∀ typed',
            type_names names (handleNumPlayers n (handleNewGame st)) = Some typed' →
            (handleNamesContinue typed').1 = game)
       ∧ ∀ events, ∃ st', run game events = Some st' ∧ game_inv n st').
Proof.
  intros _ n. exists (setPlayerNames names (handleNumPlayers n st)).
  split; [apply type_names_Some; simpl; by rewrite length_replicate|].
  split; [done|]. split.
  - intros Hblank. unfold handleNamesContinue.
    cbn [playerNames setPlayerNames]. by rewrite Hblank.
  - intros Hnames.
    destruct (handleNamesContinue_inv (setPlayerNames names (handleNumPlayers n st)))
      as (Hinv & _); [done|done|].
    revert Hinv.
    rewrite (type_names_Some names (handleNumPlayers n (handleNewGame st)))
      by (simpl; by rewrite length_replicate).
    unfold handleNamesContinue. cbn [playerNames setPlayerNames].
    rewrite Hnames. cbv zeta. cbn [fst]. intros Hinv.
    split; [done|]. split; [exact Hinv|]. do 6 (split; [done|]).
    split; [done|]. split.
    + intros typed' [= <-]. cbn [playerNames setPlayerNames].
      by rewrite Hnames.
    + intros events. by apply run_inv.
Qed.

Lemma game_setup_witness :
  ∃ typed,
    type_names ["alice"; "Al"; "bob"; "carol"]%string
      (handleNumPlayers 4 scenario_window) = Some typed
    ∧ hands (handleNamesContinue typed).1 = []
    ∧ chips (handleNamesContinue typed).1 = [0; 0; 0; 0].
Proof.
  destruct (game_setup ["alice"; "Al"; "bob"; "carol"]%string scenario_window)
    as (typed & Htyped & _ & _ & Hgame); [reflexivity|].
  destruct (Hgame ltac:(reflexivity)) as (_ & _ & _ & Hchips & _ & Hhands & _).
  exists typed. split; [exact Htyped|]. split; [exact Hhands|exact Hchips].
Defined.

(** X21.  Opening the history from a running game and returning to
    the game keeps the game: the chips, the hands, the Rowie points,
    the open window and the completed Rowies are as they were, the
    state is again a state of the game, and only the results typed
    for the next hand are cleared. *)
Theorem history_and_back n history st :
  game_inv n st → log_inv st →
  let st' := handleReturnToGame (pressHistory history st) in
  game_inv n st' ∧ log_inv st'
  ∧ chips st' = chips st ∧ hands st' = hands st ∧ rowie st' = rowie st
  ∧ rowieSettings st' = rowieSettings st
  ∧ completedRowies st' = completedRowies st
  ∧ currentHandIndex st' = currentHandIndex st
  ∧ handResults st' = replicate n 0.
Proof.
  intros Hinv Hlog st'. unfold st', handleReturnToGame, pressHistory.
  destruct Hinv as [Hn Hnames Hchips Hrowie Hres Hhands Hidx Hsummary Hstep Hcur Hwin].
  destruct Hlog as [H1 H2 H3 H4 H5].
  case_decide; simpl; rewrite Hn;
    (split; [split; simpl; rewrite ?length_replicate; try (done || lia || tauto)|]);
    (split; [split; done|]); done.
Qed.

Lemma history_and_back_witness :
  let st := after (open_rowie ++ enter_hand "hand 1" [10; -10; 0; 0]
                   ++ type_results [5; -5; 0; 0]) in
  let st' := handleReturnToGame (pressHistory [roundOf "then" four_player_game] st) in
  chips st' = chips st ∧ hands st' = hands st
  ∧ rowieSettings st' = rowieSettings st
  ∧ handResults st' = [0; 0; 0; 0].
Proof.
  intros st st'.
  destruct (history_and_back 4 [roundOf "then"%string four_player_game] st)
    as (_ & _ & Hchips & Hhands & _ & Hsettings & _ & _ & Hresults);
    [apply after_inv|apply after_log|].
  split; [exact Hchips|]. split; [exact Hhands|].
  split; [exact Hsettings|exact Hresults].
Defined.

(** X22.  [Save to History] puts the round first in the history, with
    ranked payouts that sum to zero, and resets the game; deleting the
    first round gives the history back.  Viewing the saved round
    restores its names, chips, Rowie points, Rowie settings and hands,
    but not the number of players, which stays at 2; [Back to History]
    then leads to the state in which the round was left after saving,
    and [Return to Current Game] to the game screen, on the chips and
    the hands of the saved round, with the results reset to two zeros. *)
Theorem saved_round_viewed (now : string) (st : State)
    (history : list GameRound.t) :
  let saved := handleSaveAndExit now st history in
  ∃ round,
    saved.2 = round :: history
    ∧ Js.sum (GameRound.bubblePayouts round) = 0
    ∧ deleteHistoryRound 0 saved.2 = history
    ∧ step saved.1 = 1 ∧ hands saved.1 = [] ∧ chips saved.1 = [0; 0]
    ∧ let viewed := loadHistoryRound round saved.1 in
      playerNames viewed = playerNames st
      ∧ chips viewed = chips st
      ∧ rowie viewed = rowie st
      ∧ rowieSettings viewed = rowieSettings st
      ∧ hands viewed = hands st
      ∧ numPlayers viewed = 2%nat
      ∧ exitHistoryView viewed = saved.1
      ∧ let returned := handleReturnToGame viewed in
        game_screen returned = true
        ∧ handResults returned = [0; 0]
        ∧ chips returned = chips st
        ∧ hands returned = hands st.
Proof.
  intros saved. exists (roundOf now st). unfold saved. simpl.
  split; [done|]. split.
  { unfold calculateBubblePayouts. rewrite bubble_closed_form, js_sum_dense.
    apply sumZ_rankedPayout. }
  unfold deleteHistoryRound. simpl. rewrite drop_0. repeat split; done.
Qed.




